(** * go-logger: levels, the Recorder writer, the Logger facade and SecretMask

    A shallow embedding of the Go package [logger] and the properties of
    its specification.

    - Go's [int] levels are [Z]; a Go [string] is a Rocq [string] (a
      sequence of bytes); an [interface{}] value is the tagged union
      [value].
    - Recorders live on a heap ([list Recorder], addresses are indices)
      because the code shares one root node between every writer derived
      from it and mutates it in place.
    - An operation that can end in a run-time panic (index out of range,
      nil dereference) returns an [option]; [None] is the panic. *)

From Stdlib Require Import ZArith Ascii String List Lia Bool.
From stdpp Require Import base tactics option list strings pretty.

Local Open Scope string_scope.
Local Open Scope list_scope.
Local Open Scope stdpp_scope.
Local Open Scope Z_scope.

(** ** Levels (logger.go) *)

Module Level.

(** [type Level int] *)
Definition Level := Z.

Definition DebugLevel : Level := 0.
Definition InfoLevel : Level := 1.
Definition WarningLevel : Level := 2.
Definition ErrorLevel : Level := 3.
Definition PanicLevel : Level := 4.
Definition FatalLevel : Level := 5.

Definition levelNames : list string :=
  ["debug"; "info"; "warning"; "error"; "panic"; "fatal"].

(** [func (l Level) String() string { return levelNames[l] }].
    Indexing a slice with an index outside [0, len) panics. *)
Definition Level_String (l : Level) : option string :=
  if (l <? 0) || (Z.of_nat (length levelNames) <=? l) then None
  else levelNames !! Z.to_nat l.

(** *** strings.ToLower

    Go lower-cases a string made of ASCII bytes only byte by byte
    ('A'..'Z' get 32 added).  A string with a byte >= 0x80 goes through
    [strings.Map(unicode.ToLower, s)], which depends on the Unicode
    tables; that branch is a parameter here, and module [Strings] below
    gives it. *)

Definition byte_of (c : ascii) : Z := Z.of_N (N_of_ascii c).

Definition isASCII (c : ascii) : bool := byte_of c <? 128.

Definition isUpperASCII (c : ascii) : bool :=
  (65 <=? byte_of c) && (byte_of c <=? 90).

Definition lowerASCII (c : ascii) : ascii :=
  if isUpperASCII c then ascii_of_N (Z.to_N (byte_of c + 32)) else c.

Fixpoint allASCII (s : string) : bool :=
  match s with
  | EmptyString => true
  | String c s' => isASCII c && allASCII s'
  end.

Fixpoint mapString (f : ascii -> ascii) (s : string) : string :=
  match s with
  | EmptyString => EmptyString
  | String c s' => String (f c) (mapString f s')
  end.

Section WithUnicode.

(** [strings.Map(unicode.ToLower, s)] on strings that are not pure ASCII. *)
Variable unicodeToLower : string -> string.

Definition ToLower (s : string) : string :=
  if allASCII s then mapString lowerASCII s else unicodeToLower s.

(** [LevelFromString]: a switch over the lower-cased name, with
    [DebugLevel] as the default. *)
Definition LevelFromString (level : string) : Level :=
  let s := ToLower level in
  if String.eqb s "debug" then DebugLevel
  else if String.eqb s "info" then InfoLevel
  else if String.eqb s "warning" then WarningLevel
  else if String.eqb s "error" then ErrorLevel
  else if String.eqb s "panic" then PanicLevel
  else if String.eqb s "fatal" then FatalLevel
  else DebugLevel.

End WithUnicode.

(** Two bytes are the same letter up to ASCII case: they are equal, or
    one is an upper-case ASCII letter and the other is that byte plus 32.
    This does not mention [lowerASCII]. *)
Definition sameLetter (a b : ascii) : Prop :=
  a = b
  \/ (isUpperASCII a = true /\ byte_of b = byte_of a + 32)
  \/ (isUpperASCII b = true /\ byte_of a = byte_of b + 32).

(** [caseVariant s t]: [s] and [t] have the same length and agree
    position by position up to ASCII case. *)
Fixpoint caseVariant (s t : string) : Prop :=
  match s, t with
  | EmptyString, EmptyString => True
  | String a s', String b t' => sameLetter a b /\ caseVariant s' t'
  | _, _ => False
  end.

Definition canonical (name : string) : Prop :=
  exists l, Level_String l = Some name.

End Level.

(** ** Values, contexts and request ids (middleware.go) *)

Module Ctx.

(** [interface{}] values that reach the logger: an untyped nil, a bool,
    an int, a string or an error (with its [Error()] text). *)
Inductive value : Type :=
| VNil
| VBool (b : bool)
| VInt (n : Z)
| VStr (s : string)
| VErr (msg : string).

(** A context key is compared with [==]: same dynamic type, same value. *)
Inductive ctxKey : Type := CtxKey (type name : string).

Global Instance ctxKey_eq_dec : EqDecision ctxKey.
Proof. solve_decision. Defined.

(** A [context.Context] built from [context.Background()] by
    [context.WithValue]: the bindings, innermost first. *)
Definition Context := list (ctxKey * value).

Definition Background : Context := [].

Definition WithValue (parent : Context) (key : ctxKey) (val : value) : Context :=
  (key, val) :: parent.

(** [ctx.Value(key)]: the innermost binding of [key], nil when there is none. *)
Fixpoint Value (ctx : Context) (key : ctxKey) : value :=
  match ctx with
  | [] => VNil
  | (k, v) :: parent => if decide (k = key) then v else Value parent key
  end.

(** [const requestIDKey requestIDKeyType = "request-id"] *)
Definition requestIDKey : ctxKey := CtxKey "requestIDKeyType" "request-id".

Definition NewContext (parent : Context) (reqID : string) : Context :=
  WithValue parent requestIDKey (VStr reqID).

(** [v, ok := ctx.Value(requestIDKey).(string)] *)
Definition FromContext (ctx : Context) : string :=
  match Value ctx requestIDKey with
  | VStr v => v
  | _ => ""
  end.

Definition CtxMiddleware := Context -> list value.

Definition RequestIDMiddleware : CtxMiddleware := fun ctx =>
  let reqID := FromContext ctx in
  if negb (String.eqb reqID "") then [VStr "request_id"; VStr reqID] else [].

Definition DefaultMiddlewares : list CtxMiddleware := [RequestIDMiddleware].

End Ctx.

(** ** The Recorder writer (recorder.go) *)

Module Recorder.
Import Level Ctx.

Record LogEntry : Type := mkLogEntry {
  Level : Level.Level;
  Str : string;
  Args : list value;
  Fields : list value
}.

(** A [*Recorder] is an address; an address outside the heap stands for
    the nil pointer. *)
Abbreviation addr := nat (only parsing).

Record Recorder : Type := mkRecorder {
  fields : list value;
  syncCalled : bool;
  parent : option addr;
  entries : list LogEntry
}.

Abbreviation heap := (list Recorder) (only parsing).

(** [&Recorder{}]: a fresh node with every field zero. *)
Definition new (h : heap) : addr * heap :=
  (length h, h ++ [mkRecorder [] false None []]).

(** The loop of [top()]: follow parent pointers until a node has none.
    [fuel] bounds the number of iterations; [None] when a pointer does
    not resolve or the fuel runs out. *)
Fixpoint top_loop (fuel : nat) (h : heap) (top : addr) (parent : option addr)
  : option addr :=
  match parent with
  | None => Some top
  | Some p =>
      match fuel with
      | O => None
      | S fuel' =>
          match h !! p with
          | Some r => top_loop fuel' h p r.(Recorder.parent)
          | None => None
          end
      end
  end.

Definition top (h : heap) (rec : addr) : option addr :=
  match h !! rec with
  | Some r => top_loop (length h) h rec r.(parent)
  | None => None
  end.

(** [clone]: a new node whose parent is the receiver. *)
Definition clone (h : heap) (rec : addr) (fs : list value) : addr * heap :=
  (length h, h ++ [mkRecorder ([] ++ fs) false (Some rec) []]).

Definition With (h : heap) (rec : addr) (fs : list value) : option (addr * heap) :=
  match h !! rec with
  | Some r =>
      let all := [] ++ r.(fields) in
      let all := all ++ fs in
      Some (clone h rec all)
  | None => None
  end.

(** [top.entries = append(top.entries, e)] *)
Definition addEntry (r : Recorder) (e : LogEntry) : Recorder :=
  mkRecorder r.(fields) r.(syncCalled) r.(parent) (r.(entries) ++ [e]).

(** [top.syncCalled = true] *)
Definition setSync (r : Recorder) : Recorder :=
  mkRecorder r.(fields) true r.(parent) r.(entries).

(** The entry that [record] builds on node [r]: the fields are a copy of
    the node's. *)
Definition entryOf (r : Recorder) (level : Level.Level) (str : string)
    (args : list value) : LogEntry :=
  mkLogEntry level str args r.(fields).

Definition record (h : heap) (rec : addr) (level : Level.Level) (str : string)
    (args : list value) : option heap :=
  match top h rec, h !! rec with
  | Some t, Some r =>
      let e := entryOf r level str args in
      match h !! t with
      | Some tr => Some (<[t := addEntry tr e]> h)
      | None => None
      end
  | _, _ => None
  end.

Definition Log (h : heap) (rec : addr) (level : Level.Level) (args : list value)
  : option heap :=
  record h rec level "" args.

Definition Logf (h : heap) (rec : addr) (level : Level.Level) (str : string)
    (args : list value) : option heap :=
  record h rec level str args.

Definition Sync (h : heap) (rec : addr) : option heap :=
  match top h rec with
  | Some t =>
      match h !! t with
      | Some tr => Some (<[t := setSync tr]> h)
      | None => None
      end
  | None => None
  end.

Definition SyncCalled (h : heap) (rec : addr) : option bool :=
  match top h rec with
  | Some t => syncCalled <$> h !! t
  | None => None
  end.

Definition Entries (h : heap) (rec : addr) : option (list LogEntry) :=
  match top h rec with
  | Some t => entries <$> h !! t
  | None => None
  end.

(** A sequence of [Logf] calls (a [Log] has the empty format string), each
    on a node of its own, run one after the other. *)
Record emission : Type := mkEmission {
  em_node : addr;
  em_level : Level.Level;
  em_str : string;
  em_args : list value
}.

Fixpoint recordAll (ops : list emission) (h : heap) : option heap :=
  match ops with
  | [] => Some h
  | op :: ops' =>
      match record h op.(em_node) op.(em_level) op.(em_str) op.(em_args) with
      | Some h' => recordAll ops' h'
      | None => None
      end
  end.

(** The entry an emission leaves: its level, format and arguments, with
    the fields bound to its node in [h]. *)
Definition emitted (h : heap) (op : emission) (e : LogEntry) : Prop :=
  exists ra, h !! op.(em_node) = Some ra
             /\ e = entryOf ra op.(em_level) op.(em_str) op.(em_args).

(** *** Dump *)

(** [fmt.Sprint(a)] of one operand. *)
Definition Sprint (a : value) : string :=
  match a with
  | VNil => "<nil>"
  | VBool true => "true"
  | VBool false => "false"
  | VInt n => pretty n
  | VStr s => s
  | VErr msg => msg
  end.

Fixpoint spaces (n : nat) : string :=
  match n with
  | O => ""
  | S n' => String " " (spaces n')
  end.

(** [fmt.Sprintf("%-7s", s)]: [s] followed by spaces up to width 7. *)
Definition padRight7 (s : string) : string :=
  s +:+ spaces (7 - String.length s).

Definition newline : string := String (ascii_of_nat 10) EmptyString.

(** The two inner loops of [Dump]: the items, with ", " written before
    every item but the first. *)
Fixpoint writeItems (first : bool) (l : list value) : string :=
  match l with
  | [] => ""
  | a :: l' => (if first then "" else ", ") +:+ Sprint a +:+ writeItems false l'
  end.

Section Dump.

(** [fmt.Sprintf(format, args...)] for the format string of an entry. *)
Variable Sprintf : string -> list value -> string.

Definition dumpEntry (e : LogEntry) : option string :=
  match Level_String e.(Level) with
  | None => None
  | Some name =>
      Some ("[" +:+ padRight7 name +:+ "]"
            +:+ (if negb (String.eqb e.(Str) "")
                 then " " +:+ Sprintf e.(Str) e.(Args) else "")
            +:+ (if String.eqb e.(Str) "" && (0 <? Z.of_nat (length e.(Args)))
                 then " [" +:+ writeItems true e.(Args) +:+ "]" else "")
            +:+ " {" +:+ writeItems true e.(Fields) +:+ "}" +:+ newline)
  end.

Fixpoint dumpEntries (es : list LogEntry) : option string :=
  match es with
  | [] => Some ""
  | e :: es' =>
      match dumpEntry e, dumpEntries es' with
      | Some s, Some rest => Some (s +:+ rest)
      | _, _ => None
      end
  end.

Definition Dump (h : heap) (rec : addr) : option string :=
  match Entries h rec with
  | Some es => dumpEntries es
  | None => None
  end.

End Dump.

(** *** Heaps the code can build

    Nodes are only created by [new] and [clone], so the parent of a node
    is always an older node. *)
Definition wf (h : heap) : Prop :=
  forall a r p, h !! a = Some r -> r.(parent) = Some p -> (p < a)%nat.

(** [chain h root a]: [a] is [root] or was derived from it by [With]. *)
Inductive chain (h : heap) (root : addr) : addr -> Prop :=
| chain_root r :
    h !! root = Some r -> r.(parent) = None -> chain h root root
| chain_child a r p :
    h !! a = Some r -> r.(parent) = Some p -> chain h root p -> chain h root a.

(** *** Programs over recorders

    A call that changes the heap: allocating a root, deriving a writer,
    logging, or signalling a sync. *)
Inductive rcall : Type :=
| RNew
| RWith (rec : addr) (fs : list value)
| RLog (rec : addr) (level : Level.Level) (args : list value)
| RLogf (rec : addr) (level : Level.Level) (str : string) (args : list value)
| RSync (rec : addr).

Definition rstep (c : rcall) (h : heap) : option heap :=
  match c with
  | RNew => Some (snd (new h))
  | RWith rec fs => snd <$> With h rec fs
  | RLog rec level args => Log h rec level args
  | RLogf rec level str args => Logf h rec level str args
  | RSync rec => Sync h rec
  end.

Fixpoint rrun (cs : list rcall) (h : heap) : option heap :=
  match cs with
  | [] => Some h
  | c :: cs' =>
      match rstep c h with
      | Some h' => rrun cs' h'
      | None => None
      end
  end.

(** The receiver of a call, and whether the call allocates a node. *)
Definition receiver (c : rcall) : option addr :=
  match c with
  | RNew => None
  | RWith rec _ | RLog rec _ _ | RLogf rec _ _ _ | RSync rec => Some rec
  end.

Definition allocates (c : rcall) : bool :=
  match c with
  | RNew | RWith _ _ => true
  | _ => false
  end.

(** [onLive cs n]: in a heap of [n] nodes, every call of [cs] has for
    receiver a node that was allocated before the call. *)
Fixpoint onLive (cs : list rcall) (n : nat) : bool :=
  match cs with
  | [] => true
  | c :: cs' =>
      match receiver c with
      | Some rec => (rec <? n)%nat
      | None => true
      end
      && onLive cs' (if allocates c then S n else n)
  end.

(** A level outside the table of names. *)
Definition unnamed (level : Level.Level) : Prop := level < 0 \/ 5 < level.

End Recorder.

(** ** The Logger facade (logger.go, logger_noop.go) *)

Module Logger.
Import Level Ctx.

(** The writers of the package that keep no external state: the no-op
    writer and a [*Recorder].  (The zap-backed writer hands every call
    to an external backend and is not modelled.) *)
Inductive Writer : Type :=
| noOpLogger
| recorder (rec : Recorder.addr).

Definition Writer_With (w : Writer) (h : Recorder.heap) (fs : list value)
  : option (Writer * Recorder.heap) :=
  match w with
  | noOpLogger => Some (noOpLogger, h)
  | recorder rec =>
      match Recorder.With h rec fs with
      | Some (rec', h') => Some (recorder rec', h')
      | None => None
      end
  end.

Definition Writer_Log (w : Writer) (h : Recorder.heap) (level : Level.Level)
    (args : list value) : option Recorder.heap :=
  match w with
  | noOpLogger => Some h
  | recorder rec => Recorder.Log h rec level args
  end.

Definition Writer_Logf (w : Writer) (h : Recorder.heap) (level : Level.Level)
    (str : string) (args : list value) : option Recorder.heap :=
  match w with
  | noOpLogger => Some h
  | recorder rec => Recorder.Logf h rec level str args
  end.

Definition Writer_Sync (w : Writer) (h : Recorder.heap) : option Recorder.heap :=
  match w with
  | noOpLogger => Some h
  | recorder rec => Recorder.Sync h rec
  end.

Record Config : Type := mkConfig {
  cfg_Log : string;
  cfg_Level : Level.Level;
  cfg_OutputPaths : option (list string);
  cfg_CtxMiddlewares : list CtxMiddleware;
  cfg_SkipDefaultMiddlewares : bool;
  cfg_DisableStacktrace : bool
}.

(** [Config{}] *)
Definition Config_zero : Config := mkConfig "" 0 None [] false false.

(** A nil [writer] is [None]. *)
Record Logger : Type := mkLogger {
  writer : option Writer;
  level : Level.Level;
  ctxMiddlewares : list CtxMiddleware
}.

(** [Logger{}] *)
Definition Logger_zero : Logger := mkLogger None 0 [].

Definition NewWithWriter (cfg : Config) (w : option Writer) : Logger :=
  let l := mkLogger w cfg.(cfg_Level) cfg.(cfg_CtxMiddlewares) in
  if cfg.(cfg_SkipDefaultMiddlewares) then l
  else mkLogger l.(writer) l.(level) (l.(ctxMiddlewares) ++ DefaultMiddlewares).

Definition noOpWriter : Writer := noOpLogger.

Definition innerWriter (l : Logger) : Writer :=
  match l.(writer) with
  | None => noOpWriter
  | Some w => w
  end.

Definition clone (l : Logger) (w : Writer) : Logger :=
  mkLogger (Some w) l.(level) l.(ctxMiddlewares).

Definition Log (l : Logger) (h : Recorder.heap) (lvl : Level.Level)
    (args : list value) : option Recorder.heap :=
  if lvl <? l.(level) then Some h
  else Writer_Log (innerWriter l) h lvl args.

Definition Logf (l : Logger) (h : Recorder.heap) (lvl : Level.Level)
    (str : string) (args : list value) : option Recorder.heap :=
  if lvl <? l.(level) then Some h
  else Writer_Logf (innerWriter l) h lvl str args.

Definition With (l : Logger) (h : Recorder.heap) (fs : list value)
  : option (Logger * Recorder.heap) :=
  match Writer_With (innerWriter l) h fs with
  | Some (w, h') => Some (clone l w, h')
  | None => None
  end.

Definition WithMiddleware (l : Logger) (middlewares : list CtxMiddleware) : Logger :=
  let cp := clone l (innerWriter l) in
  mkLogger cp.(writer) cp.(level) (cp.(ctxMiddlewares) ++ middlewares).

(** The loop of [WithContext]: every middleware is run on [ctx], in the
    order of the list, and a non-empty result is appended to [fields]. *)
Fixpoint collectFields (ms : list CtxMiddleware) (ctx : Context)
    (fields : list value) : list value :=
  match ms with
  | [] => fields
  | m :: ms' =>
      let fs := m ctx in
      collectFields ms' ctx
        (if 0 <? Z.of_nat (length fs) then fields ++ fs else fields)
  end.

Definition WithContext (l : Logger) (h : Recorder.heap) (ctx : Context)
  : option (Logger * Recorder.heap) :=
  let fields := collectFields l.(ctxMiddlewares) ctx [] in
  if Z.of_nat (length fields) =? 0 then Some (l, h)
  else With l h fields.

Definition WithError (l : Logger) (h : Recorder.heap) (err : value)
  : option (Logger * Recorder.heap) :=
  With l h [VStr "error"; err].

Definition Sync (l : Logger) (h : Recorder.heap) : option Recorder.heap :=
  Writer_Sync (innerWriter l) h.

(** *** Call sequences on a logger

    A call of [Log], [Logf], [With] or [Sync]; [With] continues with the
    logger it returns. *)
Inductive call : Type :=
| CLog (lvl : Level.Level) (args : list value)
| CLogf (lvl : Level.Level) (str : string) (args : list value)
| CWith (fs : list value)
| CSync.

Definition step (c : call) (st : Logger * Recorder.heap)
  : option (Logger * Recorder.heap) :=
  let '(l, h) := st in
  match c with
  | CLog lvl args => (fun h' => (l, h')) <$> Log l h lvl args
  | CLogf lvl str args => (fun h' => (l, h')) <$> Logf l h lvl str args
  | CWith fs => With l h fs
  | CSync => (fun h' => (l, h')) <$> Sync l h
  end.

Fixpoint run (cs : list call) (st : Logger * Recorder.heap)
  : option (Logger * Recorder.heap) :=
  match cs with
  | [] => Some st
  | c :: cs' =>
      match step c st with
      | Some st' => run cs' st'
      | None => None
      end
  end.

(** *** Shortcuts

    One method per level, with and without a format string. *)
Definition Debug (l : Logger) (h : Recorder.heap) (args : list value) :=
  Log l h DebugLevel args.

Definition Debugf (l : Logger) (h : Recorder.heap) (str : string) (args : list value) :=
  Logf l h DebugLevel str args.

Definition Info (l : Logger) (h : Recorder.heap) (args : list value) :=
  Log l h InfoLevel args.

Definition Infof (l : Logger) (h : Recorder.heap) (str : string) (args : list value) :=
  Logf l h InfoLevel str args.

Definition Warn (l : Logger) (h : Recorder.heap) (args : list value) :=
  Log l h WarningLevel args.

Definition Warnf (l : Logger) (h : Recorder.heap) (str : string) (args : list value) :=
  Logf l h WarningLevel str args.

Definition Error (l : Logger) (h : Recorder.heap) (args : list value) :=
  Log l h ErrorLevel args.

Definition Errorf (l : Logger) (h : Recorder.heap) (str : string) (args : list value) :=
  Logf l h ErrorLevel str args.

Definition Panic (l : Logger) (h : Recorder.heap) (args : list value) :=
  Log l h PanicLevel args.

Definition Panicf (l : Logger) (h : Recorder.heap) (str : string) (args : list value) :=
  Logf l h PanicLevel str args.

Definition Fatal (l : Logger) (h : Recorder.heap) (args : list value) :=
  Log l h FatalLevel args.

Definition Fatalf (l : Logger) (h : Recorder.heap) (str : string) (args : list value) :=
  Logf l h FatalLevel str args.

Definition conditional (condition : bool) (trueLvl falseLvl : Level.Level) : Level.Level :=
  if negb condition then falseLvl else trueLvl.

Definition Cond (l : Logger) (h : Recorder.heap) (condition : bool)
    (trueLvl falseLvl : Level.Level) (args : list value) : option Recorder.heap :=
  Log l h (conditional condition trueLvl falseLvl) args.

Definition Condf (l : Logger) (h : Recorder.heap) (condition : bool)
    (trueLvl falseLvl : Level.Level) (str : string) (args : list value)
  : option Recorder.heap :=
  Logf l h (conditional condition trueLvl falseLvl) str args.

(** The names of the twelve shortcuts. *)
Inductive shortcut : Type :=
| SDebug | SDebugf | SInfo | SInfof | SWarn | SWarnf
| SError | SErrorf | SPanic | SPanicf | SFatal | SFatalf.

(** A call of the shortcut of that name; the format string is only passed
    to the shortcuts that take one. *)
Definition callShortcut (s : shortcut) (l : Logger) (h : Recorder.heap)
    (str : string) (args : list value) : option Recorder.heap :=
  match s with
  | SDebug => Debug l h args
  | SDebugf => Debugf l h str args
  | SInfo => Info l h args
  | SInfof => Infof l h str args
  | SWarn => Warn l h args
  | SWarnf => Warnf l h str args
  | SError => Error l h args
  | SErrorf => Errorf l h str args
  | SPanic => Panic l h args
  | SPanicf => Panicf l h str args
  | SFatal => Fatal l h args
  | SFatalf => Fatalf l h str args
  end.

(** The level a shortcut is named after, and whether it takes a format. *)
Definition namedLevel (s : shortcut) : Level.Level :=
  match s with
  | SDebug | SDebugf => DebugLevel
  | SInfo | SInfof => InfoLevel
  | SWarn | SWarnf => WarningLevel
  | SError | SErrorf => ErrorLevel
  | SPanic | SPanicf => PanicLevel
  | SFatal | SFatalf => FatalLevel
  end.

Definition takesFormat (s : shortcut) : bool :=
  match s with
  | SDebugf | SInfof | SWarnf | SErrorf | SPanicf | SFatalf => true
  | _ => false
  end.

(** *** The no-op constructor (logger_noop.go) *)



(** *** Deriving loggers, and everything a logger can be asked *)

Inductive derivation : Type :=
| DWith (fs : list value)
| DWithContext (ctx : Context)
| DWithError (err : value)
| DWithMiddleware (middlewares : list CtxMiddleware).

Definition derive (d : derivation) (st : Logger * Recorder.heap)
  : option (Logger * Recorder.heap) :=
  let '(l, h) := st in
  match d with
  | DWith fs => With l h fs
  | DWithContext ctx => WithContext l h ctx
  | DWithError err => WithError l h err
  | DWithMiddleware middlewares => Some (WithMiddleware l middlewares, h)
  end.

Fixpoint deriveAll (ds : list derivation) (st : Logger * Recorder.heap)
  : option (Logger * Recorder.heap) :=
  match ds with
  | [] => Some st
  | d :: ds' =>
      match derive d st with
      | Some st' => deriveAll ds' st'
      | None => None
      end
  end.




End Logger.

(** ** SecretMask (mask.go)

    [regexp] reads a byte buffer as UTF-8: every step decodes one rune
    with [utf8.DecodeRune], and a byte that does not start a valid
    encoding counts as the rune U+FFFD of width 1.  A buffer is therefore
    first cut into runes, each keeping the bytes it was decoded from; the
    patterns are matched on the code points, and the output is made of the
    bytes of the runes that are kept and of the mask. *)

Module Mask.
Import Level.

Record rune : Type := mkRune { code : Z; raw : list ascii }.

Definition RuneError : Z := 65533.

(** The table [first] of package utf8 for a leading byte >= 0x80: the
    length of the encoding and the accepted range of the second byte;
    [None] for a byte that cannot start an encoding. *)
Definition first (p0 : Z) : option (nat * Z * Z) :=
  if p0 <? 194 then None
  else if p0 <? 224 then Some (2%nat, 128, 191)
  else if p0 =? 224 then Some (3%nat, 160, 191)
  else if p0 <? 237 then Some (3%nat, 128, 191)
  else if p0 =? 237 then Some (3%nat, 128, 159)
  else if p0 <? 240 then Some (3%nat, 128, 191)
  else if p0 =? 240 then Some (4%nat, 144, 191)
  else if p0 <? 244 then Some (4%nat, 128, 191)
  else if p0 =? 244 then Some (4%nat, 128, 143)
  else None.

(** A continuation byte, between [locb] and [hicb]. *)
Definition contByte (b : Z) : bool := (128 <=? b) && (b <=? 191).

(** [utf8.DecodeRune]: the code point and the number of bytes read. *)
Definition DecodeRune (p : list ascii) : Z * nat :=
  match p with
  | [] => (RuneError, 0%nat)
  | c0 :: p1 =>
      let p0 := byte_of c0 in
      if p0 <? 128 then (p0, 1%nat)
      else
        match first p0 with
        | None => (RuneError, 1%nat)
        | Some (sz, lo, hi) =>
            if (length p <? sz)%nat then (RuneError, 1%nat)
            else
              match p1 with
              | [] => (RuneError, 1%nat)
              | c1 :: p2 =>
                  let b1 := byte_of c1 in
                  if (b1 <? lo) || (hi <? b1) then (RuneError, 1%nat)
                  else if (sz <=? 2)%nat then
                    (Z.lor (Z.shiftl (Z.land p0 31) 6) (Z.land b1 63), 2%nat)
                  else
                    match p2 with
                    | [] => (RuneError, 1%nat)
                    | c2 :: p3 =>
                        let b2 := byte_of c2 in
                        if negb (contByte b2) then (RuneError, 1%nat)
                        else if (sz <=? 3)%nat then
                          (Z.lor (Z.lor (Z.shiftl (Z.land p0 15) 12)
                                        (Z.shiftl (Z.land b1 63) 6))
                                 (Z.land b2 63), 3%nat)
                        else
                          match p3 with
                          | [] => (RuneError, 1%nat)
                          | c3 :: _ =>
                              let b3 := byte_of c3 in
                              if negb (contByte b3) then (RuneError, 1%nat)
                              else
                                (Z.lor (Z.lor (Z.lor (Z.shiftl (Z.land p0 7) 18)
                                                     (Z.shiftl (Z.land b1 63) 12))
                                              (Z.shiftl (Z.land b2 63) 6))
                                       (Z.land b3 63), 4%nat)
                          end
                    end
              end
        end
  end.

(** The runes of a buffer, as the matcher steps over them.  [fuel]
    bounds the number of runes; every step reads at least one byte. *)
Fixpoint decodeLoop (fuel : nat) (p : list ascii) : list rune :=
  match fuel with
  | O => []
  | S fuel' =>
      match p with
      | [] => []
      | _ :: _ =>
          let '(r, size) := DecodeRune p in
          mkRune r (take size p) :: decodeLoop fuel' (drop size p)
      end
  end.

Definition decode (p : list ascii) : list rune := decodeLoop (length p) p.

Definition encode (rs : list rune) : list ascii := concat (raw <$> rs).

(** *** Character classes, under the flag (?i)

    With (?i) a literal letter matches its whole case orbit and the Perl
    classes are closed under case folding: besides both ASCII cases, 's'
    has U+017F and 'k' has U+212A in their orbits. *)

Definition isLower (c : Z) : bool := (97 <=? c) && (c <=? 122).
Definition isUpper (c : Z) : bool := (65 <=? c) && (c <=? 90).
Definition isDigit (c : Z) : bool := (48 <=? c) && (c <=? 57).

(** A literal character [l] of the pattern (lower-case when a letter). *)
Definition lit (l : Z) (c : Z) : bool :=
  (c =? l)
  || (isLower l && (c =? l - 32))
  || ((l =? 115) && (c =? 383))
  || ((l =? 107) && (c =? 8490)).

(** [\s] is [\t\n\f\r ]. *)
Definition space (c : Z) : bool :=
  (c =? 9) || (c =? 10) || (c =? 12) || (c =? 13) || (c =? 32).

(** [\w] is [0-9A-Za-z_], with U+017F and U+212A under (?i). *)
Definition word (c : Z) : bool :=
  isDigit c || isUpper c || isLower c || (c =? 95) || (c =? 383) || (c =? 8490).

(** [[^\r\n]] *)
Definition notCRLF (c : Z) : bool := negb ((c =? 13) || (c =? 10)).

(** [.] without the flag s: any character but the line feed. *)
Definition dot (c : Z) : bool := negb (c =? 10).

(** The negated class of the double quote (code 34); a negated class
    also matches the line feed. *)
Definition notQuote (c : Z) : bool := negb (c =? 34).

(** *** Patterns

    Both patterns are concatenations of greedy repetitions [x{min,max}]
    of one-character classes, cut into: capture group 1, an uncaptured
    middle, capture group 2. *)

Record item : Type := mkItem {
  cls : Z -> bool;
  rmin : nat;
  rmax : option nat
}.

Definition one (p : Z -> bool) : item := mkItem p 1 (Some 1%nat).
Definition star (p : Z -> bool) : item := mkItem p 0 None.
Definition plus (p : Z -> bool) : item := mkItem p 1 None.
Definition times (n : nat) (p : Z -> bool) : item := mkItem p n (Some n).

(** The literal text of a pattern, one item per character. *)
Definition text (s : string) : list item :=
  (fun a => one (lit (byte_of a))) <$> list_ascii_of_string s.

Record regex : Type := mkRegex {
  group1 : list item;
  middle : list item;
  group2 : list item
}.

(** [(?i)(Authorization:\s*\w+\s\w{3})[^\r\n]*([^\r\n]{3})] *)
Definition patternAuthorization : regex :=
  mkRegex (text "authorization:" ++ [star space; plus word; one space; times 3 word])
          [star notCRLF]
          [times 3 notCRLF].

(** [(?i)(password"\s*:\s*".{2})[^"]*(.{1}")] *)
Definition patternPassword : regex :=
  mkRegex (text "password" ++ [one (lit 34); star space; one (lit 58); star space;
                               one (lit 34); times 2 dot])
          [star notQuote]
          [times 1 dot; one (lit 34)].

(** *** Matching

    A repetition first takes as many characters as it can and gives them
    back one at a time while the rest of the pattern fails (the
    leftmost-first rule). *)

Fixpoint spanLen (p : Z -> bool) (s : list rune) : nat :=
  match s with
  | c :: s' => if p c.(code) then S (spanLen p s') else O
  | [] => O
  end.

(** [backtrack f lo n]: the first count among [lo + n], ..., [lo + 1],
    [lo] on which [f] succeeds. *)
Fixpoint backtrack {R : Type} (f : nat -> option R) (lo n : nat) : option (nat * R) :=
  match f (lo + n)%nat with
  | Some r => Some ((lo + n)%nat, r)
  | None =>
      match n with
      | O => None
      | S n' => backtrack f lo n'
      end
  end.

(** The text taken by every item, and what is left of the input. *)
Fixpoint matchItems (items : list item) (s : list rune)
  : option (list (list rune) * list rune) :=
  match items with
  | [] => Some ([], s)
  | it :: items' =>
      let avail := spanLen it.(cls) s in
      let hi := match it.(rmax) with
                | Some m => Nat.min m avail
                | None => avail
                end in
      if (hi <? it.(rmin))%nat then None
      else
        match backtrack (fun k => matchItems items' (drop k s))
                        it.(rmin) (hi - it.(rmin)) with
        | Some (k, (chunks, rest)) => Some (take k s :: chunks, rest)
        | None => None
        end
  end.

(** A match that starts at the head of [s]: the two captured groups and
    the input after the match. *)
Definition matchHere (re : regex) (s : list rune)
  : option (list rune * list rune * list rune) :=
  match matchItems (re.(group1) ++ re.(middle) ++ re.(group2)) s with
  | Some (chunks, rest) =>
      let n1 := length re.(group1) in
      let n2 := length re.(middle) in
      Some (concat (take n1 chunks), concat (drop (n1 + n2) chunks), rest)
  | None => None
  end.

(** The leftmost match: the unmatched text before it, then the match. *)
Fixpoint find (re : regex) (s : list rune)
  : option (list rune * (list rune * list rune * list rune)) :=
  match matchHere re s with
  | Some m => Some ([], m)
  | None =>
      match s with
      | [] => None
      | c :: s' =>
          match find re s' with
          | Some (u, m) => Some (c :: u, m)
          | None => None
          end
      end
  end.

Definition ofText (s : string) : list rune :=
  (fun a => mkRune (byte_of a) [a]) <$> list_ascii_of_string s.

(** The loop of [ReplaceAll] with a template [$1<mask>$2]: copy the text
    before the leftmost match, write the expanded template, go on after
    the match; when nothing matches any more, copy what is left. *)
Fixpoint replaceLoop (re : regex) (mask : list rune) (fuel : nat) (s : list rune)
  : list rune :=
  match fuel with
  | O => s
  | S fuel' =>
      match find re s with
      | Some (u, (g1, g2, rest)) =>
          u ++ (g1 ++ mask ++ g2) ++ replaceLoop re mask fuel' rest
      | None => s
      end
  end.

Definition ReplaceAll (re : regex) (mask : list rune) (s : list rune) : list rune :=
  replaceLoop re mask (length s) s.

Definition maskRunes (s : list rune) : list rune :=
  let masked := ReplaceAll patternAuthorization (ofText "*****") s in
  ReplaceAll patternPassword (ofText "***") masked.

Definition SecretMask (b : list ascii) : list ascii :=
  encode (maskRunes (decode b)).

(** Buffers written as strings. *)
Definition bytes (s : string) : list ascii := list_ascii_of_string s.

(** *** What a match looks like

    [itemOK it ch]: the text [ch] is made of characters of the class of
    [it], as many as [it] allows. *)
Definition itemOK (it : item) (ch : list rune) : Prop :=
  Forall (fun c => it.(cls) c.(code) = true) ch
  /\ (it.(rmin) <= length ch)%nat
  /\ match it.(rmax) with
     | Some m => (length ch <= m)%nat
     | None => True
     end.

(** In a [separated] list every item either has a fixed count, or is
    unbounded and followed by an item that needs a character outside its
    class: such a list matches in at most one way. *)
Fixpoint separated (items : list item) : Prop :=
  match items with
  | [] => True
  | it :: items' =>
      (it.(rmax) = Some it.(rmin)
       \/ (it.(rmax) = None
           /\ match items' with
              | it2 :: _ =>
                  (1 <= it2.(rmin))%nat
                  /\ forall c, it.(cls) c = true -> it2.(cls) c = false
              | [] => False
              end))
      /\ separated items'
  end.

(** The rest of a pattern after its first group, on the input after that
    group: the text of group 2 and the input after the match. *)
Definition matchTail (re : regex) (s : list rune) : option (list rune * list rune) :=
  match matchItems (re.(middle) ++ re.(group2)) s with
  | Some (chunks, rest) => Some (concat (drop (length re.(middle)) chunks), rest)
  | None => None
  end.

(** [headOf re g1]: [g1] is a text that group 1 of [re] matches. *)
Definition headOf (re : regex) (g1 : list rune) : Prop :=
  exists chunks, Forall2 itemOK re.(group1) chunks /\ g1 = concat chunks.

(** [litText str L]: the characters of [L] match the literal [str] one by
    one. *)
Definition litText (str : string) (L : list rune) : Prop :=
  Forall2 (fun a c => lit (byte_of a) c.(code) = true) (list_ascii_of_string str) L.

(** Every character of [l] is in the class [p]. *)
Definition codeIs (p : Z -> bool) (l : list rune) : Prop :=
  Forall (fun c => p c.(code) = true) l.

(** The middle and group 2 of the password pattern. *)
Definition pwTailItems : list item := [star notQuote; times 1 dot; one (lit 34)].

Definition starRune : rune := mkRune 42 ["*"%char].

(** The runes of a text of ASCII bytes. *)
Definition asciiRunes (p : list ascii) : list rune :=
  (fun a => mkRune (byte_of a) [a]) <$> p.

(** A byte of the class [\w], and an ASCII byte that is not a line break. *)
Definition wordByte (a : ascii) : Prop := word (byte_of a) = true.

Definition lineByte (a : ascii) : Prop :=
  byte_of a < 128 /\ notCRLF (byte_of a) = true.

(** [wellcut rs]: [rs] is cut the way [decode] cuts its bytes. *)
Definition wellcut (rs : list rune) : Prop := decode (encode rs) = rs.

(** [quoteFree rest]: [rest] does not start with a double quote. *)
Definition quoteFree (rest : list rune) : Prop :=
  match rest with q2 :: _ => code q2 <> 34 | [] => True end.

(** The two passes of [maskRunes]. *)
Definition maskAuthorization (s : list rune) : list rune :=
  ReplaceAll patternAuthorization (ofText "*****") s.

Definition maskPassword (s : list rune) : list rune :=
  ReplaceAll patternPassword (ofText "***") s.

(** [authOK t]: if group 1 of the authorization pattern matches at the head
    of [t], then what follows it on the line is either too short for a
    match, or is the mask followed by three characters.  A text is
    [settled] when this holds at every position: the authorization pass has
    nothing left to change in it. *)
Definition authOK (t : list rune) : Prop :=
  forall g1 s',
    headOf patternAuthorization g1 -> t = g1 ++ s' ->
    (spanLen notCRLF s' < 3)%nat
    \/ (spanLen notCRLF s' = 8%nat /\ take 5 s' = ofText "*****").

Definition settled (x : list rune) : Prop := forall k, authOK (drop k x).

(** [consumes re]: a match of [re] starts with a character of group 1, so
    that the input left after it is shorter. *)
Definition consumes (re : regex) : Prop :=
  forall t g1 g2 rest,
    matchHere re t = Some (g1, g2, rest) ->
    exists c g1' s', g1 = c :: g1' /\ t = g1 ++ s'
                     /\ (length rest <= length s')%nat.

(** *** Buffers of ASCII bytes *)

(** The double quote (code 34). *)
Definition quote : ascii := ascii_of_nat 34.

Definition asciiByte (a : ascii) : Prop := byte_of a < 128.

(** A byte of the class [\s]. *)
Definition spaceByte (a : ascii) : Prop := space (byte_of a) = true.

(** A byte other than the one of code [n]. *)
Definition notByte (n : Z) (a : ascii) : Prop := byte_of a <> n.

(** [anyCase str p]: the bytes [p] spell the lower-case text [str] up to
    the case of ASCII letters, the way the literals of a pattern match
    under (?i). *)
Definition anyCase (str : string) (p : list ascii) : Prop :=
  Forall2 (fun a c => lit (byte_of a) (byte_of c) = true) (list_ascii_of_string str) p.

(** [lineEnd post]: [post] is empty or starts with a line break. *)
Definition lineEnd (post : list ascii) : Prop :=
  match post with
  | [] => True
  | a :: _ => byte_of a = 13 \/ byte_of a = 10
  end.

(** [plainStart post]: [post] is empty or starts with an ASCII byte that
    is not the double quote. *)
Definition plainStart (post : list ascii) : Prop :=
  match post with
  | [] => True
  | a :: _ => byte_of a < 128 /\ byte_of a <> 34
  end.

(** A byte that is not the letter p, in either case. *)
Definition notP (a : ascii) : Prop := byte_of a <> 112 /\ byte_of a <> 80.

(** The text of a key and the opening of its value, as the first group of
    the password pattern reads them: the key, a quote, white space, a
    colon, white space, a quote. *)
Definition keyPart (name ws1 ws2 : list ascii) : list ascii :=
  name ++ [quote] ++ ws1 ++ [":"%char] ++ ws2 ++ [quote].

(** [startsWith str t]: the text [t] begins with the characters of the
    lower-case text [str], each read the way a literal of a pattern is
    under (?i). *)
Fixpoint startsWith (str : list ascii) (t : list rune) : bool :=
  match str, t with
  | [], _ => true
  | a :: str', c :: t' => lit (byte_of a) c.(code) && startsWith str' t'
  | _ :: _, [] => false
  end.

(** [spells str t]: [str] occurs somewhere in the text [t], in any case. *)
Fixpoint spells (str : list ascii) (t : list rune) : bool :=
  startsWith str t
  || match t with
     | [] => false
     | _ :: t' => spells str t'
     end.

(** The first and the last [n] characters of a buffer, as bytes. *)
Definition firstChars (n : nat) (p : list ascii) : list ascii :=
  encode (take n (decode p)).

Definition lastChars (n : nat) (p : list ascii) : list ascii :=
  encode (drop (length (decode p) - n) (decode p)).

End Mask.

(** ** strings.ToLower beyond ASCII (Go's packages strings, unicode, utf8)

    A string with a byte >= 0x80 is lower-cased by
    [strings.Map(unicode.ToLower, s)]: the string is read rune by rune,
    every rune is mapped, and the results are written in UTF-8. *)

Module Strings.
Import Level Mask.

(** [byte(x)]: the low eight bits. *)
Definition byte (x : Z) : ascii := ascii_of_N (Z.to_N (x mod 256)).

(** [utf8.EncodeRune].  A value that is not a code point (negative as an
    int32, above MaxRune, or a surrogate) is written as [RuneError]. *)
Definition EncodeRune (r : Z) : list ascii :=
  if (0 <=? r) && (r <=? 127) then [byte r]
  else if (0 <=? r) && (r <=? 2047) then
    [byte (Z.lor 192 (Z.shiftr r 6)); byte (Z.lor 128 (Z.land r 63))]
  else
    let r := if (r <? 0) || (1114111 <? r) || ((55296 <=? r) && (r <=? 57343))
             then RuneError else r in
    if r <=? 65535 then
      [byte (Z.lor 224 (Z.shiftr r 12));
       byte (Z.lor 128 (Z.land (Z.shiftr r 6) 63));
       byte (Z.lor 128 (Z.land r 63))]
    else
      [byte (Z.lor 240 (Z.shiftr r 18));
       byte (Z.lor 128 (Z.land (Z.shiftr r 12) 63));
       byte (Z.lor 128 (Z.land (Z.shiftr r 6) 63));
       byte (Z.lor 128 (Z.land r 63))].

(** [strings.Map(mapping, s)]: a rune that [mapping] sends to a negative
    value is dropped. *)
Definition mapped (mapping : Z -> Z) (c : rune) : list ascii :=
  let r := mapping c.(code) in
  if 0 <=? r then EncodeRune r else [].

Definition Map (mapping : Z -> Z) (s : string) : string :=
  string_of_list_ascii (concat (mapped mapping <$> decode (list_ascii_of_string s))).

Section WithCaseRanges.

(** [To(LowerCase, r)] on the table [unicode.CaseRanges], for the code
    points above ASCII. *)
Variable toLowerCase : Z -> Z.

(** [unicode.ToLower] *)
Definition unicodeToLower (r : Z) : Z :=
  if r <=? 127 then
    if (65 <=? r) && (r <=? 90) then r + 32 else r
  else toLowerCase r.

(** [strings.ToLower] and [LevelFromString] with this lower-casing. *)
Definition ToLower (s : string) : string := Level.ToLower (Map unicodeToLower) s.

Definition LevelFromString (level : string) : Level :=
  Level.LevelFromString (Map unicodeToLower) level.

(** What the development uses of the table: its values are code points,
    and the code points above ASCII that it brings into ASCII are U+0130,
    to i, and U+212A, to k. *)
Definition intoASCIIOnly : Prop :=
  (forall r, 127 < r -> 0 <= toLowerCase r)
  /\ toLowerCase 304 = 105
  /\ toLowerCase 8490 = 107
  /\ (forall r, 127 < r -> toLowerCase r <= 127 -> r = 304 \/ r = 8490).

End WithCaseRanges.

(** The two entries of the table that lead into ASCII, and no other. *)
Definition intoASCII (r : Z) : Z :=
  if r =? 304 then 105 else if r =? 8490 then 107 else r.

(** [lowersTo a c]: the character [c] is the lower-case ASCII letter [a],
    its upper case, or, for i and k, the character above ASCII that
    lower-casing brings to it. *)
Definition lowersTo (a : ascii) (c : Z) : Prop :=
  c = byte_of a \/ c = byte_of a - 32
  \/ (byte_of a = 105 /\ c = 304) \/ (byte_of a = 107 /\ c = 8490).

(** [variant name s]: the characters of [s] are those of the lower-case
    name [name], each up to lower-casing. *)
Definition variant (name s : string) : Prop :=
  Forall2 (fun a r => lowersTo a r.(code))
    (list_ascii_of_string name) (decode (list_ascii_of_string s)).

(** U+0130 followed by NFO: the bytes C4 B0 and the letters NFO. *)
Definition dottedINFO : string :=
  String (ascii_of_nat 196) (String (ascii_of_nat 176) "NFO").

End Strings.

(** ** The middlewares of a Logger, as Go stores them (logger.go)

    [ctxMiddlewares] is a Go slice: a window of [len] cells on a backing
    array, of which [cap] cells are available from the start of the
    window.  [clone] copies the slice header, not the array, and [append]
    writes in place when the new length fits the capacity; it allocates a
    new array only when it does not.  Arrays live in a store (a list of
    arrays, addresses are indices). *)

Module Slices.
Import Level Ctx.

(** A cell of an array of middlewares; [None] is the nil function. *)
Abbreviation cell := (option CtxMiddleware) (only parsing).

Abbreviation store := (list (list (option CtxMiddleware))) (only parsing).

Record slice : Type := mkSlice {
  base : nat;
  off : nat;
  len : nat;
  cap : nat
}.

(** The nil slice. *)
Definition nilSlice : slice := mkSlice 0 0 0 0.

Definition array (st : store) (s : slice) : list cell :=
  default [] (st !! base s).

(** The cells of the window. *)
Definition read (st : store) (s : slice) : list cell :=
  take (len s) (drop (off s) (array st s)).

(** [wellSliced st s]: the window and its capacity lie inside the array. *)
Definition wellSliced (st : store) (s : slice) : Prop :=
  (len s <= cap s)%nat /\ (off s + cap s <= length (array st s))%nat.

Section Append.

(** The capacity that the run time chooses for a new array, from the old
    capacity and the length that is needed; it is never less than that
    length. *)
Variable grow : nat -> nat -> nat.

(** [append(s, vs...)] *)
Definition append (st : store) (s : slice) (vs : list CtxMiddleware)
  : slice * store :=
  let n := (len s + length vs)%nat in
  if (n <=? cap s)%nat then
    let arr := array st s in
    let p := (off s + len s)%nat in
    (mkSlice (base s) (off s) n (cap s),
     <[base s := take p arr ++ (Some <$> vs) ++ drop (p + length vs) arr]> st)
  else
    let c := Nat.max n (grow (cap s) n) in
    (mkSlice (length st) 0 n c,
     st ++ [read st s ++ (Some <$> vs) ++ replicate (c - n) None]).

Record Logger : Type := mkLogger {
  writer : option Logger.Writer;
  level : Level.Level;
  ctxMiddlewares : slice
}.

Definition innerWriter (l : Logger) : Logger.Writer :=
  match writer l with
  | None => Logger.noOpWriter
  | Some w => w
  end.

Definition clone (l : Logger) (w : Logger.Writer) : Logger :=
  mkLogger (Some w) (level l) (ctxMiddlewares l).

(** [NewWithWriter], with the slice [cfg.CtxMiddlewares] given apart. *)
Definition NewWithWriter (st : store) (cfg : Logger.Config) (middlewares : slice)
    (w : option Logger.Writer) : Logger * store :=
  let l := mkLogger w (Logger.cfg_Level cfg) middlewares in
  if Logger.cfg_SkipDefaultMiddlewares cfg then (l, st)
  else
    let '(s, st') := append st (ctxMiddlewares l) DefaultMiddlewares in
    (mkLogger (writer l) (level l) s, st').

Definition WithMiddleware (st : store) (l : Logger) (middlewares : list CtxMiddleware)
  : Logger * store :=
  let cp := clone l (innerWriter l) in
  let '(s, st') := append st (ctxMiddlewares cp) middlewares in
  (mkLogger (writer cp) (level cp) s, st').

End Append.

(** The middlewares that [WithContext] ranges over; [None] when a cell of
    the window holds the nil function, which panics when called. *)
Definition middlewares (st : store) (l : Logger) : option (list CtxMiddleware) :=
  mapM id (read st (ctxMiddlewares l)).

(** The fields that [WithContext] collects. *)
Definition collected (st : store) (l : Logger) (ctx : Context) : option (list value) :=
  (fun ms => Logger.collectFields ms ctx []) <$> middlewares st l.

(** The logger of the list model that a logger stands for. *)
Definition listed (st : store) (l : Logger) : option Logger.Logger :=
  Logger.mkLogger (writer l) (level l) <$> middlewares st l.

End Slices.

(** * Properties *)

(** ** Levels *)

Section LevelFacts.
Import Level.

Lemma byte_of_range c : 0 <= byte_of c < 256.
Proof.
  unfold byte_of. pose proof (N_ascii_bounded c). lia.
Qed.

Lemma byte_of_inj a b : byte_of a = byte_of b -> a = b.
Proof.
  unfold byte_of. intros H.
  rewrite <- (ascii_N_embedding a), <- (ascii_N_embedding b).
  f_equal. lia.
Qed.

Lemma byte_of_ascii_of n :
  0 <= n < 256 -> byte_of (ascii_of_N (Z.to_N n)) = n.
Proof.
  intros Hn. unfold byte_of. rewrite N_ascii_embedding; lia.
Qed.

Lemma Level_String_Some l name :
  Level_String l = Some name ->
  (l = 0 /\ name = "debug") \/ (l = 1 /\ name = "info")
  \/ (l = 2 /\ name = "warning") \/ (l = 3 /\ name = "error")
  \/ (l = 4 /\ name = "panic") \/ (l = 5 /\ name = "fatal").
Proof.
  unfold Level_String. simpl length.
  destruct (l <? 0) eqn:E1; [discriminate|].
  destruct (Z.of_nat 6 <=? l) eqn:E2; [discriminate|]. simpl.
  apply Z.ltb_ge in E1. apply Z.leb_gt in E2.
  assert (Hl : l = 0 \/ l = 1 \/ l = 2 \/ l = 3 \/ l = 4 \/ l = 5) by lia.
  destruct Hl as [->|[->|[->|[->|[->| ->]]]]]; simpl; intros [= <-]; tauto.
Qed.

Lemma Level_String_None l : Level_String l = None <-> (l < 0 \/ 5 < l).
Proof.
  split.
  - intros H. destruct (Z.ltb_spec l 0) as [|H0]; [lia|].
    destruct (Z.ltb_spec 5 l) as [|H5]; [lia|]. exfalso.
    assert (Hl : l = 0 \/ l = 1 \/ l = 2 \/ l = 3 \/ l = 4 \/ l = 5) by lia.
    destruct Hl as [->|[->|[->|[->|[->| ->]]]]]; discriminate.
  - intros H. unfold Level_String. simpl length.
    destruct (Z.ltb_spec l 0); [reflexivity|].
    destruct (Z.leb_spec (Z.of_nat 6) l); [reflexivity|]. lia.
Qed.

(** A byte that is the same letter as a lower-case ASCII byte is ASCII
    and lower-cases to it. *)
Lemma sameLetter_lower a b :
  sameLetter a b -> isASCII b = true -> isUpperASCII b = false ->
  isASCII a = true /\ lowerASCII a = b.
Proof.
  unfold sameLetter, lowerASCII, isASCII, isUpperASCII.
  intros [->|[[Ha Hb]|[Hb Ha]]] Hascii Hup.
  - rewrite Hup. auto.
  - rewrite Ha. split; [apply Z.ltb_lt; lia|].
    apply byte_of_inj. rewrite byte_of_ascii_of; lia.
  - congruence.
Qed.

Lemma lowerASCII_sameLetter a : sameLetter a (lowerASCII a).
Proof.
  unfold sameLetter, lowerASCII. destruct (isUpperASCII a) eqn:E; [|auto].
  right; left. split; [reflexivity|].
  unfold isUpperASCII in E. rewrite byte_of_ascii_of; lia.
Qed.

Lemma caseVariant_ToLower_ascii s t :
  caseVariant s t -> allASCII t = true -> mapString lowerASCII t = t ->
  allASCII s = true /\ mapString lowerASCII s = t.
Proof.
  revert t. induction s as [|a s IH]; intros [|b t]; simpl; try tauto.
  intros [Hab Hst] Hascii Hlow.
  apply andb_true_iff in Hascii as [Hb Ht].
  injection Hlow as Hb' Ht'.
  assert (Hup : isUpperASCII b = false).
  { unfold lowerASCII in Hb'. destruct (isUpperASCII b) eqn:E; [|reflexivity].
    exfalso. apply (f_equal byte_of) in Hb'. unfold isUpperASCII in E.
    rewrite byte_of_ascii_of in Hb'; lia. }
  destruct (sameLetter_lower a b Hab Hb Hup) as [Ha Hl].
  destruct (IH t Hst Ht Ht') as [Hs Hs'].
  rewrite Ha, Hs, Hl, Hs'. auto.
Qed.

Lemma mapString_lower_caseVariant s : caseVariant s (mapString lowerASCII s).
Proof.
  induction s as [|a s IH]; simpl; [exact I|].
  split; [apply lowerASCII_sameLetter | exact IH].
Qed.

Lemma LevelFromString_cases u s :
  let t := ToLower u s in
  (t = "info" /\ LevelFromString u s = 1)
  \/ (t = "warning" /\ LevelFromString u s = 2)
  \/ (t = "error" /\ LevelFromString u s = 3)
  \/ (t = "panic" /\ LevelFromString u s = 4)
  \/ (t = "fatal" /\ LevelFromString u s = 5)
  \/ (t <> "info" /\ t <> "warning" /\ t <> "error" /\ t <> "panic"
      /\ t <> "fatal" /\ LevelFromString u s = 0).
Proof.
  intros t. unfold LevelFromString. fold t.
  destruct (String.eqb_spec t "debug") as [E|_].
  { rewrite E. do 5 right. repeat split; discriminate || reflexivity. }
  destruct (String.eqb_spec t "info") as [E|N1]; [tauto|].
  destruct (String.eqb_spec t "warning") as [E|N2]; [tauto|].
  destruct (String.eqb_spec t "error") as [E|N3]; [tauto|].
  destruct (String.eqb_spec t "panic") as [E|N4]; [tauto|].
  destruct (String.eqb_spec t "fatal") as [E|N5]; [tauto|].
  do 5 right. tauto.
Qed.

(** A string that agrees with the name of level [l] up to ASCII case is
    parsed as [l], whatever strings.ToLower does beyond ASCII. *)
Lemma LevelFromString_caseVariant (u : string -> string) l name s :
  Level_String l = Some name -> caseVariant s name ->
  LevelFromString u s = l.
Proof.
  intros Hl Hv.
  assert (Hlow : allASCII name = true /\ mapString lowerASCII name = name).
  { destruct (Level_String_Some _ _ Hl)
      as [[_ ->]|[[_ ->]|[[_ ->]|[[_ ->]|[[_ ->]|[_ ->]]]]]];
      split; reflexivity. }
  destruct Hlow as [Ha Hm].
  destruct (caseVariant_ToLower_ascii s name Hv Ha Hm) as [Hs Hs'].
  unfold LevelFromString, ToLower. rewrite Hs, Hs'.
  destruct (Level_String_Some _ _ Hl)
    as [[-> ->]|[[-> ->]|[[-> ->]|[[-> ->]|[[-> ->]|[-> ->]]]]]];
    reflexivity.
Qed.

(** A string of ASCII bytes that agrees with no canonical name up to ASCII
    case is parsed as [DebugLevel]. *)
Lemma LevelFromString_ascii_default (u : string -> string) s :
  allASCII s = true ->
  (forall name, canonical name -> ~ caseVariant s name) ->
  LevelFromString u s = DebugLevel.
Proof.
  intros Hs Hno.
  assert (Hc : forall name, canonical name -> ToLower u s <> name).
  { intros name Hcan E. apply (Hno name Hcan).
    unfold ToLower in E. rewrite Hs in E. rewrite <- E.
    apply mapString_lower_caseVariant. }
  destruct (LevelFromString_cases u s)
    as [[E _]|[[E _]|[[E _]|[[E _]|[[E _]|H]]]]]; [..|apply H];
    exfalso; (eapply Hc; [|exact E]).
  - exists 1; reflexivity.
  - exists 2; reflexivity.
  - exists 3; reflexivity.
  - exists 4; reflexivity.
  - exists 5; reflexivity.
Qed.

(** C10. [Level.String] returns a name exactly on the ordinals 0 to 5:
    on every other level, such as 6 or -1, the index is out of range and
    the call panics; [LevelFromString] returns a level with a name on
    every string. *)
Theorem Level_String_partial :
  (forall l, Level_String l = None <-> (l < 0 \/ 5 < l))
  /\ Level_String 6 = None
  /\ Level_String (-1) = None
  /\ (forall u s, exists name, Level_String (LevelFromString u s) = Some name).
Proof.
  split; [exact Level_String_None|].
  split; [reflexivity|]. split; [reflexivity|].
  intros u s.
  destruct (LevelFromString_cases u s)
    as [[_ ->]|[[_ ->]|[[_ ->]|[[_ ->]|[[_ ->]|H]]]]]; [eexists; reflexivity..|].
  destruct H as (_ & _ & _ & _ & _ & ->). eexists; reflexivity.
Qed.

End LevelFacts.

Lemma Level_String_partial_witness : Level.Level_String 7 = None.
Proof.
  apply (proj1 Level_String_partial 7). right. lia.
Defined.

(** ** The Recorder *)

Section RecorderFacts.
Import Ctx Recorder.

Lemma chain_lookup h root a : chain h root a -> is_Some (h !! a).
Proof. intros [r Hr _|b r p Hr _ _]; eauto. Qed.

Lemma chain_root_node h root a :
  chain h root a -> exists r, h !! root = Some r /\ parent r = None.
Proof. induction 1; eauto. Qed.

Lemma top_loop_chain h root a :
  wf h -> chain h root a ->
  forall fuel r, (a <= fuel)%nat -> h !! a = Some r ->
                 top_loop fuel h a (parent r) = Some root.
Proof.
  intros Hwf Hc. induction Hc as [r0 Hr0 Hp0|a r0 p Hr0 Hp0 Hc IH];
    intros fuel r Hfuel Hr; rewrite Hr in Hr0; injection Hr0 as <-.
  - rewrite Hp0. destruct fuel; reflexivity.
  - rewrite Hp0. pose proof (Hwf a r p Hr Hp0) as Hlt.
    destruct fuel as [|fuel]; [lia|]. simpl.
    destruct (chain_lookup _ _ _ Hc) as [rp Hrp]. rewrite Hrp.
    apply IH; [lia | exact Hrp].
Qed.

(** [top] returns, and returns the root of the chain. *)
Lemma top_chain h root a : wf h -> chain h root a -> top h a = Some root.
Proof.
  intros Hwf Hc. unfold top.
  destruct (chain_lookup _ _ _ Hc) as [r Hr]. rewrite Hr.
  apply (top_loop_chain h root a Hwf Hc); [|exact Hr].
  apply lookup_lt_Some in Hr. lia.
Qed.

(** Every node of a well-formed heap is on the chain of some root. *)
Lemma wf_chain h a r : wf h -> h !! a = Some r -> exists root, chain h root a.
Proof.
  intros Hwf. revert r. induction (lt_wf a) as [a _ IH]. intros r Hr.
  destruct (parent r) as [p|] eqn:Hp.
  - pose proof (Hwf a r p Hr Hp) as Hlt.
    assert (Hp' : is_Some (h !! p)).
    { apply lookup_lt_is_Some. apply lookup_lt_Some in Hr. lia. }
    destruct Hp' as [rp Hrp].
    destruct (IH p Hlt rp Hrp) as [root Hc].
    exists root. eapply chain_child; eauto.
  - exists a. eapply chain_root; eauto.
Qed.

(** Overwriting a node without touching its parent pointer keeps the
    shape of the heap. *)
Lemma chain_insert h t tr r' root a :
  h !! t = Some tr -> parent r' = parent tr ->
  chain h root a -> chain (<[t := r']> h) root a.
Proof.
  intros Ht Hp Hc. induction Hc as [r0 Hr0 Hp0|a r0 p Hr0 Hp0 Hc IH].
  - destruct (decide (t = root)) as [->|Hne].
    + eapply chain_root.
      * apply list_lookup_insert_eq. eapply lookup_lt_Some; eauto.
      * simplify_eq. rewrite Hp. exact Hp0.
    + eapply chain_root; [|exact Hp0]. rewrite list_lookup_insert_ne; auto.
  - destruct (decide (t = a)) as [->|Hne].
    + eapply chain_child; [| |exact IH].
      * apply list_lookup_insert_eq. eapply lookup_lt_Some; eauto.
      * simplify_eq. rewrite Hp. exact Hp0.
    + eapply chain_child; [| exact Hp0 |exact IH].
      rewrite list_lookup_insert_ne; auto.
Qed.

Lemma wf_insert h t tr r' :
  h !! t = Some tr -> parent r' = parent tr -> wf h -> wf (<[t := r']> h).
Proof.
  intros Ht Hp Hwf a r p Ha Hpa.
  destruct (decide (t = a)) as [->|Hne].
  - rewrite list_lookup_insert_eq in Ha by (eapply lookup_lt_Some; eauto).
    injection Ha as <-. eapply Hwf; [exact Ht | rewrite <- Hp; exact Hpa].
  - rewrite list_lookup_insert_ne in Ha by auto. eapply Hwf; eauto.
Qed.

(** Allocation keeps the older nodes, and their chains. *)
Lemma chain_app h n root a : chain h root a -> chain (h ++ [n]) root a.
Proof.
  induction 1 as [r0 Hr0 Hp0|a r0 p Hr0 Hp0 Hc IH].
  - eapply chain_root; [|exact Hp0]. apply lookup_app_l_Some. exact Hr0.
  - eapply chain_child; [|exact Hp0|exact IH]. apply lookup_app_l_Some. exact Hr0.
Qed.

Lemma wf_app h n :
  wf h -> (forall p, parent n = Some p -> (p < length h)%nat) -> wf (h ++ [n]).
Proof.
  intros Hwf Hn a r p Ha Hp.
  destruct (decide (a < length h)%nat) as [Hlt|Hge].
  - rewrite lookup_app_l in Ha by exact Hlt. eapply Hwf; eauto.
  - assert (a = length h) as ->.
    { apply lookup_lt_Some in Ha. rewrite length_app in Ha. simpl in Ha. lia. }
    rewrite list_lookup_middle in Ha by reflexivity. injection Ha as <-. auto.
Qed.

Lemma wf_nil : wf [].
Proof. intros a r p Ha. rewrite lookup_nil in Ha. discriminate. Qed.

Lemma wf_new h : wf h -> wf (snd (new h)).
Proof. intros Hwf. apply wf_app; [exact Hwf|]. simpl. discriminate. Qed.

Lemma With_spec h rec r fs :
  h !! rec = Some r ->
  With h rec fs
  = Some (length h, h ++ [mkRecorder (fields r ++ fs) false (Some rec) []]).
Proof. intros Hr. unfold With, clone. rewrite Hr. reflexivity. Qed.

Lemma wf_With h rec fs rec' h' :
  wf h -> With h rec fs = Some (rec', h') -> wf h'.
Proof.
  intros Hwf. unfold With, clone.
  destruct (h !! rec) as [r|] eqn:Hr; [|discriminate].
  intros [= <- <-]. apply wf_app; [exact Hwf|].
  simpl. intros p [= <-]. eapply lookup_lt_Some; eauto.
Qed.

Lemma chain_With h root rec r fs :
  chain h root rec -> h !! rec = Some r ->
  chain (h ++ [mkRecorder (fields r ++ fs) false (Some rec) []]) root (length h).
Proof.
  intros Hc Hr. eapply chain_child.
  - apply list_lookup_middle. reflexivity.
  - reflexivity.
  - apply chain_app. exact Hc.
Qed.

Lemma record_chain h root a r ra lvl str args :
  wf h -> chain h root a -> h !! root = Some r -> h !! a = Some ra ->
  record h a lvl str args
  = Some (<[root := addEntry r (entryOf ra lvl str args)]> h).
Proof.
  intros Hwf Hc Hr Ha. unfold record.
  rewrite (top_chain h root a Hwf Hc), Ha, Hr. reflexivity.
Qed.

Lemma Entries_chain h root a r :
  wf h -> chain h root a -> h !! root = Some r ->
  Entries h a = Some (entries r).
Proof.
  intros Hwf Hc Hr. unfold Entries.
  rewrite (top_chain h root a Hwf Hc), Hr. reflexivity.
Qed.

Lemma Sync_chain h root a r :
  wf h -> chain h root a -> h !! root = Some r ->
  Sync h a = Some (<[root := setSync r]> h).
Proof.
  intros Hwf Hc Hr. unfold Sync.
  rewrite (top_chain h root a Hwf Hc), Hr. reflexivity.
Qed.

Lemma SyncCalled_chain h root a r :
  wf h -> chain h root a -> h !! root = Some r ->
  SyncCalled h a = Some (syncCalled r).
Proof.
  intros Hwf Hc Hr. unfold SyncCalled.
  rewrite (top_chain h root a Hwf Hc), Hr. reflexivity.
Qed.

End RecorderFacts.

Section RecorderClaims.
Import Ctx Recorder.

Lemma fields_insert_addEntry (h : heap) root r e b :
  h !! root = Some r ->
  fields <$> (<[root := addEntry r e]> h) !! b = fields <$> h !! b.
Proof.
  intros Hr. destruct (decide (root = b)) as [<-|Hne].
  - rewrite list_lookup_insert_eq by (eapply lookup_lt_Some; eauto).
    rewrite Hr. reflexivity.
  - rewrite list_lookup_insert_ne by exact Hne. reflexivity.
Qed.

Lemma emitted_insert (h : heap) root r e0 op e :
  h !! root = Some r ->
  emitted (<[root := addEntry r e0]> h) op e -> emitted h op e.
Proof.
  intros Hr [ra [Hra ->]].
  pose proof (fields_insert_addEntry h root r e0 (em_node op) Hr) as Hf.
  rewrite Hra in Hf. simpl in Hf.
  destruct (h !! em_node op) as [ra'|] eqn:E; [|discriminate].
  exists ra'. split; [exact E|].
  unfold entryOf. simpl in Hf. injection Hf as ->. reflexivity.
Qed.

(** A run of emissions from nodes of one chain puts the entries at the end
    of the root's list, in the order of the calls. *)
Lemma recordAll_chain ops : forall (h : heap) root r,
  wf h -> h !! root = Some r ->
  Forall (fun op => chain h root op.(em_node)) ops ->
  exists h' es,
    recordAll ops h = Some h'
    /\ Forall2 (emitted h) ops es
    /\ h' = <[root := mkRecorder (fields r) (syncCalled r) (parent r)
                                 (entries r ++ es)]> h.
Proof.
  induction ops as [|op ops IH]; intros h root r Hwf Hr Hall.
  - exists h, []. split; [reflexivity|]. split; [constructor|].
    rewrite app_nil_r. destruct r. symmetry. apply list_insert_id. exact Hr.
  - inversion Hall as [|? ? Hop Hops]; subst.
    destruct (chain_lookup _ _ _ Hop) as [ra Hra].
    pose proof (record_chain h root _ r ra (em_level op) (em_str op) (em_args op)
                  Hwf Hop Hr Hra) as Hrec.
    set (e := entryOf ra (em_level op) (em_str op) (em_args op)) in *.
    set (h1 := <[root := addEntry r e]> h) in *.
    assert (Hlt : (root < length h)%nat) by (eapply lookup_lt_Some; eauto).
    assert (Hr1 : h1 !! root = Some (addEntry r e))
      by (apply list_lookup_insert_eq; exact Hlt).
    destruct (IH h1 root (addEntry r e)) as (h' & es & Hrun & Hes & Hh').
    + eapply wf_insert; eauto.
    + exact Hr1.
    + eapply Forall_impl; [exact Hops|]. intros op' Hc.
      eapply chain_insert; eauto.
    + exists h', (e :: es). split; [simpl; rewrite Hrec; exact Hrun|]. split.
      * constructor; [exists ra; auto|].
        eapply Forall2_impl; [exact Hes|]. intros op' e' He'.
        apply (emitted_insert h root r e op' e' Hr). exact He'.
      * rewrite Hh'. unfold h1. rewrite list_insert_insert_eq.
        simpl. rewrite <- app_assoc. reflexivity.
Qed.

(** C5. In a chain of Recorders derived by [With] from a root: a [Log] or
    [Logf] on any node returns and appends its entry to the list of the
    root, leaving every other node as it was; [Entries] on any node is the
    list of the root; a run of emissions from nodes of the chain leaves
    the entries at the end of that list in the order of the calls; after
    [Sync] on any node, [SyncCalled] is true on every node of the chain. *)
Theorem Recorder_chain_invariant (h : heap) root a r :
  wf h -> chain h root a -> h !! root = Some r ->
  (forall lvl str args, exists ra,
      h !! a = Some ra
      /\ Log h a lvl args
         = Some (<[root := addEntry r (entryOf ra lvl "" args)]> h)
      /\ Logf h a lvl str args
         = Some (<[root := addEntry r (entryOf ra lvl str args)]> h))
  /\ (forall e b, b <> root -> (<[root := addEntry r e]> h) !! b = h !! b)
  /\ (forall b, chain h root b -> Entries h b = Some (entries r))
  /\ (forall ops,
         Forall (fun op => chain h root op.(em_node)) ops ->
         exists h' es,
           recordAll ops h = Some h'
           /\ Forall2 (emitted h) ops es
           /\ forall b, chain h root b -> Entries h' b = Some (entries r ++ es))
  /\ (exists h',
         Sync h a = Some h'
         /\ forall b, chain h root b -> SyncCalled h' b = Some true).
Proof.
  intros Hwf Hc Hr.
  assert (Hlt : (root < length h)%nat) by (eapply lookup_lt_Some; eauto).
  split; [|split; [|split; [|split]]].
  - intros lvl str args. destruct (chain_lookup _ _ _ Hc) as [ra Hra].
    exists ra. split; [exact Hra|]. unfold Log, Logf.
    split; apply record_chain; assumption.
  - intros e b Hb. apply list_lookup_insert_ne. congruence.
  - intros b Hb. eapply Entries_chain; eauto.
  - intros ops Hops.
    destruct (recordAll_chain ops h root r Hwf Hr Hops) as (h' & es & Hrun & Hes & Hh').
    exists h', es. split; [exact Hrun|]. split; [exact Hes|].
    intros b Hb. subst h'.
    set (r' := mkRecorder (fields r) (syncCalled r) (parent r) (entries r ++ es)).
    rewrite (Entries_chain (<[root := r']> h) root b r').
    + reflexivity.
    + eapply wf_insert; eauto.
    + eapply chain_insert; eauto.
    + apply list_lookup_insert_eq. exact Hlt.
  - exists (<[root := setSync r]> h). split; [eapply Sync_chain; eauto|].
    intros b Hb.
    rewrite (SyncCalled_chain (<[root := setSync r]> h) root b (setSync r)).
    + reflexivity.
    + eapply wf_insert; eauto.
    + eapply chain_insert; eauto.
    + apply list_lookup_insert_eq. exact Hlt.
Qed.

(** C6, as amended. Deriving a writer from a Recorder node with [With f1]
    and then [With f2] and logging through it returns, and the new entry,
    the last of the root's list, carries the fields already bound to the
    node followed by [f1 ++ f2]; on a node without bound fields this is
    [f1 ++ f2].  The entry keeps these fields when writers are derived
    later. *)
Theorem With_With_fields (h : heap) a ra f1 f2 lvl str args :
  wf h -> h !! a = Some ra ->
  exists a1 h1 a2 h2 h3 es,
    With h a f1 = Some (a1, h1)
    /\ With h1 a1 f2 = Some (a2, h2)
    /\ Entries h2 a2 = Some es
    /\ Logf h2 a2 lvl str args = Some h3
    /\ Entries h3 a2
       = Some (es ++ [mkLogEntry lvl str args (fields ra ++ f1 ++ f2)])
    /\ (fields ra = [] ->
        Entries h3 a2 = Some (es ++ [mkLogEntry lvl str args (f1 ++ f2)]))
    /\ (forall f3, exists a3 h4,
           With h3 a2 f3 = Some (a3, h4) /\ Entries h4 a2 = Entries h3 a2).
Proof.
  intros Hwf Ha.
  destruct (wf_chain h a ra Hwf Ha) as [root Hc].
  destruct (chain_root_node _ _ _ Hc) as [r [Hr Hpr]].
  set (n1 := mkRecorder (fields ra ++ f1) false (Some a) []).
  set (h1 := h ++ [n1]).
  set (n2 := mkRecorder ((fields ra ++ f1) ++ f2) false (Some (length h)) []).
  set (h2 := h1 ++ [n2]).
  assert (HW1 : With h a f1 = Some (length h, h1)) by (apply With_spec; exact Ha).
  assert (Hwf1 : wf h1) by (eapply wf_With; eauto).
  assert (Hc1 : chain h1 root (length h)) by (apply chain_With; assumption).
  assert (Hn1 : h1 !! length h = Some n1) by (apply list_lookup_middle; reflexivity).
  assert (HW2 : With h1 (length h) f2 = Some (length h1, h2))
    by (apply (With_spec h1 (length h) n1 f2 Hn1)).
  assert (Hwf2 : wf h2) by (eapply wf_With; eauto).
  assert (Hc2 : chain h2 root (length h1))
    by (apply (chain_With h1 root (length h) n1 f2 Hc1 Hn1)).
  assert (Hn2 : h2 !! length h1 = Some n2) by (apply list_lookup_middle; reflexivity).
  assert (Hr2 : h2 !! root = Some r).
  { unfold h2, h1. apply lookup_app_l_Some, lookup_app_l_Some. exact Hr. }
  set (e := entryOf n2 lvl str args).
  set (h3 := <[root := addEntry r e]> h2).
  assert (Hlt : (root < length h2)%nat) by (eapply lookup_lt_Some; eauto).
  assert (Hwf3 : wf h3) by (eapply wf_insert; eauto).
  assert (Hc3 : chain h3 root (length h1)) by (eapply chain_insert; eauto).
  assert (Hr3 : h3 !! root = Some (addEntry r e))
    by (apply list_lookup_insert_eq; exact Hlt).
  assert (HE3 : Entries h3 (length h1)
                = Some (entries r ++ [mkLogEntry lvl str args (fields ra ++ f1 ++ f2)])).
  { erewrite Entries_chain; eauto. simpl. unfold e, entryOf. simpl.
    rewrite <- app_assoc. reflexivity. }
  exists (length h), h1, (length h1), h2, h3, (entries r).
  split; [exact HW1|]. split; [exact HW2|].
  split; [eapply Entries_chain; eauto|].
  split; [unfold Logf; eapply record_chain; eauto|].
  split; [exact HE3|].
  split; [intros Hnil; rewrite HE3, Hnil; reflexivity|].
  intros f3.
  assert (Hn3 : exists n3, h3 !! length h1 = Some n3)
    by (apply chain_lookup in Hc3; destruct Hc3; eauto).
  destruct Hn3 as [n3 Hn3].
  eexists _, _. split; [apply (With_spec h3 _ n3 f3 Hn3)|].
  rewrite (Entries_chain h3 root (length h1) (addEntry r e) Hwf3 Hc3 Hr3).
  apply (Entries_chain _ root (length h1) (addEntry r e)).
  - eapply wf_With; [exact Hwf3|]. apply (With_spec h3 _ n3 f3 Hn3).
  - apply chain_app. exact Hc3.
  - apply lookup_app_l_Some. exact Hr3.
Qed.

End RecorderClaims.

Lemma Recorder_chain_invariant_witness :
  let h := [Recorder.mkRecorder [] false None [];
            Recorder.mkRecorder [Ctx.VStr "k"] false (Some 0%nat) []] in
  Recorder.Entries h 1 = Some []
  /\ exists h', Recorder.Sync h 1 = Some h' /\ Recorder.SyncCalled h' 0 = Some true.
Proof.
  intros h.
  assert (Hwf : Recorder.wf h).
  { intros [|[|a]] r p Ha Hp; simpl in Ha; try discriminate;
      injection Ha as <-; simpl in Hp; [discriminate|injection Hp as <-; lia]. }
  assert (Hc0 : Recorder.chain h 0 0)
    by (eapply Recorder.chain_root; reflexivity).
  assert (Hc : Recorder.chain h 0 1)
    by (eapply Recorder.chain_child; [reflexivity|reflexivity|exact Hc0]).
  pose proof (Recorder_chain_invariant h 0%nat 1%nat _ Hwf Hc eq_refl)
    as (_ & _ & HE & _ & h' & HS & HSC).
  split; [exact (HE 1%nat Hc)|].
  exists h'. split; [exact HS | exact (HSC 0%nat Hc0)].
Defined.

Lemma With_With_fields_witness :
  let h := [Recorder.mkRecorder [] false None []] in
  exists a2 h2 h3,
    Recorder.Logf h2 a2 1 "" [] = Some h3
    /\ Recorder.Entries h3 a2
       = Some [Recorder.mkLogEntry 1 "" [] [Ctx.VStr "a"; Ctx.VStr "b"]].
Proof.
  intros h.
  assert (Hwf : Recorder.wf h).
  { intros [|a] r p Ha Hp; simpl in Ha; try discriminate.
    injection Ha as <-. discriminate. }
  destruct (With_With_fields h 0%nat _ [Ctx.VStr "a"] [Ctx.VStr "b"] 1 "" []
              Hwf eq_refl)
    as (a1 & h1 & a2 & h2 & h3 & es & H1 & H2 & HE2 & HL & HE3 & _).
  exists a2, h2, h3. split; [exact HL|].
  injection H1 as <- <-. injection H2 as <- <-.
  injection HE2 as <-. exact HE3.
Defined.

(** A writer derived with a field of its own: the entry logged after
    [With "a"] and [With "b"] carries three fields, not the two of
    [["a"] ++ ["b"]]. *)
Lemma With_With_fields_counterexample :
  let h0 := [Recorder.mkRecorder [] false None []] in
  exists w h1 a1 h2 a2 h3 h4,
    Recorder.With h0 0 [Ctx.VStr "x"] = Some (w, h1)
    /\ Recorder.With h1 w [Ctx.VStr "a"] = Some (a1, h2)
    /\ Recorder.With h2 a1 [Ctx.VStr "b"] = Some (a2, h3)
    /\ Recorder.Log h3 a2 0 [] = Some h4
    /\ Recorder.Entries h4 a2
       = Some [Recorder.mkLogEntry 0 "" []
                 [Ctx.VStr "x"; Ctx.VStr "a"; Ctx.VStr "b"]]
    /\ [Ctx.VStr "x"; Ctx.VStr "a"; Ctx.VStr "b"]
       <> [Ctx.VStr "a"] ++ [Ctx.VStr "b"].
Proof.
  intros h0. do 7 eexists.
  repeat split; [reflexivity..|discriminate].
Qed.

(** ** The Logger facade *)

Section LoggerClaims.
Import Ctx.

(** At or above the threshold a call on a Recorder-backed Logger is the
    Recorder's own, and leaves one more entry. *)
Lemma Logger_forward (l : Logger.Logger) (h : Recorder.heap) rec ra root r L str args :
  Logger.writer l = Some (Logger.recorder rec) ->
  Recorder.wf h -> h !! rec = Some ra ->
  Recorder.chain h root rec -> h !! root = Some r ->
  Logger.level l <= L ->
  Logger.Log l h L args = Recorder.Log h rec L args
  /\ Logger.Logf l h L str args = Recorder.Logf h rec L str args
  /\ (exists h1,
         Logger.Log l h L args = Some h1
         /\ Recorder.Entries h1 rec
            = Some (Recorder.entries r
                    ++ [Recorder.mkLogEntry L "" args (Recorder.fields ra)]))
  /\ (exists h2,
         Logger.Logf l h L str args = Some h2
         /\ Recorder.Entries h2 rec
            = Some (Recorder.entries r
                    ++ [Recorder.mkLogEntry L str args (Recorder.fields ra)])).
Proof.
  intros Hw Hwf Hra Hc Hr HL.
  assert (Hlt : (root < length h)%nat) by (eapply lookup_lt_Some; eauto).
  assert (HLog : Logger.Log l h L args = Recorder.Log h rec L args).
  { unfold Logger.Log, Logger.innerWriter. rewrite Hw.
    destruct (Z.ltb_spec L (Logger.level l)); [lia|reflexivity]. }
  assert (HLogf : Logger.Logf l h L str args = Recorder.Logf h rec L str args).
  { unfold Logger.Logf, Logger.innerWriter. rewrite Hw.
    destruct (Z.ltb_spec L (Logger.level l)); [lia|reflexivity]. }
  split; [exact HLog|]. split; [exact HLogf|].
  assert (Hafter : forall str',
    exists h', Recorder.record h rec L str' args = Some h'
               /\ Recorder.Entries h' rec
                  = Some (Recorder.entries r
                          ++ [Recorder.mkLogEntry L str' args (Recorder.fields ra)])).
  { intros str'.
    set (e := Recorder.entryOf ra L str' args).
    exists (<[root := Recorder.addEntry r e]> h).
    split; [eapply record_chain; eauto|].
    rewrite (Entries_chain _ root rec (Recorder.addEntry r e)).
    - reflexivity.
    - eapply wf_insert; eauto.
    - eapply chain_insert; eauto.
    - apply list_lookup_insert_eq. exact Hlt. }
  split.
  - rewrite HLog. apply (Hafter "").
  - rewrite HLogf. apply (Hafter str).
Qed.

(** C1. A Logger with minimum level [L2] over a Recorder: a [Log] or
    [Logf] at a level below [L2] returns and leaves the heap, hence the
    entries, as they were; at a level [L >= L2] the call is the Recorder's
    own [Log] or [Logf] with the same arguments, it returns, and the
    entries are the former ones followed by exactly one new entry. *)
Theorem Logger_level_threshold (l : Logger.Logger) (h : Recorder.heap) rec ra L2 :
  Logger.writer l = Some (Logger.recorder rec) ->
  Logger.level l = L2 ->
  Recorder.wf h -> h !! rec = Some ra ->
  exists es,
    Recorder.Entries h rec = Some es
    /\ (forall L1 str args,
           L1 < L2 ->
           Logger.Log l h L1 args = Some h /\ Logger.Logf l h L1 str args = Some h)
    /\ (forall L str args,
           L2 <= L ->
           Logger.Log l h L args = Recorder.Log h rec L args
           /\ Logger.Logf l h L str args = Recorder.Logf h rec L str args
           /\ (exists h1,
                  Logger.Log l h L args = Some h1
                  /\ Recorder.Entries h1 rec
                     = Some (es ++ [Recorder.mkLogEntry L "" args (Recorder.fields ra)]))
           /\ (exists h2,
                  Logger.Logf l h L str args = Some h2
                  /\ Recorder.Entries h2 rec
                     = Some (es ++ [Recorder.mkLogEntry L str args (Recorder.fields ra)]))).
Proof.
  intros Hw Hl Hwf Hra.
  destruct (wf_chain h rec ra Hwf Hra) as [root Hc].
  destruct (chain_root_node _ _ _ Hc) as [r [Hr _]].
  exists (Recorder.entries r). split; [eapply Entries_chain; eauto|]. split.
  - intros L1 str args HL. unfold Logger.Log, Logger.Logf. rewrite Hl.
    destruct (Z.ltb_spec L1 L2); [auto|lia].
  - intros L str args HL.
    apply (Logger_forward l h rec ra root r L str args Hw Hwf Hra Hc Hr).
    rewrite Hl. exact HL.
Qed.

(** C9. On the zero Logger, whose writer is nil, every sequence of [Log],
    [Logf], [With] and [Sync] calls returns: no call panics, the heap of
    recorders is left as it was, and the logger that comes out (the one
    returned by the last [With]) still resolves to the no-op writer. *)
Theorem zero_Logger_never_faults (cs : list Logger.call) (h : Recorder.heap) :
  Logger.writer Logger.Logger_zero = None
  /\ exists l',
      Logger.run cs (Logger.Logger_zero, h) = Some (l', h)
      /\ Logger.innerWriter l' = Logger.noOpWriter.
Proof.
  split; [reflexivity|].
  assert (Hgen : forall l, Logger.innerWriter l = Logger.noOpWriter ->
            exists l', Logger.run cs (l, h) = Some (l', h)
                       /\ Logger.innerWriter l' = Logger.noOpWriter).
  { induction cs as [|c cs IH]; intros l Hl.
    - exists l. split; [reflexivity|exact Hl].
    - destruct c as [lvl args|lvl str args|fs|]; simpl.
      + unfold Logger.Log. rewrite Hl. simpl.
        destruct (lvl <? Logger.level l); simpl; apply IH; exact Hl.
      + unfold Logger.Logf. rewrite Hl. simpl.
        destruct (lvl <? Logger.level l); simpl; apply IH; exact Hl.
      + unfold Logger.With. rewrite Hl. simpl. apply IH. reflexivity.
      + unfold Logger.Sync. rewrite Hl. simpl. apply IH. exact Hl. }
  apply Hgen. reflexivity.
Qed.

Lemma collectFields_concat ms ctx : forall acc,
  Logger.collectFields ms ctx acc = acc ++ concat ((fun m => m ctx) <$> ms).
Proof.
  induction ms as [|m ms IH]; intros acc; simpl.
  - rewrite app_nil_r. reflexivity.
  - rewrite IH. destruct (m ctx) as [|v fs]; simpl.
    + reflexivity.
    + rewrite <- app_assoc. reflexivity.
Qed.

(** What [WithContext] does, for any registered middlewares: the fields
    are the results of the middlewares on the context, one after the
    other in the order of registration. *)
Lemma WithContext_eq (l : Logger.Logger) (h : Recorder.heap) ctx :
  Logger.WithContext l h ctx
  = match concat ((fun m => m ctx) <$> Logger.ctxMiddlewares l) with
    | [] => Some (l, h)
    | fields => Logger.With l h fields
    end.
Proof.
  unfold Logger.WithContext. rewrite collectFields_concat. simpl.
  destruct (concat ((fun m => m ctx) <$> Logger.ctxMiddlewares l)); reflexivity.
Qed.

(** C8. [WithContext] runs every registered middleware, in the order of
    registration, and concatenates what they return: it is [With] on the
    results of the middlewares one after the other, and over a Recorder
    the next entry of the Logger it returns carries the fields of the
    receiver's node followed by these results in that order.  With the
    default middlewares registered last, on a context made by
    [NewContext] with the request id "abc-123", the entry ends with the
    pair "request_id", "abc-123".  When every middleware returns nothing,
    as the default ones do on a context without a request id,
    [WithContext] returns the receiver, with the same writer, and
    allocates nothing. *)
Theorem WithContext_request_id :
  (forall (l : Logger.Logger) (h : Recorder.heap) ctx,
      Logger.WithContext l h ctx
      = match concat ((fun m => m ctx) <$> Logger.ctxMiddlewares l) with
        | [] => Some (l, h)
        | fields => Logger.With l h fields
        end)
  /\ (forall (l : Logger.Logger) (h : Recorder.heap) rec ra ctx lvl args,
         Logger.writer l = Some (Logger.recorder rec) ->
         Recorder.wf h -> h !! rec = Some ra -> Logger.level l <= lvl ->
         concat ((fun m => m ctx) <$> Logger.ctxMiddlewares l) <> [] ->
         exists l' h' rec' h2 es,
           Logger.WithContext l h ctx = Some (l', h')
           /\ Logger.writer l' = Some (Logger.recorder rec')
           /\ Logger.level l' = Logger.level l
           /\ Logger.ctxMiddlewares l' = Logger.ctxMiddlewares l
           /\ Recorder.Entries h' rec' = Some es
           /\ Logger.Log l' h' lvl args = Some h2
           /\ Recorder.Entries h2 rec'
              = Some (es ++ [Recorder.mkLogEntry lvl "" args
                               (Recorder.fields ra
                                ++ concat ((fun m => m ctx) <$> Logger.ctxMiddlewares l))]))
  /\ (forall (l : Logger.Logger) (h : Recorder.heap) ms rec ra parent lvl args,
         Logger.ctxMiddlewares l = ms ++ DefaultMiddlewares ->
         Logger.writer l = Some (Logger.recorder rec) ->
         Recorder.wf h -> h !! rec = Some ra -> Logger.level l <= lvl ->
         exists l' h' rec' h2 es,
           Logger.WithContext l h (NewContext parent "abc-123") = Some (l', h')
           /\ Logger.writer l' = Some (Logger.recorder rec')
           /\ Recorder.Entries h' rec' = Some es
           /\ Logger.Log l' h' lvl args = Some h2
           /\ Recorder.Entries h2 rec'
              = Some (es ++ [Recorder.mkLogEntry lvl "" args
                               (Recorder.fields ra
                                ++ concat ((fun m => m (NewContext parent "abc-123")) <$> ms)
                                ++ [VStr "request_id"; VStr "abc-123"])]))
  /\ (forall (l : Logger.Logger) (h : Recorder.heap) ctx,
         Forall (fun m => m ctx = []) (Logger.ctxMiddlewares l) ->
         Logger.WithContext l h ctx = Some (l, h))
  /\ (forall (l : Logger.Logger) (h : Recorder.heap) ctx,
         Logger.ctxMiddlewares l = DefaultMiddlewares ->
         Value ctx requestIDKey = VNil ->
         Logger.WithContext l h ctx = Some (l, h)).
Proof.
  assert (Hgen : forall (l : Logger.Logger) (h : Recorder.heap) rec ra ctx lvl args,
         Logger.writer l = Some (Logger.recorder rec) ->
         Recorder.wf h -> h !! rec = Some ra -> Logger.level l <= lvl ->
         concat ((fun m => m ctx) <$> Logger.ctxMiddlewares l) <> [] ->
         exists l' h' rec' h2 es,
           Logger.WithContext l h ctx = Some (l', h')
           /\ Logger.writer l' = Some (Logger.recorder rec')
           /\ Logger.level l' = Logger.level l
           /\ Logger.ctxMiddlewares l' = Logger.ctxMiddlewares l
           /\ Recorder.Entries h' rec' = Some es
           /\ Logger.Log l' h' lvl args = Some h2
           /\ Recorder.Entries h2 rec'
              = Some (es ++ [Recorder.mkLogEntry lvl "" args
                               (Recorder.fields ra
                                ++ concat ((fun m => m ctx) <$> Logger.ctxMiddlewares l))])).
  { intros l h rec ra ctx lvl args Hw Hwf Hra Hlvl Hne.
    set (fs := concat ((fun m => m ctx) <$> Logger.ctxMiddlewares l)) in *.
    set (n := Recorder.mkRecorder (Recorder.fields ra ++ fs) false (Some rec) []).
    set (h' := h ++ [n]).
    set (l' := Logger.clone l (Logger.recorder (length h))).
    assert (HW : Logger.WithContext l h ctx = Some (l', h')).
    { rewrite WithContext_eq. fold fs.
      assert (HWith : Logger.With l h fs = Some (l', h')).
      { unfold Logger.With, Logger.innerWriter. rewrite Hw. simpl.
        rewrite (With_spec h rec ra _ Hra). reflexivity. }
      rewrite <- HWith. destruct fs; [congruence|reflexivity]. }
    assert (Hn : h' !! length h = Some n) by (apply list_lookup_middle; reflexivity).
    assert (Hwf' : Recorder.wf h')
      by (eapply wf_With; [exact Hwf|apply (With_spec h rec ra fs Hra)]).
    destruct (wf_chain h' (length h) n Hwf' Hn) as [root Hc].
    destruct (chain_root_node _ _ _ Hc) as [r [Hr _]].
    destruct (Logger_forward l' h' (length h) n root r lvl "" args
                eq_refl Hwf' Hn Hc Hr Hlvl) as (_ & _ & (h2 & HL & HE2) & _).
    exists l', h', (length h), h2, (Recorder.entries r).
    split; [exact HW|]. split; [reflexivity|].
    split; [reflexivity|]. split; [reflexivity|].
    split; [eapply Entries_chain; eauto|]. split; assumption. }
  assert (Hnone : forall (l : Logger.Logger) (h : Recorder.heap) ctx,
         Forall (fun m => m ctx = []) (Logger.ctxMiddlewares l) ->
         Logger.WithContext l h ctx = Some (l, h)).
  { intros l h ctx Hall. rewrite WithContext_eq.
    replace (concat ((fun m => m ctx) <$> Logger.ctxMiddlewares l)) with (@nil value);
      [reflexivity|].
    induction Hall as [|m ms Hm _ IH]; [reflexivity|].
    simpl. rewrite Hm. exact IH. }
  split; [exact WithContext_eq|]. split; [exact Hgen|]. split; [|split].
  - intros l h ms rec ra parent lvl args Hms Hw Hwf Hra Hlvl.
    set (ctx := NewContext parent "abc-123").
    assert (Hfs : concat ((fun m => m ctx) <$> Logger.ctxMiddlewares l)
                  = concat ((fun m => m ctx) <$> ms)
                    ++ [VStr "request_id"; VStr "abc-123"]).
    { rewrite Hms, fmap_app, concat_app. reflexivity. }
    destruct (Hgen l h rec ra ctx lvl args Hw Hwf Hra Hlvl)
      as (l' & h' & rec' & h2 & es & HW & Hw' & _ & _ & HE & HL & HE2).
    { rewrite Hfs. intros E. apply app_eq_nil in E as [_ E]. discriminate. }
    exists l', h', rec', h2, es. rewrite Hfs in HE2. tauto.
  - exact Hnone.
  - intros l h ctx Hms Hv. apply Hnone. rewrite Hms.
    repeat constructor. unfold RequestIDMiddleware, FromContext.
    rewrite Hv. reflexivity.
Qed.

End LoggerClaims.

Lemma Logger_level_threshold_witness :
  let h := [Recorder.mkRecorder [] false None []] in
  let l := Logger.mkLogger (Some (Logger.recorder 0%nat)) Level.WarningLevel [] in
  Logger.Log l h Level.InfoLevel [Ctx.VStr "m"] = Some h
  /\ exists h1,
      Logger.Log l h Level.WarningLevel [Ctx.VStr "m"] = Some h1
      /\ Recorder.Entries h1 0
         = Some [Recorder.mkLogEntry Level.WarningLevel "" [Ctx.VStr "m"] []].
Proof.
  intros h l.
  assert (Hwf : Recorder.wf h).
  { intros [|a] r p Ha Hp; simpl in Ha; try discriminate.
    injection Ha as <-. discriminate. }
  destruct (Logger_level_threshold l h 0%nat _ Level.WarningLevel
              eq_refl eq_refl Hwf eq_refl) as (es & HE & Hlow & Hhigh).
  split.
  - apply (Hlow Level.InfoLevel "" [Ctx.VStr "m"]). reflexivity.
  - destruct (Hhigh Level.WarningLevel "" [Ctx.VStr "m"])
      as (_ & _ & (h1 & H1 & HE1) & _); [reflexivity|].
    exists h1. split; [exact H1|].
    injection HE as <-. exact HE1.
Defined.

Lemma WithContext_request_id_witness :
  let h := [Recorder.mkRecorder [] false None []] in
  let tenant : Ctx.CtxMiddleware := fun _ => [Ctx.VStr "tenant"; Ctx.VStr "t1"] in
  let l := Logger.NewWithWriter
             (Logger.mkConfig "" Level.DebugLevel None [tenant] false false)
             (Some (Logger.recorder 0%nat)) in
  Logger.WithContext (Logger.NewWithWriter Logger.Config_zero None) h Ctx.Background
  = Some (Logger.NewWithWriter Logger.Config_zero None, h)
  /\ exists l' h' rec' h2,
      Logger.WithContext l h (Ctx.NewContext Ctx.Background "abc-123") = Some (l', h')
      /\ Logger.Log l' h' Level.InfoLevel [] = Some h2
      /\ Recorder.Entries h2 rec'
         = Some [Recorder.mkLogEntry Level.InfoLevel "" []
                   [Ctx.VStr "tenant"; Ctx.VStr "t1";
                    Ctx.VStr "request_id"; Ctx.VStr "abc-123"]].
Proof.
  intros h tenant l.
  assert (Hwf : Recorder.wf h).
  { intros [|a] r p Ha Hp; simpl in Ha; try discriminate.
    injection Ha as <-. discriminate. }
  destruct WithContext_request_id as (_ & _ & Hid & _ & Hnone).
  split.
  - apply Hnone; reflexivity.
  - destruct (Hid l h [tenant] 0%nat _ Ctx.Background Level.InfoLevel []
                eq_refl eq_refl Hwf eq_refl)
      as (l' & h' & rec' & h2 & es & HW & Hw' & HE & HL & HE2).
    { vm_compute. discriminate. }
    exists l', h', rec', h2. split; [exact HW|]. split; [exact HL|].
    vm_compute in HW. injection HW as <- <-.
    vm_compute in Hw'. injection Hw' as <-.
    vm_compute in HE. injection HE as <-. exact HE2.
Defined.

Section DumpClaims.
Import Ctx Recorder.

(** C7. [Dump] on a Recorder whose entries are one debug-level entry with
    no format string, the arguments "a" and 1 and the fields "k" and "v"
    returns exactly [[debug  ] [a, 1] {k, v}] followed by a line feed: the
    name padded to width 7 between square brackets, the arguments
    separated by ", " between square brackets, the fields separated by
    ", " between braces. *)
Theorem Dump_one_debug_entry (Sprintf : string -> list value -> string)
    (h : heap) rec :
  Entries h rec
  = Some [mkLogEntry Level.DebugLevel "" [VStr "a"; VInt 1] [VStr "k"; VStr "v"]] ->
  Dump Sprintf h rec = Some ("[debug  ] [a, 1] {k, v}" +:+ newline).
Proof.
  intros HE. unfold Dump. rewrite HE. reflexivity.
Qed.

End DumpClaims.

Lemma Dump_one_debug_entry_witness :
  exists rec h1 h2,
    Recorder.With [Recorder.mkRecorder [] false None []] 0 [Ctx.VStr "k"; Ctx.VStr "v"]
    = Some (rec, h1)
    /\ Recorder.Log h1 rec Level.DebugLevel [Ctx.VStr "a"; Ctx.VInt 1] = Some h2
    /\ Recorder.Dump (fun _ _ => "") h2 rec
       = Some ("[debug  ] [a, 1] {k, v}" +:+ Recorder.newline).
Proof.
  eexists _, _, _. split; [reflexivity|]. split; [reflexivity|].
  apply Dump_one_debug_entry. reflexivity.
Defined.

(** ** The matcher *)

Section MaskEngine.
Import Mask.

Lemma spanLen_le p s : (spanLen p s <= length s)%nat.
Proof.
  induction s as [|c s IH]; simpl; [lia|]. destruct (p (code c)); simpl; lia.
Qed.

Lemma spanLen_take p s k :
  (k <= spanLen p s)%nat -> Forall (fun c => p (code c) = true) (take k s).
Proof.
  revert k. induction s as [|c s IH]; intros k Hk; simpl in *.
  - rewrite take_nil. constructor.
  - destruct k as [|k]; [constructor|]. simpl.
    destruct (p (code c)) eqn:E; [|lia].
    constructor; [exact E|]. apply IH. lia.
Qed.

Lemma spanLen_app_all p a b :
  Forall (fun c => p (code c) = true) a ->
  spanLen p (a ++ b) = (length a + spanLen p b)%nat.
Proof.
  induction 1 as [|c a Hc _ IH]; simpl; [reflexivity|]. rewrite Hc, IH. reflexivity.
Qed.

Lemma spanLen_stop p c s : p (code c) = false -> spanLen p (c :: s) = 0%nat.
Proof. intros H. simpl. rewrite H. reflexivity. Qed.

Lemma spanLen_exact p a b :
  Forall (fun c => p (code c) = true) a ->
  match b with c :: _ => p (code c) = false | [] => True end ->
  spanLen p (a ++ b) = length a.
Proof.
  intros Ha Hb. rewrite spanLen_app_all by exact Ha.
  destruct b as [|c b]; simpl; [lia|]. rewrite Hb. lia.
Qed.

Lemma spanLen_drop p s k :
  (k <= spanLen p s)%nat -> spanLen p (drop k s) = (spanLen p s - k)%nat.
Proof.
  revert k. induction s as [|c s IH]; intros k Hk; simpl in *.
  - rewrite drop_nil. reflexivity.
  - destruct k as [|k]; [simpl; lia|]. simpl.
    destruct (p (code c)); [|lia]. simpl. apply IH. lia.
Qed.

(** *** [backtrack] *)

Lemma backtrack_first {R} (f : nat -> option R) lo n k r :
  (lo <= k <= lo + n)%nat -> f k = Some r ->
  (forall j, (k < j <= lo + n)%nat -> f j = None) ->
  backtrack f lo n = Some (k, r).
Proof.
  revert k r. induction n as [|n IH]; intros k r Hk Hf Hnone; simpl.
  - assert (k = lo + 0)%nat as -> by lia. rewrite Hf. reflexivity.
  - destruct (decide (k = lo + S n)%nat) as [->|Hne].
    + rewrite Hf. reflexivity.
    + rewrite (Hnone (lo + S n)%nat) by lia.
      apply IH; [lia|exact Hf|]. intros j Hj. apply Hnone. lia.
Qed.

Lemma backtrack_none {R} (f : nat -> option R) lo n :
  (forall j, (lo <= j <= lo + n)%nat -> f j = None) ->
  backtrack f lo n = None.
Proof.
  induction n as [|n IH]; intros Hnone; simpl.
  - rewrite Hnone by lia. reflexivity.
  - rewrite Hnone by lia. apply IH. intros j Hj. apply Hnone. lia.
Qed.

Lemma backtrack_inv {R} (f : nat -> option R) lo n k r :
  backtrack f lo n = Some (k, r) -> (lo <= k <= lo + n)%nat /\ f k = Some r.
Proof.
  induction n as [|n IH]; simpl.
  - destruct (f (lo + 0)%nat) eqn:E; [|discriminate].
    intros [= <- <-]. split; [lia|exact E].
  - destruct (f (lo + S n)%nat) eqn:E.
    + intros [= <- <-]. split; [lia|exact E].
    + intros H. destruct (IH H). split; [lia|assumption].
Qed.

(** *** Every match is made of texts its items accept *)

Lemma matchItems_sound items : forall s chunks rest,
  matchItems items s = Some (chunks, rest) ->
  s = concat chunks ++ rest /\ Forall2 itemOK items chunks.
Proof.
  induction items as [|it items IH]; intros s chunks rest; simpl.
  - intros [= <- <-]. split; [reflexivity|constructor].
  - set (avail := spanLen (cls it) s).
    set (hi := match rmax it with Some m => Nat.min m avail | None => avail end).
    destruct (hi <? rmin it)%nat eqn:Ehi; [discriminate|].
    apply Nat.ltb_ge in Ehi.
    destruct (backtrack _ _ _) as [[k [chs rst]]|] eqn:Eb; [|discriminate].
    intros [= <- <-].
    apply backtrack_inv in Eb as [Hk Hf].
    destruct (IH _ _ _ Hf) as [Hs Hall].
    assert (Hkhi : (k <= hi)%nat) by lia.
    assert (Hka : (k <= avail)%nat).
    { unfold hi in Hkhi. destruct (rmax it); lia. }
    assert (Hlen : length (take k s) = k).
    { rewrite length_take. pose proof (spanLen_le (cls it) s). fold avail in H. lia. }
    split.
    + simpl. rewrite <- app_assoc, <- Hs. symmetry. apply take_drop.
    + constructor; [|exact Hall]. unfold itemOK. rewrite Hlen.
      split; [apply spanLen_take; exact Hka|]. split; [lia|].
      unfold hi in Hkhi. destruct (rmax it); [lia|exact I].
Qed.

(** *** A separated list matches in one way only *)

Lemma matchItems_head_fails it items c s :
  (1 <= rmin it)%nat -> cls it (code c) = false ->
  matchItems (it :: items) (c :: s) = None.
Proof.
  intros Hmin Hc. simpl. rewrite Hc.
  destruct (rmax it) as [m|]; rewrite ?Nat.min_0_r;
    destruct (Nat.ltb_spec 0 (rmin it)); (reflexivity || lia).
Qed.

Lemma matchItems_cons it items s :
  matchItems (it :: items) s
  = let avail := spanLen (cls it) s in
    let hi := match rmax it with
              | Some m => Nat.min m avail
              | None => avail
              end in
    if (hi <? rmin it)%nat then None
    else
      match backtrack (fun k => matchItems items (drop k s)) (rmin it) (hi - rmin it) with
      | Some (k, (chunks, rest)) => Some (take k s :: chunks, rest)
      | None => None
      end.
Proof. reflexivity. Qed.

(** When only the count [k] can succeed, the item takes [k] characters. *)
Lemma matchItems_forced it items s k :
  (rmin it <= k)%nat ->
  k = match rmax it with
      | Some m => Nat.min m (spanLen (cls it) s)
      | None => spanLen (cls it) s
      end ->
  (forall j, (rmin it <= j < k)%nat -> matchItems items (drop j s) = None) ->
  matchItems (it :: items) s
  = match matchItems items (drop k s) with
    | Some (chunks, rest) => Some (take k s :: chunks, rest)
    | None => None
    end.
Proof.
  intros Hmin Hk Hnone. rewrite matchItems_cons. cbv zeta. rewrite <- Hk.
  destruct (Nat.ltb_spec k (rmin it)) as [|_]; [lia|].
  destruct (matchItems items (drop k s)) as [[chs rst]|] eqn:E.
  - rewrite (backtrack_first _ _ _ k (chs, rst)); [reflexivity|lia|exact E|].
    intros j Hj. lia.
  - rewrite backtrack_none; [reflexivity|].
    intros j Hj. destruct (decide (j = k)) as [->|Hne]; [exact E|].
    apply Hnone. lia.
Qed.

(** The count an item ends up with is the largest one on which the rest
    of the pattern succeeds. *)
Lemma matchItems_at it items s k chunks rest :
  let hi := match rmax it with
            | Some m => Nat.min m (spanLen (cls it) s)
            | None => spanLen (cls it) s
            end in
  (rmin it <= k <= hi)%nat ->
  matchItems items (drop k s) = Some (chunks, rest) ->
  (forall j, (k < j <= hi)%nat -> matchItems items (drop j s) = None) ->
  matchItems (it :: items) s = Some (take k s :: chunks, rest).
Proof.
  intros hi Hk Hf Hnone. rewrite matchItems_cons. cbv zeta. fold hi.
  destruct (Nat.ltb_spec hi (rmin it)) as [|_]; [lia|].
  rewrite (backtrack_first _ _ _ k (chunks, rest)); [reflexivity|lia|exact Hf|].
  intros j Hj. apply Hnone. lia.
Qed.

Lemma matchItems_separated items : forall chunks tl z,
  separated items -> Forall2 itemOK items chunks ->
  matchItems (items ++ tl) (concat chunks ++ z)
  = match matchItems tl z with
    | Some (chunks2, rest) => Some (chunks ++ chunks2, rest)
    | None => None
    end.
Proof.
  induction items as [|it items IH]; intros chunks tl z Hsep Hall.
  - inversion Hall; subst. simpl. destruct (matchItems tl z) as [[? ?]|]; reflexivity.
  - inversion Hall as [|? ch ? chs [Hcls [Hmin Hmax]] Hrest]; subst.
    destruct Hsep as [Hit Hsep].
    specialize (IH chs tl z Hsep Hrest).
    change ((it :: items) ++ tl) with (it :: (items ++ tl)).
    change (concat (ch :: chs)) with (ch ++ concat chs). rewrite <- app_assoc.
    set (s' := concat chs ++ z) in *.
    assert (Htake : take (length ch) (ch ++ s') = ch) by (apply take_app_length).
    assert (Hdrop : drop (length ch) (ch ++ s') = s') by (apply drop_app_length).
    assert (Hspan : (length ch <= spanLen (cls it) (ch ++ s'))%nat).
    { rewrite spanLen_app_all by exact Hcls. lia. }
    rewrite (matchItems_forced it (items ++ tl) (ch ++ s') (length ch)).
    + rewrite Hdrop, Htake, IH.
      destruct (matchItems tl z) as [[? ?]|]; reflexivity.
    + exact Hmin.
    + destruct Hit as [Hexact|[Hunb Hnext]].
      * rewrite Hexact in *. lia.
      * rewrite Hunb. symmetry. apply spanLen_exact; [exact Hcls|].
        destruct items as [|it2 items]; [contradiction|].
        destruct Hnext as [Hmin2 Hdisj].
        inversion Hrest as [|? ch2 ? chs2 [Hcls2 [Hmin2' _]] _]; subst.
        unfold s'. simpl.
        destruct ch2 as [|c2 ch2]; [simpl in Hmin2'; lia|]. simpl.
        inversion Hcls2 as [|? ? Hc2 _]; subst.
        destruct (cls it (code c2)) eqn:E; [|reflexivity].
        rewrite (Hdisj _ E) in Hc2. discriminate.
    + intros j Hj.
      destruct Hit as [Hexact|[Hunb Hnext]].
      * rewrite Hexact in Hmax. lia.
      * destruct items as [|it2 items]; [contradiction|].
        destruct Hnext as [Hmin2 Hdisj].
        assert (Hjlt : (j < length ch)%nat) by lia.
        destruct (lookup_lt_is_Some_2 ch j Hjlt) as [c Hc].
        rewrite (drop_S (ch ++ s') c j) by (apply lookup_app_l_Some; exact Hc).
        apply matchItems_head_fails; [exact Hmin2|].
        apply Hdisj. rewrite Forall_lookup in Hcls. exact (Hcls j c Hc).
Qed.

End MaskEngine.

Section MaskMatch.
Import Mask.

Lemma Forall2_itemOK_length items chunks :
  Forall2 itemOK items chunks -> length chunks = length items.
Proof. intros H. symmetry. eapply Forall2_length. exact H. Qed.

(** A match is a text of group 1 followed by a match of the rest. *)
Lemma matchHere_intro re g1 s' g2 rest :
  separated (group1 re) -> headOf re g1 ->
  matchTail re s' = Some (g2, rest) ->
  matchHere re (g1 ++ s') = Some (g1, g2, rest).
Proof.
  intros Hsep (chunks & Hall & ->) Ht. unfold matchHere, matchTail in *.
  rewrite (matchItems_separated _ chunks _ s' Hsep Hall).
  destruct (matchItems (middle re ++ group2 re) s') as [[chs2 rst]|]; [|discriminate].
  injection Ht as <- <-.
  pose proof (Forall2_itemOK_length _ _ Hall) as Hlen.
  rewrite <- Hlen, take_app_length, drop_app_add'; reflexivity.
Qed.

Lemma matchHere_none re g1 s' :
  separated (group1 re) -> headOf re g1 ->
  matchTail re s' = None ->
  matchHere re (g1 ++ s') = None.
Proof.
  intros Hsep (chunks & Hall & ->) Ht. unfold matchHere, matchTail in *.
  rewrite (matchItems_separated _ chunks _ s' Hsep Hall).
  destruct (matchItems (middle re ++ group2 re) s') as [[chs2 rst]|];
    [discriminate|reflexivity].
Qed.

Lemma matchHere_inv re s g1 g2 rest :
  separated (group1 re) ->
  matchHere re s = Some (g1, g2, rest) ->
  exists s', s = g1 ++ s' /\ headOf re g1 /\ matchTail re s' = Some (g2, rest).
Proof.
  intros Hsep Hm. unfold matchHere in Hm.
  destruct (matchItems _ s) as [[chunks rst]|] eqn:E; [|discriminate].
  injection Hm as <- <- <-.
  destruct (matchItems_sound _ _ _ _ E) as [Hs Hall].
  apply Forall2_app_inv_l in Hall as (c1 & c2 & H1 & H2 & ->).
  pose proof (Forall2_itemOK_length _ _ H1) as Hlen.
  rewrite <- Hlen, take_app_length, drop_app_add' by reflexivity.
  exists (concat c2 ++ rst).
  split; [rewrite Hs, concat_app, <- app_assoc; reflexivity|].
  split; [exists c1; auto|].
  rewrite Hs, concat_app, <- app_assoc in E.
  rewrite (matchItems_separated _ c1 _ _ Hsep H1) in E.
  unfold matchTail.
  destruct (matchItems (middle re ++ group2 re) (concat c2 ++ rst)) as [[chs2 rst2]|];
    [|discriminate].
  injection E as E1 <-. apply app_inv_head in E1 as ->. reflexivity.
Qed.

(** Group 1 can be read off the input in one way only. *)
Lemma headOf_unique re g1 g1' s' s'' :
  separated (group1 re) -> headOf re g1 -> headOf re g1' ->
  g1 ++ s' = g1' ++ s'' -> g1 = g1' /\ s' = s''.
Proof.
  intros Hsep (c1 & H1 & ->) (c2 & H2 & ->) Heq.
  pose proof (matchItems_separated _ c1 [] s' Hsep H1) as E1.
  pose proof (matchItems_separated _ c2 [] s'' Hsep H2) as E2.
  rewrite Heq in E1. rewrite E1 in E2. simpl in E2.
  injection E2 as E <-. apply app_inv_tail in E as ->. auto.
Qed.

(** *** The end of the authorization pattern: the line, but its last three
    characters *)

Lemma matchItems_times3 p s :
  matchItems [times 3 p] s
  = if (3 <=? spanLen p s)%nat then Some ([take 3 s], drop 3 s) else None.
Proof.
  destruct (Nat.leb_spec 3 (spanLen p s)) as [Hge|Hlt].
  - rewrite (matchItems_forced _ _ _ 3%nat).
    + reflexivity.
    + simpl. lia.
    + change (3 = Nat.min 3 (spanLen p s))%nat. lia.
    + intros j Hj. simpl in Hj. lia.
  - rewrite matchItems_cons. cbv zeta. cbn [cls rmax rmin times].
    destruct (Nat.ltb_spec (Nat.min 3 (spanLen p s)) 3); [reflexivity|lia].
Qed.

Lemma matchTail_auth s :
  matchTail patternAuthorization s
  = let n := spanLen notCRLF s in
    if (3 <=? n)%nat then Some (take 3 (drop (n - 3) s), drop n s) else None.
Proof.
  unfold matchTail. change (middle patternAuthorization ++ group2 patternAuthorization)
    with [star notCRLF; times 3 notCRLF].
  cbv zeta. set (n := spanLen notCRLF s).
  assert (Hf : forall j, (j <= n)%nat ->
             matchItems [times 3 notCRLF] (drop j s)
             = if (3 <=? n - j)%nat
               then Some ([take 3 (drop j s)], drop 3 (drop j s)) else None).
  { intros j Hj. rewrite matchItems_times3, spanLen_drop by exact Hj. reflexivity. }
  rewrite matchItems_cons. cbv zeta. cbn [cls rmax rmin star]. fold n.
  rewrite Nat.sub_0_r. change (n <? 0)%nat with false. cbv iota.
  destruct (Nat.leb_spec 3 n) as [Hge|Hlt].
  - rewrite (backtrack_first _ _ _ (n - 3)%nat
               ([take 3 (drop (n - 3) s)], drop 3 (drop (n - 3) s))).
    + simpl. rewrite app_nil_r, drop_drop. do 3 f_equal. lia.
    + lia.
    + rewrite Hf by lia. destruct (Nat.leb_spec 3 (n - (n - 3))); [reflexivity|lia].
    + intros j Hj. rewrite Hf by lia. destruct (Nat.leb_spec 3 (n - j)); [lia|reflexivity].
  - rewrite backtrack_none; [reflexivity|].
    intros j Hj. rewrite Hf by lia. destruct (Nat.leb_spec 3 (n - j)); [lia|reflexivity].
Qed.

(** *** The end of the password pattern *)

Lemma matchItems_dot_quote s :
  matchItems [times 1 dot; one (lit 34)] s
  = match s with
    | c :: q :: rest =>
        if dot (code c) && lit 34 (code q) then Some ([[c]; [q]], rest) else None
    | _ => None
    end.
Proof.
  destruct s as [|c [|q rest]]; try reflexivity.
  - simpl. destruct (dot (code c)); reflexivity.
  - simpl. destruct (dot (code c)); [|reflexivity]. simpl.
    destruct (lit 34 (code q)); reflexivity.
Qed.

Lemma notQuote_false c : notQuote c = false -> c = 34.
Proof. unfold notQuote. intros H. apply negb_false_iff, Z.eqb_eq in H. exact H. Qed.

Lemma lit34 c : lit 34 c = (c =? 34).
Proof.
  unfold lit. simpl. rewrite !orb_false_r. reflexivity.
Qed.

Lemma pwTail_two_quotes mid q1 q2 rest :
  Forall (fun c => notQuote (code c) = true) mid ->
  code q1 = 34 -> code q2 = 34 ->
  matchItems pwTailItems (mid ++ q1 :: q2 :: rest) = Some ([mid; [q1]; [q2]], rest).
Proof.
  intros Hmid Hq1 Hq2. unfold pwTailItems.
  assert (Hn : spanLen notQuote (mid ++ q1 :: q2 :: rest) = length mid).
  { apply spanLen_exact; [exact Hmid|]. rewrite Hq1. reflexivity. }
  rewrite <- (take_app_length mid (q1 :: q2 :: rest)) at 2.
  apply matchItems_at.
  - simpl. rewrite Hn. lia.
  - rewrite drop_app_length, matchItems_dot_quote, lit34, Hq1, Hq2. reflexivity.
  - simpl. rewrite Hn. intros j Hj. lia.
Qed.

Lemma pwTail_one_quote mid c q1 rest :
  Forall (fun c => notQuote (code c) = true) mid ->
  notQuote (code c) = true -> dot (code c) = true -> code q1 = 34 ->
  match rest with q2 :: _ => code q2 <> 34 | [] => True end ->
  matchItems pwTailItems (mid ++ c :: q1 :: rest) = Some ([mid; [c]; [q1]], rest).
Proof.
  intros Hmid Hc Hdot Hq1 Hrest. unfold pwTailItems.
  assert (Hn : spanLen notQuote (mid ++ c :: q1 :: rest) = S (length mid)).
  { change (mid ++ c :: q1 :: rest) with (mid ++ [c] ++ q1 :: rest).
    rewrite app_assoc. rewrite spanLen_exact.
    - rewrite length_app. simpl. lia.
    - apply Forall_app. split; [exact Hmid|]. constructor; [exact Hc|constructor].
    - rewrite Hq1. reflexivity. }
  rewrite <- (take_app_length mid (c :: q1 :: rest)) at 2.
  apply matchItems_at.
  - simpl. rewrite Hn. lia.
  - rewrite drop_app_length, matchItems_dot_quote, lit34, Hdot, Hq1. reflexivity.
  - cbn [rmax rmin star cls]. rewrite Hn. intros j Hj.
    assert (j = S (length mid)) as -> by lia.
    change (mid ++ c :: q1 :: rest) with (mid ++ [c] ++ q1 :: rest).
    rewrite app_assoc.
    replace (S (length mid)) with (length (mid ++ [c])) by (rewrite length_app; simpl; lia).
    rewrite drop_app_length, matchItems_dot_quote.
    destruct rest as [|q2 rest]; [reflexivity|].
    rewrite lit34. destruct (Z.eqb_spec (code q2) 34); [contradiction|].
    rewrite andb_false_r. reflexivity.
Qed.

(** The two shapes above are the only ones. *)
Lemma pwTail_inv s chunks rest :
  matchItems pwTailItems s = Some (chunks, rest) ->
  exists mid c q,
    chunks = [mid; [c]; [q]] /\ s = mid ++ c :: q :: rest
    /\ Forall (fun c => notQuote (code c) = true) mid
    /\ dot (code c) = true /\ code q = 34
    /\ (code c = 34
        \/ (notQuote (code c) = true
            /\ match rest with q2 :: _ => code q2 <> 34 | [] => True end)).
Proof.
  intros Hm. destruct (matchItems_sound _ _ _ _ Hm) as [Hs Hall].
  unfold pwTailItems in Hall. revert Hm.
  inversion Hall as [|? mid ? l1 [Hmid _] Hall1]; subst.
  inversion Hall1 as [|? ch1 ? l2 [Hc [Hc1 Hc2]] Hall2]; subst.
  inversion Hall2 as [|? ch2 ? l3 [Hq [Hq1 Hq2]] Hall3]; subst.
  inversion Hall3; subst.
  cbn [rmin rmax times one] in Hc1, Hc2, Hq1, Hq2.
  destruct ch1 as [|c [|? ?]]; simpl in Hc1, Hc2; try lia.
  destruct ch2 as [|q [|? ?]]; simpl in Hq1, Hq2; try lia.
  inversion Hc as [|? ? Hdot _]; subst. inversion Hq as [|? ? Hlit _]; subst.
  cbn [cls times one] in Hdot, Hlit.
  rewrite lit34 in Hlit. apply Z.eqb_eq in Hlit.
  change (concat [mid; [c]; [q]] ++ rest) with ((mid ++ [c] ++ [q] ++ []) ++ rest).
  replace ((mid ++ [c] ++ [q] ++ []) ++ rest) with (mid ++ c :: q :: rest)
    by (rewrite <- app_assoc; reflexivity).
  intros Hm.
  exists mid, c, q.
  split; [reflexivity|]. split; [reflexivity|]. split; [exact Hmid|].
  split; [exact Hdot|]. split; [exact Hlit|].
  destruct (notQuote (code c)) eqn:Ec; [|left; apply notQuote_false; exact Ec].
  right. split; [reflexivity|].
  destruct rest as [|q2 rest]; [exact I|]. intros Hq2'.
  (* otherwise the pattern would have taken [c] into the middle *)
  assert (Halt : matchItems pwTailItems ((mid ++ [c]) ++ q :: q2 :: rest)
                 = Some ([mid ++ [c]; [q]; [q2]], rest)).
  { apply pwTail_two_quotes; [|exact Hlit|exact Hq2'].
    apply Forall_app. split; [exact Hmid|]. constructor; [exact Ec|constructor]. }
  rewrite <- app_assoc in Halt. change ([c] ++ q :: q2 :: rest) with (c :: q :: q2 :: rest) in Halt.
  rewrite Hm in Halt. injection Halt as Halt.
  apply (f_equal length) in Halt. rewrite length_app in Halt. simpl in Halt. lia.
Qed.

End MaskMatch.

(** ** The loop of ReplaceAll *)

Section MaskLoop.
Import Mask.

Lemma find_Some re : forall s u m,
  find re s = Some (u, m) ->
  exists t, s = u ++ t /\ matchHere re t = Some m
            /\ forall k, (k < length u)%nat -> matchHere re (drop k s) = None.
Proof.
  induction s as [|c s IH]; intros u m; simpl.
  - destruct (matchHere re []) as [m'|] eqn:E; [|discriminate].
    intros [= <- <-]. exists []. split; [reflexivity|]. split; [exact E|].
    simpl. intros k Hk. lia.
  - destruct (matchHere re (c :: s)) as [m'|] eqn:E.
    + intros [= <- <-]. exists (c :: s). split; [reflexivity|]. split; [exact E|].
      simpl. intros k Hk. lia.
    + destruct (find re s) as [[u' m']|] eqn:Ef; [|discriminate].
      intros [= <- <-]. destruct (IH _ _ eq_refl) as (t & Hs & Hm & Hnone).
      exists t. split; [simpl; rewrite Hs; reflexivity|]. split; [exact Hm|].
      intros [|k] Hk; [exact E|]. simpl. apply Hnone. simpl in Hk. lia.
Qed.

Lemma find_None re : forall s,
  find re s = None -> forall k, matchHere re (drop k s) = None.
Proof.
  induction s as [|c s IH]; simpl.
  - destruct (matchHere re []) eqn:E; [discriminate|].
    intros _ k. rewrite drop_nil. exact E.
  - destruct (matchHere re (c :: s)) eqn:E; [discriminate|].
    destruct (find re s) as [[u' m']|] eqn:Ef; [discriminate|].
    intros _ [|k]; [exact E|]. simpl. apply IH. reflexivity.
Qed.

Lemma find_intro re t m : forall u,
  matchHere re t = Some m ->
  (forall k, (k < length u)%nat -> matchHere re (drop k (u ++ t)) = None) ->
  find re (u ++ t) = Some (u, m).
Proof.
  induction u as [|c u IH]; intros Hm Hnone.
  - simpl. destruct t; simpl; rewrite Hm; reflexivity.
  - pose proof (Hnone 0%nat) as H0. simpl in H0. simpl. rewrite H0 by lia.
    rewrite IH; [reflexivity|exact Hm|].
    intros k Hk. apply (Hnone (S k)). simpl. lia.
Qed.

Lemma find_none_intro re : forall s,
  (forall k, matchHere re (drop k s) = None) -> find re s = None.
Proof.
  induction s as [|c s IH]; intros Hnone; simpl.
  - pose proof (Hnone 0%nat) as H0. simpl in H0. rewrite H0. reflexivity.
  - pose proof (Hnone 0%nat) as H0. simpl in H0. rewrite H0.
    rewrite IH; [reflexivity|].
    intros k. apply (Hnone (S k)).
Qed.

Lemma consumes_nil re : consumes re -> matchHere re [] = None.
Proof.
  intros Hc. destruct (matchHere re []) as [[[g1 g2] rest]|] eqn:E; [|reflexivity].
  destruct (Hc _ _ _ _ E) as (c & g1' & s' & -> & Ht & _). discriminate.
Qed.

Lemma find_shorter re s u g1 g2 rest :
  consumes re -> find re s = Some (u, (g1, g2, rest)) ->
  (length rest < length s)%nat.
Proof.
  intros Hc Hf. destruct (find_Some _ _ _ _ Hf) as (t & -> & Hm & _).
  destruct (Hc _ _ _ _ Hm) as (c & g1' & s' & -> & -> & Hlen).
  rewrite !length_app. simpl. lia.
Qed.

Lemma replaceLoop_fuel re mask : consumes re -> forall f1 f2 s,
  (length s <= f1)%nat -> (length s <= f2)%nat ->
  replaceLoop re mask f1 s = replaceLoop re mask f2 s.
Proof.
  intros Hc.
  assert (Hnil : forall f, replaceLoop re mask f [] = []).
  { intros [|f]; simpl; [reflexivity|]. rewrite (consumes_nil re Hc). reflexivity. }
  induction f1 as [|f1 IH]; intros f2 s H1 H2.
  - destruct s; [|simpl in H1; lia]. rewrite !Hnil. reflexivity.
  - destruct f2 as [|f2].
    + destruct s; [|simpl in H2; lia]. rewrite !Hnil. reflexivity.
    + simpl. destruct (find re s) as [[u [[g1 g2] rest]]|] eqn:Ef; [|reflexivity].
      pose proof (find_shorter _ _ _ _ _ _ Hc Ef).
      rewrite (IH f2 rest) by lia. reflexivity.
Qed.

(** The equation of the loop. *)
Lemma ReplaceAll_eq re mask s :
  consumes re ->
  ReplaceAll re mask s
  = match find re s with
    | Some (u, (g1, g2, rest)) => u ++ (g1 ++ mask ++ g2) ++ ReplaceAll re mask rest
    | None => s
    end.
Proof.
  intros Hc. unfold ReplaceAll. destruct s as [|c s].
  - simpl. rewrite (consumes_nil re Hc). reflexivity.
  - change (length (c :: s)) with (S (length s)). cbn [replaceLoop].
    destruct (find re (c :: s)) as [[u [[g1 g2] rest]]|] eqn:Ef; [|reflexivity].
    pose proof (find_shorter _ _ _ _ _ _ Hc Ef) as Hlt. simpl in Hlt.
    rewrite (replaceLoop_fuel re mask Hc (length s) (length rest) rest) by lia.
    reflexivity.
Qed.

(** The output starts with the character the input starts with. *)
Lemma ReplaceAll_head re mask c s :
  consumes re -> exists s', ReplaceAll re mask (c :: s) = c :: s'.
Proof.
  intros Hc. rewrite ReplaceAll_eq by exact Hc.
  destruct (find re (c :: s)) as [[u [[g1 g2] rest]]|] eqn:Ef; [|eauto].
  destruct (find_Some _ _ _ _ Ef) as (t & Hs & Hm & _).
  destruct u as [|c' u].
  - simpl in Hs. subst t.
    destruct (Hc _ _ _ _ Hm) as (c' & g1' & s' & -> & Ht & _).
    injection Ht as <- _. simpl. eauto.
  - injection Hs as <- _. simpl. eauto.
Qed.

Lemma ReplaceAll_nil re mask : consumes re -> ReplaceAll re mask [] = [].
Proof.
  intros Hc. rewrite ReplaceAll_eq by exact Hc.
  rewrite (find_none_intro re []); [reflexivity|].
  intros k. rewrite drop_nil. apply consumes_nil. exact Hc.
Qed.

(** A head condition on the input carries over to the output. *)
Lemma ReplaceAll_head_cond re mask (P : rune -> Prop) s :
  consumes re ->
  match s with c :: _ => P c | [] => True end ->
  match ReplaceAll re mask s with c :: _ => P c | [] => True end.
Proof.
  intros Hc. destruct s as [|c s].
  - rewrite ReplaceAll_nil by exact Hc. auto.
  - destruct (ReplaceAll_head re mask c s Hc) as [s' ->]. auto.
Qed.

End MaskLoop.

(** ** The two patterns *)

Section MaskPatterns.
Import Mask.

Ltac zbool :=
  unfold lit, space, word, notCRLF, dot, notQuote, isLower, isUpper, isDigit in *;
  repeat rewrite ?negb_true_iff, ?negb_false_iff, ?orb_true_iff, ?orb_false_iff,
    ?andb_true_iff, ?andb_false_iff, ?Z.eqb_eq, ?Z.eqb_neq, ?Z.leb_le, ?Z.leb_gt in *;
  try lia.

Lemma lit_lower_word l c : lit l c = true -> isLower l = true -> word c = true.
Proof. intros H1 H2. zbool. Qed.

Lemma word_not_space c : word c = true -> space c = false.
Proof. intros H. zbool. Qed.

Lemma space_not_word c : space c = true -> word c = false.
Proof. intros H. zbool. Qed.

Lemma word_codes c :
  word c = true -> c <> 42 /\ c <> 34 /\ c <> 58 /\ c <> 13 /\ c <> 10.
Proof. intros H. zbool. Qed.

Lemma space_codes c : space c = true -> c <> 42 /\ c <> 34 /\ c <> 58.
Proof. intros H. zbool. Qed.

Lemma lit_code l c :
  lit l c = true -> isLower l = false -> l <> 115 -> l <> 107 -> c = l.
Proof. intros H1 H2 H3 H4. zbool. Qed.

Lemma lit_not_p l c :
  lit l c = true -> isLower l = true -> l <> 112 -> c <> 112 /\ c <> 80.
Proof. intros H1 H2 H3. zbool. Qed.

Lemma lit_a c : lit 97 c = true -> c = 97 \/ c = 65.
Proof. intros H. zbool. Qed.

Lemma lit_p c : lit 112 c = true -> c = 112 \/ c = 80.
Proof. intros H. zbool. Qed.

Lemma space_not_colon c : space c = true -> lit 58 c = false.
Proof. intros H. zbool. Qed.

Lemma space_not_quote c : space c = true -> lit 34 c = false.
Proof. intros H. zbool. Qed.

Lemma separated_text str items :
  separated items -> separated (text str ++ items).
Proof.
  intros H. unfold text. induction (list_ascii_of_string str) as [|a l IH]; simpl.
  - exact H.
  - split; [left; reflexivity|exact IH].
Qed.

Lemma separated_auth : separated (group1 patternAuthorization).
Proof.
  apply separated_text. simpl. repeat split; try (left; reflexivity).
  - right. split; [reflexivity|]. split; [lia|exact space_not_word].
  - right. split; [reflexivity|]. split; [lia|exact word_not_space].
Qed.

Lemma separated_pw : separated (group1 patternPassword).
Proof.
  apply separated_text. simpl. repeat split; try (left; reflexivity).
  - right. split; [reflexivity|]. split; [lia|exact space_not_colon].
  - right. split; [reflexivity|]. split; [lia|exact space_not_quote].
Qed.

(** The chunks of a literal text are its characters. *)
Lemma Forall2_text str items chunks :
  Forall2 itemOK (text str ++ items) chunks ->
  exists L chunks',
    litText str L /\ Forall2 itemOK items chunks'
    /\ concat chunks = L ++ concat chunks'.
Proof.
  unfold text, litText. revert chunks.
  induction (list_ascii_of_string str) as [|a l IH]; intros chunks H.
  - exists [], chunks. split; [constructor|]. split; [exact H|reflexivity].
  - rewrite fmap_cons in H. simpl in H.
    inversion H as [|? ch ? chs [Hcls [Hmin Hmax]] Hrest]; subst.
    destruct (IH _ Hrest) as (L & chunks' & HL & Hitems & Hc).
    cbn [rmin rmax cls one] in *.
    destruct ch as [|c [|? ?]]; simpl in Hmin, Hmax; try lia.
    inversion Hcls as [|? ? Hlit _]; subst.
    exists (c :: L), chunks'. split; [constructor; assumption|].
    split; [exact Hitems|]. simpl. rewrite Hc. reflexivity.
Qed.

Lemma text_Forall2 str items L chunks' :
  litText str L -> Forall2 itemOK items chunks' ->
  Forall2 itemOK (text str ++ items) (((fun c => [c]) <$> L) ++ chunks').
Proof.
  unfold text, litText. revert L.
  induction (list_ascii_of_string str) as [|a l IH]; intros L HL Hitems.
  - inversion HL; subst. exact Hitems.
  - inversion HL as [|? c ? L' Hlit HL']; subst.
    rewrite !fmap_cons. simpl. constructor; [|apply IH; assumption].
    unfold itemOK. simpl. repeat split; [constructor; [exact Hlit|constructor]|lia|lia].
Qed.

Lemma concat_singletons (L : list rune) : concat ((fun c => [c]) <$> L) = L.
Proof.
  induction L as [|c L IH]; [reflexivity|].
  rewrite fmap_cons. change (c :: concat ((fun c => [c]) <$> L) = c :: L).
  f_equal. exact IH.
Qed.

(** Group 1 of the authorization pattern. *)
Lemma headOf_auth g1 :
  headOf patternAuthorization g1 <->
  exists L ws wd c w3,
    g1 = L ++ ws ++ wd ++ [c] ++ w3
    /\ litText "authorization:" L
    /\ codeIs space ws /\ codeIs word wd /\ wd <> []
    /\ space (code c) = true /\ codeIs word w3 /\ length w3 = 3%nat.
Proof.
  split.
  - intros (chunks & Hall & ->).
    apply Forall2_text in Hall as (L & chunks' & HL & Hitems & ->).
    inversion Hitems as [|? ws ? l1 [Hws _] H1]; subst.
    inversion H1 as [|? wd ? l2 [Hwd [Hwd1 _]] H2]; subst.
    inversion H2 as [|? ch ? l3 [Hc [Hc1 Hc2]] H3]; subst.
    inversion H3 as [|? w3 ? l4 [Hw3 [Hw31 Hw32]] H4]; subst.
    inversion H4; subst. cbn [rmin rmax cls one times plus star] in *.
    destruct ch as [|c [|? ?]]; simpl in Hc1, Hc2; try lia.
    inversion Hc as [|? ? Hsp _]; subst.
    exists L, ws, wd, c, w3. simpl. rewrite app_nil_r.
    repeat split; try assumption; [|lia].
    intros ->. simpl in Hwd1. lia.
  - intros (L & ws & wd & c & w3 & -> & HL & Hws & Hwd & Hne & Hc & Hw3 & Hlen).
    exists (((fun c => [c]) <$> L) ++ [ws; wd; [c]; w3]). split.
    + apply (text_Forall2 "authorization:"); [exact HL|].
      constructor; [split; [exact Hws|split; [simpl; lia|exact I]]|].
      constructor;
        [split; [exact Hwd|split; [destruct wd; [contradiction|simpl; lia]|exact I]]|].
      constructor; [split; [constructor; [exact Hc|constructor]|split; simpl; lia]|].
      constructor; [split; [exact Hw3|split; simpl; lia]|constructor].
    + rewrite concat_app, concat_singletons. simpl. rewrite app_nil_r. reflexivity.
Qed.

(** Group 1 of the password pattern. *)
Lemma headOf_pw G :
  headOf patternPassword G <->
  exists L q1 w1 col w2 q2 a b,
    G = L ++ [q1] ++ w1 ++ [col] ++ w2 ++ [q2] ++ [a; b]
    /\ litText "password" L
    /\ code q1 = 34 /\ codeIs space w1 /\ code col = 58 /\ codeIs space w2
    /\ code q2 = 34 /\ dot (code a) = true /\ dot (code b) = true.
Proof.
  split.
  - intros (chunks & Hall & ->).
    apply Forall2_text in Hall as (L & chunks' & HL & Hitems & ->).
    inversion Hitems as [|? c1 ? l1 [Hq1 [Hq11 Hq12]] H1]; subst.
    inversion H1 as [|? w1 ? l2 [Hw1 _] H2]; subst.
    inversion H2 as [|? c2 ? l3 [Hcol [Hcol1 Hcol2]] H3]; subst.
    inversion H3 as [|? w2 ? l4 [Hw2 _] H4]; subst.
    inversion H4 as [|? c3 ? l5 [Hq2 [Hq21 Hq22]] H5]; subst.
    inversion H5 as [|? ab ? l6 [Hab [Hab1 Hab2]] H6]; subst.
    inversion H6; subst. cbn [rmin rmax cls one times plus star] in *.
    destruct c1 as [|q1 [|? ?]]; simpl in Hq11, Hq12; try lia.
    destruct c2 as [|col [|? ?]]; simpl in Hcol1, Hcol2; try lia.
    destruct c3 as [|q2 [|? ?]]; simpl in Hq21, Hq22; try lia.
    destruct ab as [|a [|b [|? ?]]]; simpl in Hab1, Hab2; try lia.
    inversion Hq1 as [|? ? Hq1' _]; subst. inversion Hcol as [|? ? Hcol' _]; subst.
    inversion Hq2 as [|? ? Hq2' _]; subst.
    inversion Hab as [|? ? Ha Hab']; subst. inversion Hab' as [|? ? Hb _]; subst.
    exists L, q1, w1, col, w2, q2, a, b. simpl. rewrite ?app_nil_r.
    repeat split; try assumption.
    + apply lit_code in Hq1'; [exact Hq1'|reflexivity|lia|lia].
    + apply lit_code in Hcol'; [exact Hcol'|reflexivity|lia|lia].
    + apply lit_code in Hq2'; [exact Hq2'|reflexivity|lia|lia].
  - intros (L & q1 & w1 & col & w2 & q2 & a & b & -> & HL & Hq1 & Hw1 & Hcol & Hw2
            & Hq2 & Ha & Hb).
    exists (((fun c => [c]) <$> L) ++ [[q1]; w1; [col]; w2; [q2]; [a; b]]). split.
    + apply (text_Forall2 "password"); [exact HL|].
      assert (Hone : forall l (r : rune), code r = l -> lit l l = true ->
                itemOK (one (lit l)) [r]).
      { intros l r Hr Hl. split; [|split; simpl; lia].
        constructor; [|constructor]. simpl. rewrite Hr. exact Hl. }
      constructor; [apply Hone; [exact Hq1|reflexivity]|].
      constructor; [split; [exact Hw1|split; [simpl; lia|exact I]]|].
      constructor; [apply Hone; [exact Hcol|reflexivity]|].
      constructor; [split; [exact Hw2|split; [simpl; lia|exact I]]|].
      constructor; [apply Hone; [exact Hq2|reflexivity]|].
      constructor; [|constructor].
      split; [|split; simpl; lia].
      constructor; [exact Ha|]. constructor; [exact Hb|constructor].
    + rewrite concat_app, concat_singletons. simpl. rewrite ?app_nil_r. reflexivity.
Qed.

End MaskPatterns.

Section MaskHeads.
Import Mask.

Lemma litText_length str L : litText str L -> length L = String.length str.
Proof.
  intros H. apply Forall2_length in H. rewrite <- H.
  clear. induction str as [|a str IH]; simpl; [reflexivity|]. rewrite IH. reflexivity.
Qed.

Lemma matchTail_rest re s' g2 rest :
  matchTail re s' = Some (g2, rest) -> (length rest <= length s')%nat.
Proof.
  unfold matchTail.
  destruct (matchItems _ s') as [[chunks rst]|] eqn:E; [|discriminate].
  intros [= _ <-]. destruct (matchItems_sound _ _ _ _ E) as [-> _].
  rewrite length_app. lia.
Qed.

Lemma consumes_of_head re :
  separated (group1 re) ->
  (forall g1, headOf re g1 -> g1 <> []) ->
  consumes re.
Proof.
  intros Hsep Hne t g1 g2 rest Hm.
  destruct (matchHere_inv _ _ _ _ _ Hsep Hm) as (s' & -> & Hh & Ht).
  pose proof (Hne _ Hh) as Hg. destruct g1 as [|c g1']; [contradiction|].
  exists c, g1', s'. split; [reflexivity|]. split; [reflexivity|].
  eapply matchTail_rest; eauto.
Qed.

(** What the characters of group 1 of the authorization pattern are. *)
Lemma auth_head_lookup g1 :
  headOf patternAuthorization g1 ->
  (19 <= length g1)%nat
  /\ (forall i r, g1 !! i = Some r ->
        ((i < 13)%nat -> word (code r) = true)
        /\ (i = 13%nat -> code r = 58)
        /\ ((14 <= i)%nat -> space (code r) = true \/ word (code r) = true))
  /\ (exists r, g1 !! (length g1 - 4)%nat = Some r /\ space (code r) = true).
Proof.
  intros H. apply headOf_auth in H
    as (L & ws & wd & c & w3 & -> & HL & Hws & Hwd & Hne & Hc & Hw3 & Hlen).
  pose proof (litText_length _ _ HL) as HlenL. simpl in HlenL.
  assert (Hwdlen : (1 <= length wd)%nat) by (destruct wd; [contradiction|simpl; lia]).
  split; [rewrite !length_app; simpl; lia|]. split.
  - intros i r Hi. apply lookup_app_Some in Hi as [Hi|[Hge Hi]].
    + pose proof (lookup_lt_Some _ _ _ Hi) as Hlt.
      destruct (Forall2_lookup_r _ _ _ _ _ HL Hi) as (a & Ha & Hlit).
      split; [|split; [|intros ?; exfalso; lia]]; revert Ha Hlit.
      * intros Ha Hlit Hi13. revert Ha Hlit.
        do 13 (destruct i as [|i];
               [intros [= <-] Hlit; apply (lit_lower_word _ _ Hlit); reflexivity|]).
        lia.
      * intros Ha Hlit ->. injection Ha as <-.
        apply (lit_code 58) in Hlit; [exact Hlit|reflexivity|lia|lia].
    + split; [lia|]. split; [lia|]. intros _.
      assert (Hall : Forall (fun r => space (code r) = true \/ word (code r) = true)
                       (ws ++ wd ++ [c] ++ w3)).
      { repeat apply Forall_app_2.
        - eapply Forall_impl; [exact Hws|]. simpl. auto.
        - eapply Forall_impl; [exact Hwd|]. simpl. auto.
        - constructor; [auto|constructor].
        - eapply Forall_impl; [exact Hw3|]. simpl. auto. }
      rewrite Forall_lookup in Hall. exact (Hall _ _ Hi).
  - exists c. split; [|exact Hc].
    rewrite !app_assoc.
    rewrite lookup_app_l by (rewrite !length_app; simpl; lia).
    rewrite lookup_app_r by (rewrite !length_app; simpl; lia).
    replace (_ - _)%nat with 0%nat by (rewrite !length_app; simpl; lia).
    reflexivity.
Qed.

Lemma auth_head_nonempty g1 : headOf patternAuthorization g1 -> g1 <> [].
Proof.
  intros H. destruct (auth_head_lookup _ H) as [Hlen _].
  intros ->. simpl in Hlen. lia.
Qed.

(** No star, no quote in group 1 of the authorization pattern, and no
    line break in its first 14 characters. *)
Lemma auth_head_codes g1 i r :
  headOf patternAuthorization g1 -> g1 !! i = Some r ->
  code r <> 42 /\ code r <> 34
  /\ ((i < 14)%nat -> code r <> 13 /\ code r <> 10 /\ space (code r) = false).
Proof.
  intros H Hi. destruct (auth_head_lookup _ H) as (_ & Hl & _).
  destruct (Hl _ _ Hi) as (H1 & H2 & H3).
  destruct (decide (i < 13)%nat) as [Hlt|Hge].
  - pose proof (word_codes _ (H1 Hlt)). pose proof (word_not_space _ (H1 Hlt)). tauto.
  - destruct (decide (i = 13%nat)) as [->|Hne].
    + rewrite (H2 eq_refl). repeat split; try lia.
    + destruct (H3 ltac:(lia)) as [Hs|Hw].
      * pose proof (space_codes _ Hs). split; [tauto|]. split; [tauto|]. lia.
      * pose proof (word_codes _ Hw). split; [tauto|]. split; [tauto|]. lia.
Qed.

(** What the characters of group 1 of the password pattern are. *)
Lemma pw_head_lookup G :
  headOf patternPassword G ->
  (13 <= length G)%nat
  /\ (forall i r, G !! i = Some r ->
        ((i < 8)%nat -> word (code r) = true)
        /\ (i = 0%nat -> code r = 112 \/ code r = 80)
        /\ ((1 <= i < 8)%nat -> code r <> 112 /\ code r <> 80)
        /\ (i = 8%nat -> code r = 34)
        /\ ((8 < i < length G - 2)%nat ->
            space (code r) = true \/ code r = 58 \/ code r = 34)).
Proof.
  intros H. apply headOf_pw in H
    as (L & q1 & w1 & col & w2 & q2 & a & b & -> & HL & Hq1 & Hw1 & Hcol & Hw2
        & Hq2 & Ha & Hb).
  pose proof (litText_length _ _ HL) as HlenL. simpl in HlenL.
  split; [rewrite !length_app; simpl; lia|].
  intros i r Hi. apply lookup_app_Some in Hi as [Hi|[Hge Hi]].
  - pose proof (lookup_lt_Some _ _ _ Hi) as Hlt.
    destruct (Forall2_lookup_r _ _ _ _ _ HL Hi) as (c & Hc & Hlit).
    split; [|split; [|split; [|split; [lia|lia]]]].
    + intros _. revert Hc Hlit.
      do 8 (destruct i as [|i];
            [intros [= <-] Hlit; apply (lit_lower_word _ _ Hlit); reflexivity|]).
      simpl in Hlt. lia.
    + intros ->. injection Hc as <-. apply lit_p. exact Hlit.
    + intros Hi1. revert Hc Hlit. destruct i as [|i]; [lia|].
      do 7 (destruct i as [|i];
            [intros [= <-] Hlit; apply (lit_not_p _ _ Hlit);
             [reflexivity|intros E; vm_compute in E; discriminate]|]).
      simpl in Hlt. lia.
  - rewrite HlenL in *. split; [lia|]. split; [lia|]. split; [lia|].
    assert (Hlen : length (L ++ [q1] ++ w1 ++ [col] ++ w2 ++ [q2] ++ [a; b])
                   = (8 + 1 + length (w1 ++ [col] ++ w2 ++ [q2]) + 2)%nat).
    { rewrite !length_app. simpl. lia. }
    rewrite Hlen.
    replace ([q1] ++ w1 ++ [col] ++ w2 ++ [q2] ++ [a; b])
      with (q1 :: (w1 ++ [col] ++ w2 ++ [q2]) ++ [a; b]) in Hi
      by (rewrite <- !app_assoc; reflexivity).
    set (M := w1 ++ [col] ++ w2 ++ [q2]) in *.
    destruct (i - 8)%nat as [|j] eqn:Ej.
    + injection Hi as <-. split; [intros _; exact Hq1|]. lia.
    + split; [lia|]. intros Hi2.
      change ((M ++ [a; b]) !! j = Some r) in Hi.
      assert (Hall : Forall (fun r => space (code r) = true \/ code r = 58 \/ code r = 34) M).
      { unfold M. repeat apply Forall_app_2.
        - eapply Forall_impl; [exact Hw1|]. simpl. auto.
        - constructor; [auto|constructor].
        - eapply Forall_impl; [exact Hw2|]. simpl. auto.
        - constructor; [auto|constructor]. }
      rewrite Forall_lookup in Hall. apply (Hall j).
      rewrite lookup_app_l in Hi by lia. exact Hi.
Qed.

Lemma pw_head_nonempty G : headOf patternPassword G -> G <> [].
Proof.
  intros H. destruct (pw_head_lookup _ H) as [Hlen _].
  intros ->. simpl in Hlen. lia.
Qed.

Lemma consumes_auth : consumes patternAuthorization.
Proof.
  apply consumes_of_head; [exact separated_auth|exact auth_head_nonempty].
Qed.

Lemma consumes_pw : consumes patternPassword.
Proof.
  apply consumes_of_head; [exact separated_pw|exact pw_head_nonempty].
Qed.

End MaskHeads.

(** ** The password pass, run twice *)

Section PasswordPass.
Import Mask.

Lemma prefix_split {A} (a s p z : list A) :
  a ++ s = p ++ z -> (length a <= length p)%nat ->
  exists w, p = a ++ w /\ s = w ++ z.
Proof.
  revert p. induction a as [|x a IH]; intros p H Hlen.
  - exists p. simpl in H. auto.
  - destruct p as [|y p]; [simpl in Hlen; lia|].
    simpl in H. injection H as -> H. simpl in Hlen.
    destruct (IH p H ltac:(lia)) as (w & -> & ->). exists w. auto.
Qed.

Lemma length_ind {A} (P : list A -> Prop) :
  (forall x, (forall y, (length y < length x)%nat -> P y) -> P x) ->
  forall x, P x.
Proof.
  intros H x. remember (length x) as n eqn:Hn. revert x Hn.
  induction (lt_wf n) as [n _ IH]. intros x ->.
  apply H. intros y Hy. exact (IH _ Hy y eq_refl).
Qed.

Lemma matchTail_pw s :
  matchTail patternPassword s
  = match matchItems pwTailItems s with
    | Some (chunks, rest) => Some (concat (drop 1 chunks), rest)
    | None => None
    end.
Proof. reflexivity. Qed.

(** The shape of a match of the password pattern. *)
Lemma pw_match_inv t G g rest :
  matchHere patternPassword t = Some (G, g, rest) ->
  exists mid c q,
    t = G ++ mid ++ c :: q :: rest /\ g = [c; q]
    /\ headOf patternPassword G
    /\ codeIs notQuote mid /\ dot (code c) = true /\ code q = 34
    /\ (code c = 34 \/ (notQuote (code c) = true /\ quoteFree rest)).
Proof.
  intros Hm.
  destruct (matchHere_inv _ _ _ _ _ separated_pw Hm) as (s' & -> & Hh & Ht).
  rewrite matchTail_pw in Ht.
  destruct (matchItems pwTailItems s') as [[chunks rst]|] eqn:E; [|discriminate].
  injection Ht as <- <-.
  destruct (pwTail_inv _ _ _ E) as (mid & c & q & -> & -> & Hmid & Hc & Hq & Hcase).
  exists mid, c, q. repeat split; try assumption.
Qed.

Lemma pw_match_intro G mid c q rest :
  headOf patternPassword G ->
  codeIs notQuote mid -> dot (code c) = true -> code q = 34 ->
  (code c = 34 \/ (notQuote (code c) = true /\ quoteFree rest)) ->
  matchHere patternPassword (G ++ mid ++ c :: q :: rest) = Some (G, [c; q], rest).
Proof.
  intros Hh Hmid Hc Hq Hcase.
  apply matchHere_intro; [exact separated_pw|exact Hh|].
  rewrite matchTail_pw.
  destruct Hcase as [Hc34|[Hnq Hrest]].
  - rewrite pwTail_two_quotes by assumption. reflexivity.
  - rewrite pwTail_one_quote by assumption. reflexivity.
Qed.

Lemma quoteFree_head (rest rest' : list rune) :
  head rest = head rest' -> quoteFree rest -> quoteFree rest'.
Proof.
  destruct rest as [|a r], rest' as [|b r']; simpl; intros H; try discriminate; auto.
  injection H as <-. auto.
Qed.

(** Whether the password pattern matches at a position before a match is
    decided before the end of group 1 of that match. *)
Lemma pw_decided u2 G Z1 Z2 :
  u2 <> [] -> headOf patternPassword G ->
  matchHere patternPassword (u2 ++ G ++ Z1) = None ->
  matchHere patternPassword (u2 ++ G ++ Z2) = None.
Proof.
  intros Hu HG Hold.
  destruct (matchHere patternPassword (u2 ++ G ++ Z2)) as [[[G' g'] rest']|] eqn:Hnew;
    [|reflexivity].
  exfalso.
  destruct (pw_match_inv _ _ _ _ Hnew)
    as (mid' & c' & q' & HX & -> & HG' & Hmid' & Hc' & Hq' & Hcase).
  destruct (pw_head_lookup _ HG) as [HlenG HlG].
  destruct (pw_head_lookup _ HG') as [HlenG' HlG'].
  assert (HP : (1 <= length u2)%nat) by (destruct u2; [contradiction|simpl; lia]).
  (* group 1 of the new match ends at most two characters into [G] *)
  assert (H1 : (length G' <= length u2 + 2)%nat).
  { destruct (decide (length G' <= length u2 + 2)%nat) as [|Hgt]; [assumption|].
    exfalso.
    destruct (lookup_lt_is_Some_2 G 0) as [p Hp]; [lia|].
    assert (HXp : (u2 ++ G ++ Z2) !! length u2 = Some p).
    { rewrite lookup_app_r by lia. rewrite Nat.sub_diag.
      apply lookup_app_l_Some. exact Hp. }
    rewrite HX in HXp. rewrite lookup_app_l in HXp by lia.
    destruct (HlG _ _ Hp) as (_ & Hp0 & _).
    destruct (HlG' _ _ HXp) as (_ & _ & Hp1 & Hp8 & Hp9).
    specialize (Hp0 eq_refl).
    destruct (decide (length u2 < 8)%nat) as [Hlt|Hge].
    - destruct (Hp1 ltac:(lia)). lia.
    - destruct (decide (length u2 = 8)%nat) as [He|Hne].
      + specialize (Hp8 He). lia.
      + destruct (Hp9 ltac:(lia)) as [Hs|[Hs|Hs]]; try lia.
        pose proof (space_not_word _ Hs) as Hw.
        assert (word (code p) = true) as Hw'; [|congruence].
        destruct Hp0 as [-> | ->]; reflexivity. }
  (* the first quote of [G] stops the middle of the new match *)
  destruct (lookup_lt_is_Some_2 G 8) as [qG HqG]; [lia|].
  destruct (HlG _ _ HqG) as (_ & _ & _ & HqG34 & _). specialize (HqG34 eq_refl).
  assert (H2 : (length G' + length mid' <= length u2 + 8)%nat).
  { destruct (decide (length G' + length mid' <= length u2 + 8)%nat) as [|Hgt];
      [assumption|]. exfalso.
    assert (HXq : (u2 ++ G ++ Z2) !! (length u2 + 8)%nat = Some qG).
    { rewrite lookup_app_r by lia.
      replace (length u2 + 8 - length u2)%nat with 8%nat by lia.
      apply lookup_app_l_Some. exact HqG. }
    rewrite HX in HXq. rewrite lookup_app_r in HXq by lia.
    rewrite lookup_app_l in HXq by lia.
    unfold codeIs in Hmid'. rewrite Forall_lookup in Hmid'.
    specialize (Hmid' _ _ HXq). rewrite HqG34 in Hmid'. discriminate. }
  (* so the whole new match lies inside [u2 ++ G] *)
  set (A := G' ++ mid' ++ [c'; q']).
  assert (HXA : A ++ rest' = (u2 ++ G) ++ Z2).
  { unfold A. rewrite <- !app_assoc. simpl. rewrite <- HX. reflexivity. }
  destruct (prefix_split _ _ _ _ HXA) as (W & HW & Hrest').
  { unfold A. rewrite !length_app. simpl. lia. }
  assert (HWne : W <> []).
  { intros ->. apply (f_equal length) in HW. unfold A in HW.
    rewrite !length_app in HW. simpl in HW. lia. }
  assert (Hold' : matchHere patternPassword (u2 ++ G ++ Z1)
                  = Some (G', [c'; q'], W ++ Z1)).
  { rewrite app_assoc, HW. unfold A. rewrite <- !app_assoc. simpl.
    apply pw_match_intro; try assumption.
    destruct Hcase as [?|[? Hfree]]; [left; assumption|right].
    split; [assumption|]. revert Hfree. apply quoteFree_head.
    rewrite Hrest'. destruct W; [contradiction|reflexivity]. }
  rewrite Hold' in Hold. discriminate.
Qed.

Lemma stars3_notQuote : codeIs notQuote (ofText "***").
Proof. repeat constructor. Qed.

(** The password pass changes nothing in its own output. *)
Lemma maskPassword_idem : forall x, maskPassword (maskPassword x) = maskPassword x.
Proof.
  apply (length_ind (fun x => maskPassword (maskPassword x) = maskPassword x)).
  intros x IH.
  unfold maskPassword at 2 3. rewrite (ReplaceAll_eq _ _ x consumes_pw).
  destruct (find patternPassword x) as [[u [[G g] rest]]|] eqn:Ef.
  - fold (maskPassword rest).
    pose proof (find_shorter _ _ _ _ _ _ consumes_pw Ef) as Hlt.
    destruct (find_Some _ _ _ _ Ef) as (t & -> & Hm & Hnone).
    destruct (pw_match_inv _ _ _ _ Hm)
      as (mid & c & q & -> & -> & HG & Hmid & Hc & Hq & Hcase).
    set (y := maskPassword rest).
    assert (Hm' : matchHere patternPassword (G ++ ofText "***" ++ c :: q :: y)
                  = Some (G, [c; q], y)).
    { apply pw_match_intro; try assumption; [exact stars3_notQuote|].
      destruct Hcase as [?|[? Hfree]]; [left; assumption|right].
      split; [assumption|].
      apply (ReplaceAll_head_cond patternPassword (ofText "***")
               (fun r => code r <> 34) rest consumes_pw Hfree). }
    assert (Hf' : find patternPassword (u ++ G ++ ofText "***" ++ c :: q :: y)
                  = Some (u, (G, [c; q], y))).
    { apply find_intro; [exact Hm'|]. intros k Hk.
      specialize (Hnone k Hk). rewrite drop_app_le in Hnone |- * by lia.
      apply (pw_decided _ G (mid ++ c :: q :: rest)); [|exact HG|exact Hnone].
      intros E. apply (f_equal length) in E. rewrite length_drop in E. simpl in E. lia. }
    replace (u ++ (G ++ ofText "***" ++ [c; q]) ++ y)
      with (u ++ G ++ ofText "***" ++ c :: q :: y)
      by (rewrite <- !app_assoc; reflexivity).
    unfold maskPassword at 1. rewrite (ReplaceAll_eq _ _ _ consumes_pw), Hf'.
    fold (maskPassword y). unfold y.
    rewrite (IH rest) by lia.
    rewrite <- !app_assoc. reflexivity.
  - unfold maskPassword. rewrite (ReplaceAll_eq _ _ x consumes_pw), Ef. reflexivity.
Qed.

End PasswordPass.

(** ** The authorization pass, and the two passes together *)

Section AuthorizationPass.
Import Mask.

Lemma spanLen_drop_head p s :
  match drop (spanLen p s) s with
  | c :: _ => p (code c) = false
  | [] => True
  end.
Proof.
  induction s as [|c s IH]; simpl; [exact I|].
  destruct (p (code c)) eqn:E; [exact IH|]. simpl. exact E.
Qed.

Lemma spanLen_app_short p a b :
  (spanLen p a < length a)%nat -> spanLen p (a ++ b) = spanLen p a.
Proof.
  induction a as [|c a IH]; simpl; [lia|].
  destruct (p (code c)); [|reflexivity]. intros H. rewrite IH by lia. reflexivity.
Qed.

Lemma spanLen_full p a :
  spanLen p a = length a -> Forall (fun c => p (code c) = true) a.
Proof.
  intros H. rewrite <- (firstn_all a). apply spanLen_take. lia.
Qed.

Lemma spanLen_cases p a :
  (spanLen p a < length a)%nat \/ Forall (fun c => p (code c) = true) a.
Proof.
  pose proof (spanLen_le p a).
  destruct (decide (spanLen p a = length a)) as [E|N];
    [right; apply spanLen_full; exact E|left; lia].
Qed.

Lemma stars5_eq : ofText "*****" = replicate 5 starRune.
Proof. reflexivity. Qed.

(** The shape of a match of the authorization pattern. *)
Lemma auth_match_inv t g1 g2 rest :
  matchHere patternAuthorization t = Some (g1, g2, rest) ->
  exists s',
    t = g1 ++ s' /\ headOf patternAuthorization g1
    /\ (3 <= spanLen notCRLF s')%nat
    /\ g2 = take 3 (drop (spanLen notCRLF s' - 3) s')
    /\ rest = drop (spanLen notCRLF s') s'.
Proof.
  intros Hm.
  destruct (matchHere_inv _ _ _ _ _ separated_auth Hm) as (s' & -> & Hh & Ht).
  rewrite matchTail_auth in Ht. cbv zeta in Ht.
  destruct (Nat.leb_spec 3 (spanLen notCRLF s')) as [Hge|]; [|discriminate].
  injection Ht as <- <-. exists s'. auto.
Qed.

Lemma auth_match_none g1 s' :
  headOf patternAuthorization g1 ->
  matchHere patternAuthorization (g1 ++ s') = None ->
  (spanLen notCRLF s' < 3)%nat.
Proof.
  intros Hh Hm.
  destruct (Nat.leb_spec 3 (spanLen notCRLF s')) as [Hge|Hlt]; [|exact Hlt].
  exfalso.
  rewrite (matchHere_intro _ g1 s' (take 3 (drop (spanLen notCRLF s' - 3) s'))
             (drop (spanLen notCRLF s') s') separated_auth Hh) in Hm; [discriminate|].
  rewrite matchTail_auth. cbv zeta.
  destruct (Nat.leb_spec 3 (spanLen notCRLF s')); [reflexivity|lia].
Qed.

Lemma settled_drop x k : settled x -> settled (drop k x).
Proof. intros H j. rewrite drop_drop. apply H. Qed.

Lemma settled_app a b :
  (forall k, (k < length a)%nat -> authOK (drop k a ++ b)) ->
  settled b -> settled (a ++ b).
Proof.
  intros Ha Hb k. destruct (decide (k < length a)%nat) as [Hlt|Hge].
  - rewrite drop_app_le by lia. apply Ha. exact Hlt.
  - rewrite drop_app_ge by lia. apply Hb.
Qed.

(** If nothing matches, nothing has to be settled. *)
Lemma settled_of_no_match x :
  (forall k, matchHere patternAuthorization (drop k x) = None) -> settled x.
Proof.
  intros Hnone k g1 s' Hh Ht. left.
  apply (auth_match_none g1 s' Hh). rewrite <- Ht. apply Hnone.
Qed.

(** A settled text is a fixed point of the authorization pass. *)
Lemma maskAuthorization_settled : forall x, settled x -> maskAuthorization x = x.
Proof.
  apply (length_ind (fun x => settled x -> maskAuthorization x = x)).
  intros x IH Hx. unfold maskAuthorization.
  rewrite (ReplaceAll_eq _ _ x consumes_auth).
  destruct (find patternAuthorization x) as [[u [[g1 g2] rest]]|] eqn:Ef; [|reflexivity].
  fold (maskAuthorization rest).
  pose proof (find_shorter _ _ _ _ _ _ consumes_auth Ef) as Hlt.
  destruct (find_Some _ _ _ _ Ef) as (t & -> & Hm & _).
  destruct (auth_match_inv _ _ _ _ Hm) as (s' & -> & Hh & Hn & -> & ->).
  pose proof (Hx (length u) g1 s' Hh) as Hok.
  rewrite drop_app_length in Hok. specialize (Hok eq_refl).
  destruct Hok as [Hshort|[H8 H5]]; [lia|].
  rewrite H8 in *.
  rewrite IH.
  - assert (Hs : take 5 s' ++ take 3 (drop 5 s') ++ drop 8 s' = s').
    { change 8%nat with (5 + 3)%nat. rewrite <- drop_drop, !take_drop. reflexivity. }
    rewrite <- !app_assoc. do 2 f_equal.
    rewrite <- H5. change (8 - 3)%nat with 5%nat. exact Hs.
  - exact Hlt.
  - replace (drop 8 s') with (drop (length u + length g1 + 8) (u ++ g1 ++ s')).
    + apply settled_drop. exact Hx.
    + rewrite <- Nat.add_assoc, <- drop_drop, drop_app_length.
      rewrite <- drop_drop, drop_app_length. reflexivity.
Qed.

(** What group 1 of the authorization pattern needs of the first 14
    characters of the text it starts. *)
Lemma auth_head_at g1 s' i :
  headOf patternAuthorization g1 -> (i < 14)%nat ->
  exists r, (g1 ++ s') !! i = Some r
            /\ code r <> 42 /\ code r <> 34 /\ code r <> 13 /\ code r <> 10
            /\ space (code r) = false
            /\ (i = 13%nat -> code r = 58)
            /\ ((i < 13)%nat -> word (code r) = true).
Proof.
  intros Hh Hi. destruct (auth_head_lookup _ Hh) as (Hlen & Hl & _).
  destruct (lookup_lt_is_Some_2 g1 i) as [r Hr]; [lia|].
  exists r. split; [apply lookup_app_l_Some; exact Hr|].
  destruct (auth_head_codes _ _ _ Hh Hr) as (H42 & H34 & H14).
  destruct (H14 Hi) as (H13 & H10 & Hsp).
  destruct (Hl _ _ Hr) as (Hw & Hc & _). tauto.
Qed.

Lemma lookup_drop_app {A} (y r : list A) j i :
  (j + i < length y)%nat -> (drop j y ++ r) !! i = y !! (j + i)%nat.
Proof.
  intros H. rewrite lookup_app_l by (rewrite length_drop; lia).
  apply lookup_drop.
Qed.

Lemma lookup_stars (a b : list rune) n m :
  (m < n)%nat -> (a ++ replicate n starRune ++ b) !! (length a + m)%nat = Some starRune.
Proof.
  intros H. rewrite lookup_app_r by lia.
  replace (length a + m - length a)%nat with m by lia.
  rewrite lookup_app_l by (rewrite length_replicate; lia).
  apply lookup_replicate_2. exact H.
Qed.

(** Inside a masked authorization line no other match can start. *)
Lemma auth_no_head_inside g1 g2 R j :
  headOf patternAuthorization g1 -> length g2 = 3%nat ->
  match R with c :: _ => notCRLF (code c) = false | [] => True end ->
  (1 <= j < length g1 + 8)%nat ->
  authOK (drop j (g1 ++ ofText "*****" ++ g2) ++ R).
Proof.
  intros Hh Hg2 HR Hj g1' s'' Hh' HT. exfalso.
  rewrite stars5_eq in HT.
  set (Y := g1 ++ replicate 5 starRune ++ g2) in *.
  assert (HlenY : length Y = (length g1 + 8)%nat).
  { unfold Y. rewrite !length_app, length_replicate. lia. }
  destruct (auth_head_lookup _ Hh) as (Hlen & Hl & _).
  destruct (decide (j + 13 < length g1)%nat) as [Hin|Hout].
  - (* the colon would fall among the scheme and the token *)
    destruct (auth_head_at g1' s'' 13 Hh' ltac:(lia)) as (r & Hr & _ & _ & _ & _ & _ & H58 & _).
    rewrite <- HT, lookup_drop_app in Hr by lia.
    unfold Y in Hr. rewrite lookup_app_l in Hr by lia.
    destruct (Hl _ _ Hr) as (_ & _ & H14). specialize (H58 eq_refl).
    destruct (H14 ltac:(lia)) as [Hs|Hw].
    + pose proof (space_codes _ Hs). lia.
    + pose proof (word_codes _ Hw). lia.
  - destruct (decide (j < length g1 + 5)%nat) as [Hstar|Hg2'].
    + (* a star among the first 14 characters *)
      set (i := (length g1 - j)%nat).
      destruct (auth_head_at g1' s'' i Hh' ltac:(lia)) as (r & Hr & H42 & _).
      rewrite <- HT, lookup_drop_app in Hr by lia.
      unfold Y in Hr.
      replace (j + i)%nat with (length g1 + (j + i - length g1))%nat in Hr by lia.
      rewrite lookup_stars in Hr by lia. injection Hr as <-. apply H42. reflexivity.
    + (* the line ends among the first 14 characters *)
      set (i := (length Y - j)%nat).
      destruct (auth_head_at g1' s'' i Hh' ltac:(lia)) as (r & Hr & _ & _ & H13 & H10 & _).
      rewrite <- HT in Hr. rewrite lookup_app_r in Hr by (rewrite length_drop; lia).
      rewrite length_drop in Hr. replace (i - (length Y - j))%nat with 0%nat in Hr by lia.
      destruct R as [|c R]; [discriminate|]. injection Hr as ->.
      unfold notCRLF in HR. apply negb_false_iff, orb_true_iff in HR.
      rewrite !Z.eqb_eq in HR. lia.
Qed.

End AuthorizationPass.

Section TwoPasses.
Import Mask.

Lemma take3_notCRLF s' :
  (3 <= spanLen notCRLF s')%nat ->
  let g2 := take 3 (drop (spanLen notCRLF s' - 3) s') in
  length g2 = 3%nat /\ codeIs notCRLF g2.
Proof.
  intros Hn g2. pose proof (spanLen_le notCRLF s') as Hle.
  assert (Hsp : spanLen notCRLF (drop (spanLen notCRLF s' - 3) s') = 3%nat).
  { rewrite spanLen_drop by lia. lia. }
  split.
  - unfold g2. rewrite length_take, length_drop. lia.
  - apply spanLen_take. lia.
Qed.

(** Before a masked line: a position where the pattern did not match
    still has nothing to settle. *)
Lemma auth_before_match u2 g1 s' Z :
  headOf patternAuthorization g1 ->
  (3 <= spanLen notCRLF s')%nat ->
  matchHere patternAuthorization (u2 ++ g1 ++ s') = None ->
  authOK (u2 ++ g1 ++ ofText "*****" ++ Z).
Proof.
  intros Hh Hn Hnone g1' s'' Hh' HT.
  rewrite stars5_eq in HT.
  assert (Hlen : (length g1' <= length (u2 ++ g1))%nat).
  { destruct (decide (length g1' <= length (u2 ++ g1))%nat) as [|Hgt]; [assumption|].
    exfalso.
    assert (Hs : (g1' ++ s'') !! length (u2 ++ g1) = Some starRune).
    { rewrite <- HT, app_assoc.
      rewrite <- (Nat.add_0_r (length (u2 ++ g1))).
      apply (lookup_stars (u2 ++ g1) Z 5 0). lia. }
    rewrite lookup_app_l in Hs by lia.
    destruct (auth_head_codes _ _ _ Hh' Hs) as (H42 & _). apply H42. reflexivity. }
  rewrite app_assoc in HT. symmetry in HT.
  destruct (prefix_split _ _ _ _ HT Hlen) as (W & HW & ->).
  rewrite app_assoc, HW, <- app_assoc in Hnone.
  pose proof (auth_match_none _ _ Hh' Hnone) as Hshort.
  left. destruct (spanLen_cases notCRLF W) as [Hlt|Hall].
  - rewrite spanLen_app_short in Hshort |- * by exact Hlt. exact Hshort.
  - rewrite spanLen_app_all in Hshort by exact Hall. lia.
Qed.

(** The output of the authorization pass is settled. *)
Lemma maskAuthorization_is_settled : forall b, settled (maskAuthorization b).
Proof.
  apply (length_ind (fun b => settled (maskAuthorization b))).
  intros b IH. unfold maskAuthorization.
  rewrite (ReplaceAll_eq _ _ b consumes_auth).
  destruct (find patternAuthorization b) as [[u [[g1 g2] rest]]|] eqn:Ef.
  - fold (maskAuthorization rest).
    pose proof (find_shorter _ _ _ _ _ _ consumes_auth Ef) as Hlt.
    destruct (find_Some _ _ _ _ Ef) as (t & -> & Hm & Hnone).
    destruct (auth_match_inv _ _ _ _ Hm) as (s' & -> & Hh & Hn & -> & ->).
    destruct (take3_notCRLF s' Hn) as [Hg2len Hg2].
    set (g2 := take 3 (drop (spanLen notCRLF s' - 3) s')) in *.
    set (rest := drop (spanLen notCRLF s') s') in *.
    assert (HR : match maskAuthorization rest with
                 | c :: _ => notCRLF (code c) = false
                 | [] => True
                 end).
    { apply (ReplaceAll_head_cond patternAuthorization (ofText "*****")
               (fun c => notCRLF (code c) = false) rest consumes_auth).
      apply spanLen_drop_head. }
    apply settled_app; [|apply settled_app; [|apply IH; exact Hlt]].
    + intros k Hk. specialize (Hnone k Hk). rewrite drop_app_le in Hnone by lia.
      rewrite <- !app_assoc.
      apply (auth_before_match (drop k u) g1 s' _ Hh Hn Hnone).
    + intros j Hj. destruct j as [|j].
      * (* the masked line itself *)
        intros g1' s'' Hh' HT.
        rewrite drop_0, <- !app_assoc in HT.
        destruct (headOf_unique _ _ _ _ _ separated_auth Hh Hh' HT) as [<- <-].
        right.
        assert (Hsp : spanLen notCRLF (ofText "*****" ++ g2 ++ maskAuthorization rest)
                      = 8%nat).
        { rewrite app_assoc. rewrite spanLen_exact.
          - rewrite length_app, Hg2len. reflexivity.
          - apply Forall_app. split; [repeat constructor|exact Hg2].
          - exact HR. }
        split; [exact Hsp|reflexivity].
      * apply auth_no_head_inside; [exact Hh|exact Hg2len|exact HR|].
        rewrite !length_app, Hg2len in Hj. simpl in Hj. lia.
  - apply settled_of_no_match. apply find_None. exact Ef.
Qed.

(** A match of the password pattern, once masked, does not start an
    authorization match. *)
Lemma pw_no_auth_inside G c q R j :
  headOf patternPassword G -> code q = 34 ->
  (j < length G + 5)%nat ->
  authOK (drop j (G ++ ofText "***" ++ [c; q]) ++ R).
Proof.
  intros HG Hq Hj g1' s'' Hh' HT. exfalso.
  change (ofText "***") with (replicate 3 starRune) in HT.
  set (Y := G ++ replicate 3 starRune ++ [c; q]) in *.
  assert (HlenY : length Y = (length G + 5)%nat).
  { unfold Y. rewrite !length_app, length_replicate. simpl. lia. }
  destruct (pw_head_lookup _ HG) as [HlenG HlG].
  assert (Hat : forall i, (i < 14)%nat -> (j + i < length Y)%nat ->
            exists r, Y !! (j + i)%nat = Some r
                      /\ code r <> 42 /\ code r <> 34
                      /\ space (code r) = false
                      /\ ((i < 13)%nat -> word (code r) = true)).
  { intros i Hi Hji.
    destruct (auth_head_at g1' s'' i Hh' Hi) as (r & Hr & H42 & H34 & _ & _ & Hsp & _ & Hw).
    rewrite <- HT, lookup_drop_app in Hr by lia. eauto 10. }
  destruct (decide (j <= 8)%nat) as [H8|H8].
  - (* the first quote of the match *)
    destruct (Hat (8 - j)%nat ltac:(lia) ltac:(lia)) as (r & Hr & _ & H34 & _).
    replace (j + (8 - j))%nat with 8%nat in Hr by lia.
    unfold Y in Hr. rewrite lookup_app_l in Hr by lia.
    destruct (HlG _ _ Hr) as (_ & _ & _ & Hq8 & _). apply H34, Hq8. reflexivity.
  - destruct (decide (j < length G - 2)%nat) as [Hmid|Hend].
    + (* white space, the colon or the second quote *)
      destruct (Hat 0%nat ltac:(lia) ltac:(lia)) as (r & Hr & _ & H34 & Hsp & Hw).
      rewrite Nat.add_0_r in Hr. unfold Y in Hr. rewrite lookup_app_l in Hr by lia.
      destruct (HlG _ _ Hr) as (_ & _ & _ & _ & Hm).
      destruct (Hm ltac:(lia)) as [Hs|[H58|H34']]; [congruence| |contradiction].
      pose proof (word_codes _ (Hw ltac:(lia))). lia.
    + destruct (decide (j < length G + 3)%nat) as [Hstar|Hg].
      * (* a star among the first characters *)
        destruct (Hat (length G - j)%nat ltac:(lia) ltac:(lia)) as (r & Hr & H42 & _).
        unfold Y in Hr.
        replace (j + (length G - j))%nat
          with (length G + (j + (length G - j) - length G))%nat in Hr by lia.
        rewrite lookup_stars in Hr by lia. injection Hr as <-. apply H42. reflexivity.
      * (* the closing quote *)
        destruct (Hat (length G + 4 - j)%nat ltac:(lia) ltac:(lia)) as (r & Hr & _ & H34 & _).
        replace (j + (length G + 4 - j))%nat with (length G + 4)%nat in Hr by lia.
        unfold Y in Hr. rewrite lookup_app_r in Hr by lia.
        rewrite lookup_app_r in Hr by (rewrite length_replicate; lia).
        rewrite length_replicate in Hr.
        replace (length G + 4 - length G - 3)%nat with 1%nat in Hr by lia.
        injection Hr as <-. contradiction.
Qed.

(** Before a match of the password pattern: what is settled stays so when
    the text after group 1 of the match changes. *)
Lemma auth_before_pw v2 G Z1 Z2 :
  headOf patternPassword G ->
  authOK (v2 ++ G ++ Z1) -> authOK (v2 ++ G ++ Z2).
Proof.
  intros HG Hold g1' s'' Hh' HT.
  destruct (pw_head_lookup _ HG) as [HlenG HlG].
  destruct (auth_head_lookup _ Hh') as (Hlen' & Hl' & (rs & Hrs & Hsp)).
  (* group 1 of the authorization pattern ends at most three characters
     into the password match *)
  assert (H1 : (length g1' <= length v2 + 3)%nat).
  { destruct (decide (length g1' <= length v2 + 3)%nat) as [|Hgt]; [assumption|].
    exfalso.
    assert (H8 : (length g1' <= length v2 + 8)%nat).
    { destruct (decide (length g1' <= length v2 + 8)%nat) as [|Hgt8]; [assumption|].
      exfalso.
      destruct (lookup_lt_is_Some_2 G 8) as [qG HqG]; [lia|].
      assert (HX : (g1' ++ s'') !! (length v2 + 8)%nat = Some qG).
      { rewrite <- HT. rewrite lookup_app_r by lia.
        replace (length v2 + 8 - length v2)%nat with 8%nat by lia.
        apply lookup_app_l_Some. exact HqG. }
      rewrite lookup_app_l in HX by lia.
      destruct (auth_head_codes _ _ _ Hh' HX) as (_ & H34 & _).
      destruct (HlG _ _ HqG) as (_ & _ & _ & Hq8 & _). apply H34, Hq8. reflexivity. }
    assert (HX : (v2 ++ G ++ Z2) !! (length g1' - 4)%nat = Some rs).
    { rewrite HT. apply lookup_app_l_Some. exact Hrs. }
    rewrite lookup_app_r in HX by lia. rewrite lookup_app_l in HX by lia.
    destruct (HlG _ _ HX) as (Hw & _). specialize (Hw ltac:(lia)).
    pose proof (word_not_space _ Hw). congruence. }
  rewrite app_assoc in HT. symmetry in HT.
  destruct (prefix_split _ _ _ _ HT) as (W & HW & ->).
  { rewrite length_app. lia. }
  assert (HlenW : (10 <= length W)%nat).
  { apply (f_equal length) in HW. rewrite !length_app in HW. lia. }
  specialize (Hold g1' (W ++ Z1) Hh').
  rewrite app_assoc, HW, <- app_assoc in Hold. specialize (Hold eq_refl).
  destruct (spanLen_cases notCRLF W) as [Hlt|Hall].
  - rewrite spanLen_app_short in Hold |- * by exact Hlt.
    rewrite !take_app_le in Hold |- * by lia. exact Hold.
  - rewrite spanLen_app_all in Hold by exact Hall. lia.
Qed.

(** The password pass keeps a settled text settled. *)
Lemma maskPassword_settled : forall z, settled z -> settled (maskPassword z).
Proof.
  apply (length_ind (fun z => settled z -> settled (maskPassword z))).
  intros z IH Hz. unfold maskPassword.
  rewrite (ReplaceAll_eq _ _ z consumes_pw).
  destruct (find patternPassword z) as [[v [[G g] rest]]|] eqn:Ef; [|exact Hz].
  fold (maskPassword rest).
  pose proof (find_shorter _ _ _ _ _ _ consumes_pw Ef) as Hlt.
  destruct (find_Some _ _ _ _ Ef) as (t & -> & Hm & _).
  destruct (pw_match_inv _ _ _ _ Hm)
    as (mid & c & q & -> & -> & HG & Hmid & Hc & Hq & Hcase).
  assert (Hrest : settled rest).
  { replace rest
      with (drop (length (v ++ G ++ mid ++ [c; q])) ((v ++ G ++ mid ++ [c; q]) ++ rest))
      by apply drop_app_length.
    apply settled_drop. rewrite <- !app_assoc. exact Hz. }
  apply settled_app; [|apply settled_app; [|apply IH; assumption]].
  - intros k Hk. rewrite <- !app_assoc.
    apply (auth_before_pw (drop k v) G (mid ++ c :: q :: rest)); [exact HG|].
    specialize (Hz k). rewrite drop_app_le in Hz by lia. exact Hz.
  - intros j Hj. apply pw_no_auth_inside; [exact HG|exact Hq|].
    rewrite !length_app in Hj. simpl in Hj. lia.
Qed.

(** Masking the runes of a buffer twice is masking them once. *)
Lemma maskRunes_idem s : maskRunes (maskRunes s) = maskRunes s.
Proof.
  change (maskPassword (maskAuthorization (maskPassword (maskAuthorization s)))
          = maskPassword (maskAuthorization s)).
  rewrite (maskAuthorization_settled (maskPassword (maskAuthorization s))).
  - apply maskPassword_idem.
  - apply maskPassword_settled, maskAuthorization_is_settled.
Qed.

End TwoPasses.

(** ** Bytes and runes *)

Section Utf8.
Import Mask Level.

Lemma first_range p0 sz lo hi :
  first p0 = Some (sz, lo, hi) -> (2 <= sz <= 4)%nat /\ 128 <= lo.
Proof.
  unfold first.
  repeat match goal with
         | |- context [if ?b then _ else _] => destruct b
         end; intros [= <- <- <-] || discriminate; lia.
Qed.

Lemma ascii_out_of_range a lo hi :
  byte_of a < 128 -> 128 <= lo -> (byte_of a <? lo) || (hi <? byte_of a) = true.
Proof.
  intros Ha Hlo. apply orb_true_iff. left. apply Z.ltb_lt. lia.
Qed.

Lemma ascii_not_cont a : byte_of a < 128 -> contByte (byte_of a) = false.
Proof.
  intros Ha. unfold contByte. apply andb_false_iff. left. apply Z.leb_gt. lia.
Qed.

Ltac break_decode :=
  repeat match goal with
         | H : context [match first ?p with _ => _ end] |- _ =>
             let E := fresh "Efirst" in
             destruct (first p) as [[[? ?] ?]|] eqn:E
         | |- context [match first ?p with _ => _ end] =>
             let E := fresh "Efirst" in
             destruct (first p) as [[[? ?] ?]|] eqn:E
         | H : context [if ?b then _ else _] |- _ => destruct b eqn:?
         | |- context [if ?b then _ else _] => destruct b eqn:?
         | H : context [match ?l with [] => _ | _ :: _ => _ end] |- _ => destruct l eqn:?
         | |- context [match ?l with [] => _ | _ :: _ => _ end] => destruct l eqn:?
         end.

Ltac bad_size :=
  let H := fresh "Hsize" in
  intros H; apply (f_equal snd) in H; simpl in H; lia.

(** A step reads at least one byte, and no more than there are. *)
Lemma DecodeRune_size p r n :
  p <> [] -> DecodeRune p = (r, n) -> (1 <= n <= length p)%nat.
Proof.
  intros Hp. unfold DecodeRune. destruct p as [|c0 p1]; [contradiction|].
  break_decode; intros [= <- <-]; subst; simpl; lia.
Qed.

(** Width 1 on a byte that is not ASCII is the error rune. *)
Lemma DecodeRune_width1 c0 q x :
  128 <= byte_of c0 -> DecodeRune (c0 :: q) = (x, 1%nat) -> x = RuneError.
Proof.
  intros H0. unfold DecodeRune. cbv beta iota zeta.
  destruct (Z.ltb_spec (byte_of c0) 128); [lia|].
  break_decode; intros Heq; first [discriminate Heq|injection Heq as <-; reflexivity].
Qed.

(** A rune of two bytes or more is read from its own bytes only. *)
Lemma DecodeRune_multi w X Y x :
  (2 <= length w)%nat ->
  DecodeRune (w ++ X) = (x, length w) -> DecodeRune (w ++ Y) = (x, length w).
Proof.
  intros Hw. destruct w as [|c0 [|c1 w2]]; simpl in Hw; try lia.
  unfold DecodeRune. simpl app. cbv beta iota zeta.
  destruct (byte_of c0 <? 128); [bad_size|].
  destruct (first (byte_of c0)) as [[[sz lo] hi]|] eqn:Ef;
    [|bad_size].
  destruct (first_range _ _ _ _ Ef) as [Hsz Hlo].
  destruct (length (c0 :: c1 :: w2 ++ X) <? sz)%nat eqn:EX;
    [bad_size|].
  destruct ((byte_of c1 <? lo) || (hi <? byte_of c1)) eqn:E1;
    [bad_size|].
  destruct (sz <=? 2)%nat eqn:E2.
  - intros [= <- E]. simpl in E. destruct w2; [|simpl in E; lia].
    apply Nat.leb_le in E2.
    destruct (Nat.ltb_spec (length (c0 :: c1 :: [] ++ Y)) sz); [simpl in *; lia|].
    reflexivity.
  - destruct w2 as [|c2 w3].
    + simpl app; cbv beta iota. destruct X as [|c2 X'];
        [bad_size|].
      break_decode; bad_size.
    + simpl app; cbv beta iota.
      destruct (negb (contByte (byte_of c2))) eqn:Ec2;
        [bad_size|].
      destruct (sz <=? 3)%nat eqn:E3.
      * intros [= <- E]. simpl in E. destruct w3; [|simpl in E; lia].
        apply Nat.leb_le in E3.
        destruct (Nat.ltb_spec (length (c0 :: c1 :: c2 :: [] ++ Y)) sz);
          [simpl in *; lia|].
        reflexivity.
      * destruct w3 as [|c3 w4].
        -- simpl app; cbv beta iota. destruct X as [|c3 X'];
             [bad_size|].
           break_decode; bad_size.
        -- simpl app; cbv beta iota.
           destruct (negb (contByte (byte_of c3))) eqn:Ec3;
             [bad_size|].
           intros [= <- E]. simpl in E. destruct w4; [|simpl in E; lia].
           destruct (Nat.ltb_spec (length (c0 :: c1 :: c2 :: c3 :: [] ++ Y)) sz);
             [simpl in *; lia|].
           reflexivity.
Qed.

(** A byte read as a rune of width 1 is read so again when, after some of
    the bytes that followed it, an ASCII byte comes. *)
Lemma DecodeRune_single c0 E1 E2 a r x :
  byte_of a < 128 ->
  DecodeRune (c0 :: E1 ++ E2) = (x, 1%nat) ->
  DecodeRune (c0 :: E1 ++ a :: r) = (x, 1%nat).
Proof.
  intros Ha Hold.
  destruct (Z.ltb_spec (byte_of c0) 128) as [H0|H0].
  { revert Hold. unfold DecodeRune. cbv beta iota zeta. destruct (Z.ltb_spec (byte_of c0) 128); [auto|lia]. }
  pose proof (DecodeRune_width1 _ _ _ H0 Hold) as ->.
  revert Hold. unfold DecodeRune. cbv beta iota zeta.
  destruct (Z.ltb_spec (byte_of c0) 128); [lia|].
  destruct (first (byte_of c0)) as [[[sz lo] hi]|] eqn:Ef; [|reflexivity].
  destruct (first_range _ _ _ _ Ef) as [Hsz Hlo].
  pose proof (ascii_out_of_range a lo hi Ha Hlo) as Hout.
  pose proof (ascii_not_cont a Ha) as Hnc.
  destruct E1 as [|e1 [|e2 [|e3 E1']]]; simpl app; cbv beta iota.
  - intros _. rewrite Hout. destruct (_ <? _)%nat; reflexivity.
  - destruct ((byte_of e1 <? lo) || (hi <? byte_of e1)) eqn:Ee1.
    + intros _. destruct (_ <? _)%nat; reflexivity.
    + destruct (sz <=? 2)%nat eqn:E2s.
      * apply Nat.leb_le in E2s.
        destruct (Nat.ltb_spec (length (c0 :: e1 :: E2)) sz); [simpl in *; lia|].
        discriminate.
      * intros _. rewrite Hnc. simpl. destruct (_ <? _)%nat; reflexivity.
  - destruct ((byte_of e1 <? lo) || (hi <? byte_of e1)) eqn:Ee1.
    + intros _. destruct (_ <? _)%nat; reflexivity.
    + destruct (sz <=? 2)%nat eqn:E2s.
      * apply Nat.leb_le in E2s.
        destruct (Nat.ltb_spec (length (c0 :: e1 :: e2 :: E2)) sz); [simpl in *; lia|].
        discriminate.
      * destruct (negb (contByte (byte_of e2))) eqn:Ee2.
        -- intros _. destruct (_ <? _)%nat; reflexivity.
        -- destruct (sz <=? 3)%nat eqn:E3s.
           ++ apply Nat.leb_le in E3s.
              destruct (Nat.ltb_spec (length (c0 :: e1 :: e2 :: E2)) sz);
                [simpl in *; lia|].
              discriminate.
           ++ intros _. rewrite Hnc. simpl. destruct (_ <? _)%nat; reflexivity.
  - destruct (Nat.ltb_spec (length (c0 :: e1 :: e2 :: e3 :: E1' ++ E2)) sz);
      [simpl in *; lia|].
    destruct (Nat.ltb_spec (length (c0 :: e1 :: e2 :: e3 :: E1' ++ a :: r)) sz);
      [simpl in *; lia|].
    auto.
Qed.

Lemma DecodeRune_stable w E1 E2 a r x :
  w <> [] -> byte_of a < 128 ->
  DecodeRune (w ++ E1 ++ E2) = (x, length w) ->
  DecodeRune (w ++ E1 ++ a :: r) = (x, length w).
Proof.
  intros Hw Ha Hold. destruct w as [|c0 [|c1 w2]]; [contradiction| |].
  - simpl in *. apply (DecodeRune_single c0 E1 E2); assumption.
  - apply (DecodeRune_multi _ (E1 ++ E2)); [simpl; lia|exact Hold].
Qed.

(** The code of a rune is never negative. *)
Lemma DecodeRune_nonneg p : 0 <= fst (DecodeRune p).
Proof.
  assert (Hl : forall a b, 0 <= a -> 0 <= b -> 0 <= Z.lor a b)
    by (intros; apply Z.lor_nonneg; auto).
  assert (Hland : forall c n, 0 <= n -> 0 <= Z.land (byte_of c) n).
  { intros c n Hn. apply Z.land_nonneg. right. exact Hn. }
  assert (Hsh : forall a n, 0 <= a -> 0 <= Z.shiftl a n).
  { intros a n Ha. apply Z.shiftl_nonneg. exact Ha. }
  unfold DecodeRune. destruct p as [|c0 p1]; [simpl; unfold RuneError; lia|].
  cbv zeta. pose proof (byte_of_range c0).
  break_decode; simpl fst; unfold RuneError; try lia;
    repeat first [apply Hl | apply Hsh | apply Hland]; lia.
Qed.

End Utf8.

Section Wellcut.
Import Mask Level.

Lemma decodeLoop_fuel : forall f1 f2 p,
  (length p <= f1)%nat -> (length p <= f2)%nat ->
  decodeLoop f1 p = decodeLoop f2 p.
Proof.
  induction f1 as [|f1 IH]; intros f2 p H1 H2.
  - destruct p; [|simpl in H1; lia]. destruct f2; reflexivity.
  - destruct p as [|c p]; [destruct f2; reflexivity|].
    destruct f2 as [|f2]; [simpl in H2; lia|].
    cbn [decodeLoop]. destruct (DecodeRune (c :: p)) as [r n] eqn:E.
    pose proof (DecodeRune_size (c :: p) r n ltac:(discriminate) E) as Hn.
    f_equal. apply IH; rewrite length_drop; simpl in *; lia.
Qed.

(** The equation of [decode]. *)
Lemma decode_cons c p :
  decode (c :: p)
  = mkRune (fst (DecodeRune (c :: p))) (take (snd (DecodeRune (c :: p))) (c :: p))
    :: decode (drop (snd (DecodeRune (c :: p))) (c :: p)).
Proof.
  unfold decode. change (length (c :: p)) with (S (length p)). cbn [decodeLoop].
  destruct (DecodeRune (c :: p)) as [r n] eqn:E. simpl fst. simpl snd.
  pose proof (DecodeRune_size (c :: p) r n ltac:(discriminate) E) as Hn.
  f_equal. apply decodeLoop_fuel; rewrite ?length_drop; simpl in *; lia.
Qed.

Lemma decode_nil : decode [] = [].
Proof. reflexivity. Qed.

(** The runes keep all the bytes, in order. *)
Lemma encode_decode : forall p, encode (decode p) = p.
Proof.
  apply (length_ind (fun p => encode (decode p) = p)).
  intros [|c p] IH; [reflexivity|].
  rewrite decode_cons.
  destruct (DecodeRune (c :: p)) as [r n] eqn:E. simpl fst. simpl snd.
  pose proof (DecodeRune_size (c :: p) r n ltac:(discriminate) E) as Hn.
  unfold encode. rewrite fmap_cons. simpl concat. fold (encode (decode (drop n (c :: p)))).
  rewrite IH by (rewrite length_drop; simpl in *; lia).
  apply take_drop.
Qed.

Lemma wellcut_decode p : wellcut (decode p).
Proof. unfold wellcut. rewrite encode_decode. reflexivity. Qed.

Lemma encode_app a b : encode (a ++ b) = encode a ++ encode b.
Proof. unfold encode. rewrite fmap_app, concat_app. reflexivity. Qed.

Lemma encode_cons t ts : encode (t :: ts) = raw t ++ encode ts.
Proof. reflexivity. Qed.

(** What [wellcut] says of the first rune. *)
Lemma wellcut_cons_inv t ts :
  wellcut (t :: ts) ->
  raw t <> [] /\ DecodeRune (raw t ++ encode ts) = (code t, length (raw t))
  /\ wellcut ts.
Proof.
  unfold wellcut. rewrite encode_cons.
  destruct (raw t ++ encode ts) as [|c p] eqn:Ep; [discriminate|].
  rewrite decode_cons.
  destruct (DecodeRune (c :: p)) as [r n] eqn:E. simpl fst. simpl snd.
  pose proof (DecodeRune_size (c :: p) r n ltac:(discriminate) E) as Hn.
  intros Heq. injection Heq as Ht Hts. subst t. cbn [raw code] in *.
  assert (Hlen : length (take n (c :: p)) = n) by (rewrite length_take; lia).
  split; [intros E0; rewrite E0 in Hlen; simpl in Hlen; lia|].
  split; [rewrite ?Ep, Hlen; reflexivity || exact E|].
  assert (Hdrop : drop n (c :: p) = encode ts).
  { rewrite <- Ep. rewrite <- Hlen at 1. apply drop_app_length. }
  unfold wellcut. rewrite <- Hdrop. exact Hts.
Qed.

Lemma wellcut_app_inv ts1 ts2 : wellcut (ts1 ++ ts2) -> wellcut ts2.
Proof.
  induction ts1 as [|t ts1 IH]; [auto|].
  intros H. apply IH. apply (wellcut_cons_inv t (ts1 ++ ts2)). exact H.
Qed.

(** Runes that were cut from one buffer are cut the same way when an
    ASCII byte follows them. *)
Lemma decode_app_ascii ts1 : forall ts2 a r,
  wellcut (ts1 ++ ts2) -> byte_of a < 128 ->
  decode (encode ts1 ++ a :: r) = ts1 ++ decode (a :: r).
Proof.
  induction ts1 as [|t ts1 IH]; intros ts2 a r Hw Ha; [reflexivity|].
  destruct (wellcut_cons_inv _ _ Hw) as (Hne & Hdec & Hw').
  rewrite encode_app in Hdec.
  pose proof (DecodeRune_stable _ _ _ a r _ Hne Ha Hdec) as Hnew.
  simpl app. rewrite encode_cons, <- app_assoc.
  destruct (raw t ++ encode ts1 ++ a :: r) as [|c p] eqn:Ep.
  { destruct (raw t); [contradiction|discriminate]. }
  rewrite decode_cons, Hnew. simpl fst. simpl snd.
  rewrite <- Ep, take_app_length, drop_app_length.
  rewrite (IH ts2 a r Hw' Ha). destruct t; reflexivity.
Qed.

Lemma decode_ascii_cons a p :
  byte_of a < 128 -> decode (a :: p) = mkRune (byte_of a) [a] :: decode p.
Proof.
  intros Ha. rewrite decode_cons.
  assert (E : DecodeRune (a :: p) = (byte_of a, 1%nat)).
  { unfold DecodeRune. cbv zeta. destruct (Z.ltb_spec (byte_of a) 128); [reflexivity|lia]. }
  rewrite E. reflexivity.
Qed.

Lemma decode_asciiRunes m p :
  Forall (fun a => byte_of a < 128) m ->
  decode (m ++ p) = asciiRunes m ++ decode p.
Proof.
  induction 1 as [|a m Ha _ IH]; [reflexivity|].
  simpl app. rewrite decode_ascii_cons by exact Ha. rewrite IH. reflexivity.
Qed.

Lemma encode_asciiRunes m : encode (asciiRunes m) = m.
Proof.
  induction m as [|a m IH]; [reflexivity|].
  unfold asciiRunes. rewrite fmap_cons, encode_cons. simpl.
  f_equal. exact IH.
Qed.

(** A match cuts its input into: group 1, a middle, group 2, the rest. *)
Lemma matchHere_split re t g1 g2 rest :
  matchHere re t = Some (g1, g2, rest) ->
  exists mid, t = g1 ++ mid ++ g2 ++ rest.
Proof.
  unfold matchHere.
  destruct (matchItems _ t) as [[chunks rst]|] eqn:E; [|discriminate].
  intros [= <- <- <-]. destruct (matchItems_sound _ _ _ _ E) as [-> _].
  set (n1 := length (group1 re)). set (n2 := length (middle re)).
  exists (concat (take n2 (drop n1 chunks))).
  rewrite !app_assoc. f_equal. rewrite <- !concat_app. f_equal.
  rewrite <- drop_drop, <- app_assoc, take_drop, take_drop. reflexivity.
Qed.

(** [ReplaceAll] with an ASCII mask keeps a text well cut. *)
Lemma wellcut_ReplaceAll re m :
  consumes re -> m <> [] -> Forall (fun a => byte_of a < 128) m ->
  forall ts pre,
    wellcut (pre ++ ts) -> wellcut (pre ++ ReplaceAll re (asciiRunes m) ts).
Proof.
  intros Hc Hm Hascii.
  apply (length_ind (fun ts => forall pre, wellcut (pre ++ ts) ->
                                 wellcut (pre ++ ReplaceAll re (asciiRunes m) ts))).
  intros ts IH pre Hw. rewrite (ReplaceAll_eq _ _ ts Hc).
  destruct (find re ts) as [[u [[g1 g2] rest]]|] eqn:Ef; [|exact Hw].
  pose proof (find_shorter _ _ _ _ _ _ Hc Ef) as Hlt.
  destruct (find_Some _ _ _ _ Ef) as (t & -> & Hmatch & _).
  destruct (matchHere_split _ _ _ _ _ Hmatch) as (mid & ->).
  destruct m as [|a m']; [contradiction|].
  inversion Hascii as [|? ? Ha Hm']; subst.
  assert (Htail : wellcut (g2 ++ ReplaceAll re (asciiRunes (a :: m')) rest)).
  { apply IH; [exact Hlt|].
    apply (wellcut_app_inv (pre ++ u ++ g1 ++ mid)).
    rewrite <- !app_assoc. exact Hw. }
  unfold wellcut.
  replace (pre ++ u ++ (g1 ++ asciiRunes (a :: m') ++ g2)
           ++ ReplaceAll re (asciiRunes (a :: m')) rest)
    with ((pre ++ u ++ g1) ++ asciiRunes (a :: m')
          ++ g2 ++ ReplaceAll re (asciiRunes (a :: m')) rest)
    by (rewrite <- !app_assoc; reflexivity).
  rewrite (encode_app (pre ++ u ++ g1)), (encode_app (asciiRunes (a :: m'))),
    encode_asciiRunes.
  rewrite <- (app_comm_cons m' _ a).
  rewrite (decode_app_ascii (pre ++ u ++ g1) (mid ++ g2 ++ rest)).
  - f_equal. rewrite app_comm_cons.
    rewrite decode_asciiRunes by exact Hascii.
    unfold wellcut in Htail. rewrite Htail. reflexivity.
  - rewrite <- !app_assoc. exact Hw.
  - exact Ha.
Qed.

Lemma wellcut_maskRunes ts : wellcut ts -> wellcut (maskRunes ts).
Proof.
  intros Hw. unfold maskRunes.
  apply (wellcut_ReplaceAll patternPassword (bytes "***") consumes_pw
           ltac:(discriminate) ltac:(repeat constructor) _ []).
  apply (wellcut_ReplaceAll patternAuthorization (bytes "*****") consumes_auth
           ltac:(discriminate) ltac:(repeat constructor) _ []).
  exact Hw.
Qed.

(** C3. [SecretMask] is idempotent on every byte buffer: masking the
    masked buffer gives the masked buffer.  A buffer in which neither the
    authorization pattern nor the password pattern matches comes back
    unchanged. *)
Theorem SecretMask_idempotent :
  (forall b, SecretMask (SecretMask b) = SecretMask b)
  /\ (forall b,
         find patternAuthorization (decode b) = None ->
         find patternPassword (decode b) = None ->
         SecretMask b = b).
Proof.
  split.
  - intros b. unfold SecretMask.
    rewrite (wellcut_maskRunes (decode b) (wellcut_decode b)).
    rewrite maskRunes_idem. reflexivity.
  - intros b Ha Hp. unfold SecretMask, maskRunes.
    rewrite (ReplaceAll_eq _ _ (decode b) consumes_auth), Ha.
    rewrite (ReplaceAll_eq _ _ (decode b) consumes_pw), Hp.
    apply encode_decode.
Qed.

End Wellcut.

Lemma SecretMask_idempotent_witness :
  Mask.SecretMask (Mask.bytes "level=info msg=started")
  = Mask.bytes "level=info msg=started".
Proof.
  apply (proj2 SecretMask_idempotent); reflexivity.
Defined.

(** ** Lower-casing beyond ASCII *)


Section LowerCasing.
Import Level Mask Strings.

Lemma byte_of_byte x : byte_of (byte x) = x mod 256.
Proof.
  unfold byte. apply byte_of_ascii_of. apply Z.mod_pos_bound. lia.
Qed.

Lemma byte_byte_of a : byte (byte_of a) = a.
Proof.
  apply byte_of_inj. rewrite byte_of_byte.
  apply Z.mod_small. apply byte_of_range.
Qed.

Lemma high_bit v : Z.testbit v 7 = true -> 128 <= v mod 256.
Proof.
  intros H.
  assert (Hw : 0 <= v mod 256 < 256) by (apply Z.mod_pos_bound; lia).
  assert (Hb : Z.testbit (v mod 2 ^ 8) 7 = true)
    by (rewrite Z.mod_pow2_bits_low by lia; exact H).
  change (2 ^ 8) with 256 in Hb.
  apply Z.testbit_true in Hb; [|lia]. change (2 ^ 7) with 128 in Hb.
  destruct (Z.lt_ge_cases (v mod 256) 128) as [Hlt|Hge]; [|exact Hge].
  rewrite Z.div_small in Hb by lia. discriminate.
Qed.

Lemma high_byte K y : Z.testbit K 7 = true -> 128 <= byte_of (byte (Z.lor K y)).
Proof.
  intros HK. rewrite byte_of_byte. apply high_bit.
  rewrite Z.lor_spec, HK. reflexivity.
Qed.

Lemma EncodeRune_ascii x : 0 <= x <= 127 -> EncodeRune x = [byte x].
Proof.
  intros H. unfold EncodeRune.
  destruct (Z.leb_spec 0 x); [|lia]. destruct (Z.leb_spec x 127); [|lia].
  reflexivity.
Qed.

Lemma EncodeRune_high x :
  ~ 0 <= x <= 127 ->
  exists b bs, EncodeRune x = b :: bs /\ 128 <= byte_of b.
Proof.
  intros H. unfold EncodeRune.
  destruct ((0 <=? x) && (x <=? 127)) eqn:E1.
  { apply andb_true_iff in E1 as [A B].
    apply Z.leb_le in A. apply Z.leb_le in B. lia. }
  destruct ((0 <=? x) && (x <=? 2047)).
  { eexists _, _. split; [reflexivity|]. apply high_byte. reflexivity. }
  cbv zeta.
  match goal with |- context [if ?c <=? 65535 then _ else _] =>
    destruct (c <=? 65535) end;
    (eexists _, _; split; [reflexivity|]; apply high_byte; reflexivity).
Qed.

Lemma decodeLoop_nonneg : forall fuel p,
  Forall (fun r => 0 <= code r) (decodeLoop fuel p).
Proof.
  induction fuel as [|fuel IH]; intros p; [constructor|].
  destruct p as [|c p]; [constructor|].
  cbn [decodeLoop]. pose proof (DecodeRune_nonneg (c :: p)) as H.
  destruct (DecodeRune (c :: p)) as [r n]. simpl in H.
  constructor; [exact H|apply IH].
Qed.

Lemma decode_nonneg p : Forall (fun r => 0 <= code r) (decode p).
Proof. apply decodeLoop_nonneg. Qed.

Section Table.
Variable table : Z -> Z.
Hypothesis Htable : intoASCIIOnly table.

Lemma unicodeToLower_nonneg c : 0 <= c -> 0 <= unicodeToLower table c.
Proof.
  destruct Htable as (H0 & _). intros Hc. unfold unicodeToLower.
  destruct (Z.leb_spec c 127).
  - destruct ((65 <=? c) && (c <=? 90)); lia.
  - apply H0. lia.
Qed.

(** A rune is written as the single byte of a lower-case letter exactly
    when it is that letter up to lower-casing. *)
Lemma mapped_letter c a :
  0 <= code c -> 97 <= byte_of a <= 122 ->
  (mapped (unicodeToLower table) c = [a] <-> lowersTo a (code c)).
Proof.
  intros Hc Ha. destruct Htable as (H0 & H304 & H8490 & Hinto).
  pose proof (unicodeToLower_nonneg _ Hc) as Hf.
  unfold mapped. cbv zeta.
  destruct (Z.leb_spec 0 (unicodeToLower table (code c))) as [_|]; [|lia].
  assert (Hiff : unicodeToLower table (code c) = byte_of a <-> lowersTo a (code c)).
  { unfold unicodeToLower, lowersTo.
    destruct (Z.leb_spec (code c) 127) as [Hlo|Hhi].
    - destruct (Z.leb_spec 65 (code c)); destruct (Z.leb_spec (code c) 90);
        cbn [andb]; lia.
    - split.
      + intros E. destruct (Hinto (code c)) as [E'|E']; [lia|lia| |];
          rewrite E' in *; lia.
      + intros [E|[E|[[E1 E2]|[E1 E2]]]]; try lia; rewrite E2; lia. }
  rewrite <- Hiff. split.
  - intros E.
    destruct (Z.le_gt_cases (unicodeToLower table (code c)) 127) as [Hle|Hgt].
    + rewrite EncodeRune_ascii in E by lia. injection E as E.
      apply (f_equal byte_of) in E. rewrite byte_of_byte in E.
      rewrite Z.mod_small in E by lia. exact E.
    + destruct (EncodeRune_high (unicodeToLower table (code c)))
        as (b & bs & Eb & Hb); [lia|].
      rewrite Eb in E. injection E as -> _. lia.
  - intros E. rewrite E, EncodeRune_ascii by lia. rewrite byte_byte_of. reflexivity.
Qed.

Lemma mapped_head c :
  0 <= code c ->
  exists b bs,
    mapped (unicodeToLower table) c = b :: bs /\ (byte_of b < 128 -> bs = []).
Proof.
  intros Hc. pose proof (unicodeToLower_nonneg _ Hc) as Hf.
  unfold mapped. cbv zeta.
  destruct (Z.leb_spec 0 (unicodeToLower table (code c))) as [_|]; [|lia].
  destruct (Z.le_gt_cases (unicodeToLower table (code c)) 127) as [Hle|Hgt].
  - rewrite EncodeRune_ascii by lia. eexists _, _. split; [reflexivity|auto].
  - destruct (EncodeRune_high (unicodeToLower table (code c)))
      as (b & bs & Eb & Hb); [lia|].
    exists b, bs. split; [exact Eb|]. lia.
Qed.

Lemma mapped_letters : forall (R : list rune) (N : list ascii),
  Forall (fun r => 0 <= code r) R ->
  Forall (fun a => 97 <= byte_of a <= 122) N ->
  (concat (mapped (unicodeToLower table) <$> R) = N
   <-> Forall2 (fun a r => lowersTo a (code r)) N R).
Proof.
  induction R as [|r R IH]; intros N HR HN.
  - simpl. split.
    + intros <-. constructor.
    + intros H. inversion H. reflexivity.
  - inversion HR as [|? ? Hr HR']; subst. cbn [fmap list_fmap concat].
    destruct (mapped_head r Hr) as (b & bs & Eb & Hbs).
    split.
    + intros E. destruct N as [|a N]; [rewrite Eb in E; discriminate|].
      inversion HN as [|? ? Ha HN']; subst.
      rewrite Eb in E. injection E as -> E.
      rewrite (Hbs ltac:(lia)) in *. simpl in E.
      constructor.
      * apply mapped_letter; [exact Hr|exact Ha|exact Eb].
      * apply IH; assumption.
    + intros H. inversion H as [|a ? N' ? Hl H']; subst.
      inversion HN as [|? ? Ha HN']; subst.
      apply (mapped_letter r a Hr Ha) in Hl.
      change (list_fmap rune (list ascii) (mapped (unicodeToLower table)) R)
        with (mapped (unicodeToLower table) <$> R).
      rewrite Hl. simpl. f_equal. apply IH; assumption.
Qed.

Lemma Map_letters s name :
  Forall (fun a => 97 <= byte_of a <= 122) (list_ascii_of_string name) ->
  (Map (unicodeToLower table) s = name <-> variant name s).
Proof.
  intros HN. unfold variant.
  rewrite <- (mapped_letters _ _ (decode_nonneg _) HN).
  unfold Map. split.
  - intros <-. rewrite list_ascii_of_string_of_list_ascii. reflexivity.
  - intros ->. apply string_of_list_ascii_of_string.
Qed.

(** On a string of ASCII bytes the byte loop of [strings.ToLower] and
    [strings.Map] give the same string. *)
Lemma Map_ascii s :
  allASCII s = true -> Map (unicodeToLower table) s = mapString lowerASCII s.
Proof.
  unfold Map. intros Hs.
  rewrite <- (string_of_list_ascii_of_string (mapString lowerASCII s)).
  f_equal.
  induction s as [|a s IH]; [reflexivity|].
  simpl in Hs. apply andb_true_iff in Hs as [Ha Hs].
  unfold isASCII in Ha. apply Z.ltb_lt in Ha.
  cbn [list_ascii_of_string mapString].
  rewrite decode_ascii_cons by exact Ha.
  rewrite fmap_cons. cbn [concat]. rewrite (IH Hs).
  assert (E : mapped (unicodeToLower table) (mkRune (byte_of a) [a]) = [lowerASCII a]);
    [|rewrite E; reflexivity].
  pose proof (byte_of_range a) as Hr.
  unfold mapped, unicodeToLower, lowerASCII, isUpperASCII. cbn [code].
  destruct (Z.leb_spec (byte_of a) 127); [|lia].
  destruct ((65 <=? byte_of a) && (byte_of a <=? 90)) eqn:E.
  - apply andb_true_iff in E as [E1 E2].
    apply Z.leb_le in E1. apply Z.leb_le in E2. cbv zeta.
    destruct (Z.leb_spec 0 (byte_of a + 32)); [|lia].
    rewrite EncodeRune_ascii by lia. f_equal.
    unfold byte. rewrite Z.mod_small by lia. reflexivity.
  - cbv zeta. destruct (Z.leb_spec 0 (byte_of a)); [|lia].
    rewrite EncodeRune_ascii by lia. f_equal. apply byte_byte_of.
Qed.

Lemma ToLower_Map s : Strings.ToLower table s = Map (unicodeToLower table) s.
Proof.
  unfold Strings.ToLower, Level.ToLower.
  destruct (allASCII s) eqn:E; [|reflexivity].
  symmetry. apply Map_ascii. exact E.
Qed.

Lemma canonical_letters name :
  canonical name ->
  Forall (fun a => 97 <= byte_of a <= 122) (list_ascii_of_string name).
Proof.
  intros [l Hl].
  destruct (Level_String_Some _ _ Hl)
    as [[_ ->]|[[_ ->]|[[_ ->]|[[_ ->]|[[_ ->]|[_ ->]]]]]];
    repeat constructor; vm_compute; discriminate.
Qed.

(** [strings.ToLower] brings a string to a canonical name exactly when the
    string is a variant of the name. *)
Lemma ToLower_canonical s name :
  canonical name -> (Strings.ToLower table s = name <-> variant name s).
Proof.
  intros Hc. rewrite ToLower_Map. apply Map_letters, canonical_letters, Hc.
Qed.

End Table.

Lemma intoASCII_only : intoASCIIOnly intoASCII.
Proof.
  unfold intoASCIIOnly, intoASCII. split; [|split; [reflexivity|split; [reflexivity|]]].
  - intros r Hr. destruct (r =? 304); [lia|]. destruct (r =? 8490); lia.
  - intros r Hr. destruct (Z.eqb_spec r 304); [lia|].
    destruct (Z.eqb_spec r 8490); lia.
Qed.

(** A string is a variant of a canonical name, or of none: the parse with
    the table [intoASCII] tells. *)
Lemma classic_variant s :
  (exists l name, Level_String l = Some name /\ variant name s)
  \/ (forall name, canonical name -> ~ variant name s).
Proof.
  pose proof intoASCII_only as Htb.
  assert (Hc : forall l name, Level_String l = Some name ->
            (Strings.ToLower intoASCII s = name <-> variant name s)).
  { intros l name Hl. apply ToLower_canonical; [exact Htb|exists l; exact Hl]. }
  set (t := Strings.ToLower intoASCII s) in *.
  destruct (String.eqb_spec t "debug") as [E|N0];
    [left; exists 0, "debug"; split; [reflexivity|apply (Hc 0); [reflexivity|exact E]]|].
  destruct (String.eqb_spec t "info") as [E|N1];
    [left; exists 1, "info"; split; [reflexivity|apply (Hc 1); [reflexivity|exact E]]|].
  destruct (String.eqb_spec t "warning") as [E|N2];
    [left; exists 2, "warning"; split; [reflexivity|apply (Hc 2); [reflexivity|exact E]]|].
  destruct (String.eqb_spec t "error") as [E|N3];
    [left; exists 3, "error"; split; [reflexivity|apply (Hc 3); [reflexivity|exact E]]|].
  destruct (String.eqb_spec t "panic") as [E|N4];
    [left; exists 4, "panic"; split; [reflexivity|apply (Hc 4); [reflexivity|exact E]]|].
  destruct (String.eqb_spec t "fatal") as [E|N5];
    [left; exists 5, "fatal"; split; [reflexivity|apply (Hc 5); [reflexivity|exact E]]|].
  right. intros name [l Hl] Hv. apply (Hc l name Hl) in Hv.
  destruct (Level_String_Some _ _ Hl)
    as [[_ ->]|[[_ ->]|[[_ ->]|[[_ ->]|[[_ ->]|[_ ->]]]]]]; contradiction.
Qed.

(** A case variant of a canonical name, byte by byte, is a variant of it. *)
Lemma caseVariant_variant s name :
  canonical name -> caseVariant s name -> variant name s.
Proof.
  intros Hc Hv. pose proof (canonical_letters name Hc) as HN.
  unfold variant. clear Hc. revert s Hv HN.
  induction name as [|a name IH]; intros [|b s] Hv HN; simpl in Hv; try contradiction.
  - constructor.
  - destruct Hv as [Hab Hv]. cbn [list_ascii_of_string] in *.
    inversion HN as [|? ? Ha HN']; subst.
    assert (Hb : byte_of b = byte_of a \/ byte_of b = byte_of a - 32).
    { unfold sameLetter, isUpperASCII in Hab.
      destruct Hab as [E|[[Hu E]|[Hu E]]]; [subst; lia|lia|].
      apply andb_true_iff in Hu as [_ Hu]. apply Z.leb_le in Hu. lia. }
    rewrite decode_ascii_cons by lia.
    constructor; [unfold lowersTo; cbn [code]; tauto|].
    apply IH; assumption.
Qed.

(** C4, as amended.  [LevelFromString] undoes [Level.String] on the six
    canonical levels, and the parse does not look at the case of the
    letters: a string that agrees with the name of level [l] up to ASCII
    case is parsed as [l].  The lower-casing is that of strings.ToLower,
    which also brings U+0130 to i (and U+212A to k, a letter that no name
    has): the strings parsed as [l] are the variants of its name, in which
    every letter is in either case, or is U+0130 for an i.  Every string
    that is a variant of no canonical name is parsed as [DebugLevel], as
    is every string of ASCII bytes that agrees with no name up to ASCII
    case, and the parse always returns one of the six levels.  Of the table of
    unicode.ToLower only the code points that it brings into ASCII matter:
    with any table that has these two and no other the parse is the one
    with [intoASCII]. *)
Theorem LevelFromString_left_inverse :
  (forall table l name s,
      Level_String l = Some name -> caseVariant s name ->
      Strings.LevelFromString table s = l)
  /\ (forall table s,
         allASCII s = true ->
         (forall name, canonical name -> ~ caseVariant s name) ->
         Strings.LevelFromString table s = DebugLevel)
  /\ (forall name s, canonical name -> caseVariant s name -> variant name s)
  /\ (forall table,
         intoASCIIOnly table ->
         (forall l name s,
             Level_String l = Some name -> variant name s ->
             Strings.LevelFromString table s = l)
         /\ (forall s,
                (forall name, canonical name -> ~ variant name s) ->
                Strings.LevelFromString table s = DebugLevel)
         /\ (forall s,
                Strings.LevelFromString table s = Strings.LevelFromString intoASCII s))
  /\ (forall table s, 0 <= Strings.LevelFromString table s <= 5).
Proof.
  assert (Hvar : forall tb, intoASCIIOnly tb -> forall l name s,
            Level_String l = Some name -> variant name s ->
            Strings.LevelFromString tb s = l).
  { intros tb Htb l name s Hl Hv.
    assert (Hc : canonical name) by (exists l; exact Hl).
    apply (ToLower_canonical tb Htb s name Hc) in Hv.
    unfold Strings.LevelFromString, Level.LevelFromString.
    unfold Strings.ToLower in Hv. rewrite Hv.
    destruct (Level_String_Some _ _ Hl)
      as [[-> ->]|[[-> ->]|[[-> ->]|[[-> ->]|[[-> ->]|[-> ->]]]]]];
      reflexivity. }
  assert (Hnone : forall tb, intoASCIIOnly tb -> forall s,
            (forall name, canonical name -> ~ variant name s) ->
            Strings.LevelFromString tb s = DebugLevel).
  { intros tb Htb s Hno.
    assert (Hc : forall name, canonical name -> Strings.ToLower tb s <> name).
    { intros name Hcan E. apply (Hno name Hcan).
      apply (ToLower_canonical tb Htb s name Hcan). exact E. }
    unfold Strings.ToLower in Hc. unfold Strings.LevelFromString.
    destruct (LevelFromString_cases (Map (unicodeToLower tb)) s)
      as [[E _]|[[E _]|[[E _]|[[E _]|[[E _]|H]]]]]; [..|apply H];
      exfalso; (eapply Hc; [|exact E]).
    + exists 1; reflexivity.
    + exists 2; reflexivity.
    + exists 3; reflexivity.
    + exists 4; reflexivity.
    + exists 5; reflexivity. }
  split; [|split; [|split; [|split]]].
  - intros table l name s. apply LevelFromString_caseVariant.
  - intros table s. apply LevelFromString_ascii_default.
  - intros name s. apply caseVariant_variant.
  - intros table Htable. split; [apply Hvar; exact Htable|].
    split; [apply Hnone; exact Htable|].
    intros s.
    destruct (classic_variant s) as [(l & name & Hl & Hv)|Hno].
    + rewrite (Hvar table Htable l name s Hl Hv).
      rewrite (Hvar intoASCII intoASCII_only l name s Hl Hv). reflexivity.
    + rewrite (Hnone table Htable s Hno).
      rewrite (Hnone intoASCII intoASCII_only s Hno). reflexivity.
  - intros table s. unfold Strings.LevelFromString.
    destruct (LevelFromString_cases (Map (unicodeToLower table)) s)
      as [[_ ->]|[[_ ->]|[[_ ->]|[[_ ->]|[[_ ->]|H]]]]]; lia.
Qed.

End LowerCasing.

Lemma LevelFromString_left_inverse_witness :
  Strings.LevelFromString Strings.intoASCII "WaRnInG" = Level.WarningLevel
  /\ Strings.LevelFromString Strings.intoASCII Strings.dottedINFO = Level.InfoLevel
  /\ Strings.LevelFromString Strings.intoASCII "verbose" = Level.DebugLevel.
Proof.
  destruct LevelFromString_left_inverse as (Hcase & _ & _ & Hall & _).
  destruct (Hall Strings.intoASCII intoASCII_only) as (Hvar & Hnone & _).
  split; [|split].
  - apply (Hcase Strings.intoASCII 2 "warning" "WaRnInG").
    + reflexivity.
    + simpl. unfold Level.sameLetter.
      repeat split; first [left; reflexivity | right; left; split; reflexivity].
  - apply (Hvar 1 "info" Strings.dottedINFO); [reflexivity|].
    assert (Hd : Mask.decode (list_ascii_of_string Strings.dottedINFO)
                 = Mask.mkRune 304 [ascii_of_nat 196; ascii_of_nat 176]
                   :: Mask.asciiRunes (list_ascii_of_string "NFO"))
      by (vm_compute; reflexivity).
    unfold Strings.variant. rewrite Hd.
    constructor; [right; right; left; split; reflexivity|].
    repeat (constructor; [right; left; reflexivity|]). constructor.
  - apply (Hnone "verbose").
    assert (Hd : Mask.decode (list_ascii_of_string "verbose")
                 = Mask.asciiRunes (list_ascii_of_string "verbose"))
      by (vm_compute; reflexivity).
    intros name [l Hl] Hv. unfold Strings.variant in Hv. rewrite Hd in Hv.
    destruct (Level_String_Some _ _ Hl)
      as [[_ ->]|[[_ ->]|[[_ ->]|[[_ ->]|[[_ ->]|[_ ->]]]]]];
      cbn [list_ascii_of_string Mask.asciiRunes fmap list_fmap] in Hv;
      inversion Hv as [|? ? ? ? H1 _]; subst; vm_compute in H1;
      destruct H1 as [H1|[H1|[[_ H1]|[_ H1]]]]; discriminate H1.
Defined.

(** The string made of U+0130 followed by NFO agrees with no canonical
    name up to ASCII case, and is parsed as [InfoLevel], not as
    [DebugLevel]. *)
Lemma LevelFromString_left_inverse_counterexample :
  Strings.LevelFromString Strings.intoASCII Strings.dottedINFO = Level.InfoLevel
  /\ Level.InfoLevel <> Level.DebugLevel
  /\ (forall name, Level.canonical name -> ~ Level.caseVariant Strings.dottedINFO name).
Proof.
  split; [vm_compute; reflexivity|]. split; [discriminate|].
  intros name [l Hl] Hv.
  destruct (Level_String_Some _ _ Hl)
    as [[_ ->]|[[_ ->]|[[_ ->]|[[_ ->]|[[_ ->]|[_ ->]]]]]];
    simpl in Hv; unfold Level.sameLetter in Hv;
    vm_compute in Hv; intuition discriminate.
Qed.

(** ** An authorization header *)

Section AuthorizationHeader.
Import Mask Level.

Lemma asciiRunes_app a b : asciiRunes (a ++ b) = asciiRunes a ++ asciiRunes b.
Proof. unfold asciiRunes. apply fmap_app. Qed.

Lemma asciiRunes_length a : length (asciiRunes a) = length a.
Proof. unfold asciiRunes. apply length_fmap. Qed.

Lemma asciiRunes_codeIs p a :
  Forall (fun x => p (byte_of x) = true) a -> codeIs p (asciiRunes a).
Proof.
  intros H. unfold codeIs, asciiRunes. rewrite Forall_fmap.
  eapply Forall_impl; [exact H|]. auto.
Qed.

Lemma wordByte_ascii a : wordByte a -> byte_of a < 128.
Proof.
  unfold wordByte, word, isDigit, isUpper, isLower. intros H.
  pose proof (byte_of_range a).
  repeat rewrite ?orb_true_iff, ?andb_true_iff, ?Z.eqb_eq, ?Z.leb_le in H. lia.
Qed.

End AuthorizationHeader.

(** * Further properties *)

(** ** More on the Recorder *)

Section RecorderMore.
Import Ctx Recorder.

Lemma wf_lookup_lt (h : heap) a r p :
  wf h -> h !! a = Some r -> parent r = Some p -> (p < length h)%nat.
Proof.
  intros Hwf Ha Hp. pose proof (Hwf a r p Ha Hp).
  apply lookup_lt_Some in Ha. lia.
Qed.

(** Two chains that meet are chains of the same root. *)
Lemma chain_root_unique (h : heap) root1 root2 a :
  chain h root1 a -> chain h root2 a -> root1 = root2.
Proof.
  intros H1. revert root2.
  induction H1 as [r Hr Hp|a r p Hr Hp Hc IH]; intros root2 H2.
  - inversion H2 as [r' Hr' Hp'|a' r' p' Hr' Hp' Hc']; subst; [reflexivity|].
    rewrite Hr in Hr'. injection Hr' as <-. congruence.
  - inversion H2 as [r' Hr' Hp'|a' r' p' Hr' Hp' Hc']; subst.
    + rewrite Hr in Hr'. injection Hr' as <-. congruence.
    + rewrite Hr in Hr'. injection Hr' as <-.
      rewrite Hp in Hp'. injection Hp' as <-. apply IH. exact Hc'.
Qed.

(** X1. [With] only allocates: it returns for every live receiver, the new
    writer is the next free address with the receiver's fields followed by
    the new ones, every older node is left as it was, and the new writer
    is on the chain of the receiver, so that it reads the same entries and
    the same sync flag. *)
Theorem With_only_allocates (h : heap) rec r fs :
  wf h -> h !! rec = Some r ->
  exists h' n,
    With h rec fs = Some (length h, h')
    /\ h' = h ++ [n]
    /\ fields n = fields r ++ fs /\ parent n = Some rec
    /\ wf h'
    /\ (forall a, (a < length h)%nat -> h' !! a = h !! a)
    /\ (forall root, chain h root rec -> chain h' root (length h))
    /\ Entries h' (length h) = Entries h rec
    /\ SyncCalled h' (length h) = SyncCalled h rec
    /\ (forall a, (a < length h)%nat ->
          Entries h' a = Entries h a /\ SyncCalled h' a = SyncCalled h a).
Proof.
  intros Hwf Hr.
  set (n := mkRecorder (fields r ++ fs) false (Some rec) []).
  pose proof (With_spec h rec r fs Hr) as HW. fold n in HW.
  assert (Hwf' : wf (h ++ [n])) by (eapply wf_With; eauto).
  destruct (wf_chain h rec r Hwf Hr) as [root Hc].
  destruct (chain_root_node _ _ _ Hc) as [rr [Hrr _]].
  assert (Hrr' : (h ++ [n]) !! root = Some rr) by (apply lookup_app_l_Some; exact Hrr).
  assert (Hc' : chain (h ++ [n]) root (length h))
    by (apply (chain_With h root rec r fs Hc Hr)).
  exists (h ++ [n]), n.
  split; [exact HW|]. split; [reflexivity|]. split; [reflexivity|].
  split; [reflexivity|]. split; [exact Hwf'|].
  split; [intros a Ha; apply lookup_app_l; exact Ha|].
  split.
  { intros root' Hc0. apply (chain_With h root' rec r fs Hc0 Hr). }
  split.
  { rewrite (Entries_chain _ root _ rr Hwf' Hc' Hrr').
    rewrite (Entries_chain _ root _ rr Hwf Hc Hrr). reflexivity. }
  split.
  { rewrite (SyncCalled_chain _ root _ rr Hwf' Hc' Hrr').
    rewrite (SyncCalled_chain _ root _ rr Hwf Hc Hrr). reflexivity. }
  intros a Ha.
  destruct (lookup_lt_is_Some_2 h a Ha) as [ra Hra].
  destruct (wf_chain h a ra Hwf Hra) as [roota Hca].
  destruct (chain_root_node _ _ _ Hca) as [rra [Hrra _]].
  assert (Hca' : chain (h ++ [n]) roota a) by (apply chain_app; exact Hca).
  assert (Hrra' : (h ++ [n]) !! roota = Some rra)
    by (apply lookup_app_l_Some; exact Hrra).
  rewrite (Entries_chain _ roota _ rra Hwf' Hca' Hrra').
  rewrite (Entries_chain _ roota _ rra Hwf Hca Hrra).
  rewrite (SyncCalled_chain _ roota _ rra Hwf' Hca' Hrra').
  rewrite (SyncCalled_chain _ roota _ rra Hwf Hca Hrra). auto.
Qed.

(** X2. Logging and syncing do not interfere: on nodes of one chain, a
    [Logf] followed by a [Sync] leaves the same heap as the [Sync]
    followed by the [Logf]; the [Logf] keeps the sync flag, the [Sync]
    keeps the entries, and a second [Sync] changes nothing. *)
Theorem Log_Sync_commute (h : heap) root a b lvl str args :
  wf h -> chain h root a -> chain h root b ->
  exists h1 h2 h12,
    Logf h a lvl str args = Some h1
    /\ Sync h b = Some h2
    /\ Sync h1 b = Some h12
    /\ Logf h2 a lvl str args = Some h12
    /\ SyncCalled h1 b = SyncCalled h b
    /\ Entries h2 a = Entries h a
    /\ Sync h2 b = Some h2.
Proof.
  intros Hwf Ha Hb.
  destruct (chain_root_node _ _ _ Ha) as [r [Hr Hpr]].
  destruct (chain_lookup _ _ _ Ha) as [ra Hra].
  assert (Hlt : (root < length h)%nat) by (eapply lookup_lt_Some; eauto).
  set (e := entryOf ra lvl str args).
  set (h1 := <[root := addEntry r e]> h).
  set (h2 := <[root := setSync r]> h).
  assert (Hwf1 : wf h1) by (eapply wf_insert; eauto).
  assert (Hwf2 : wf h2) by (eapply wf_insert; eauto).
  assert (Hr1 : h1 !! root = Some (addEntry r e))
    by (apply list_lookup_insert_eq; exact Hlt).
  assert (Hr2 : h2 !! root = Some (setSync r))
    by (apply list_lookup_insert_eq; exact Hlt).
  assert (Hb1 : chain h1 root b) by (eapply chain_insert; eauto).
  assert (Ha2 : chain h2 root a) by (eapply chain_insert; eauto).
  assert (Hb2 : chain h2 root b) by (eapply chain_insert; eauto).
  assert (Hra2 : exists ra2, h2 !! a = Some ra2 /\ fields ra2 = fields ra).
  { destruct (decide (root = a)) as [<-|Hne].
    - exists (setSync r). split; [exact Hr2|].
      rewrite Hr in Hra. injection Hra as <-. reflexivity.
    - exists ra. split; [|reflexivity].
      unfold h2. rewrite list_lookup_insert_ne by exact Hne. exact Hra. }
  destruct Hra2 as (ra2 & Hra2 & Hf2).
  exists h1, h2, (<[root := setSync (addEntry r e)]> h1).
  split; [unfold Logf; eapply record_chain; eauto|].
  split; [eapply Sync_chain; eauto|].
  split; [eapply Sync_chain; eauto|].
  split.
  { unfold Logf. rewrite (record_chain h2 root a (setSync r) ra2 lvl str args Hwf2 Ha2 Hr2 Hra2).
    unfold h1, h2. rewrite !list_insert_insert_eq.
    unfold entryOf. rewrite Hf2. reflexivity. }
  split.
  { rewrite (SyncCalled_chain h1 root b _ Hwf1 Hb1 Hr1).
    rewrite (SyncCalled_chain h root b _ Hwf Hb Hr). reflexivity. }
  split.
  { rewrite (Entries_chain h2 root a _ Hwf2 Ha2 Hr2).
    rewrite (Entries_chain h root a _ Hwf Ha Hr). reflexivity. }
  rewrite (Sync_chain h2 root b _ Hwf2 Hb2 Hr2).
  unfold h2. rewrite list_insert_insert_eq. reflexivity.
Qed.

(** X3. Recorders of different roots are isolated: a [Logf] or a [Sync]
    on a node of one chain returns and changes neither the entries nor the
    sync flag read from a node of a chain with another root. *)
Theorem chains_are_isolated (h : heap) root1 root2 a b lvl str args :
  wf h -> chain h root1 a -> chain h root2 b -> root1 <> root2 ->
  exists h1 h2,
    Logf h a lvl str args = Some h1
    /\ Sync h a = Some h2
    /\ Entries h1 b = Entries h b /\ SyncCalled h1 b = SyncCalled h b
    /\ Entries h2 b = Entries h b /\ SyncCalled h2 b = SyncCalled h b.
Proof.
  intros Hwf Ha Hb Hne.
  destruct (chain_root_node _ _ _ Ha) as [r1 [Hr1 _]].
  destruct (chain_root_node _ _ _ Hb) as [r2 [Hr2 _]].
  destruct (chain_lookup _ _ _ Ha) as [ra Hra].
  set (e := entryOf ra lvl str args).
  set (h1 := <[root1 := addEntry r1 e]> h).
  set (h2 := <[root1 := setSync r1]> h).
  assert (Hwf1 : wf h1) by (eapply wf_insert; eauto).
  assert (Hwf2 : wf h2) by (eapply wf_insert; eauto).
  assert (Hb1 : chain h1 root2 b) by (eapply chain_insert; eauto).
  assert (Hb2 : chain h2 root2 b) by (eapply chain_insert; eauto).
  assert (H1 : h1 !! root2 = Some r2)
    by (unfold h1; rewrite list_lookup_insert_ne by exact Hne; exact Hr2).
  assert (H2 : h2 !! root2 = Some r2)
    by (unfold h2; rewrite list_lookup_insert_ne by exact Hne; exact Hr2).
  exists h1, h2.
  split; [unfold Logf; eapply record_chain; eauto|].
  split; [eapply Sync_chain; eauto|].
  rewrite (Entries_chain h1 root2 b r2 Hwf1 Hb1 H1).
  rewrite (Entries_chain h2 root2 b r2 Hwf2 Hb2 H2).
  rewrite (Entries_chain h root2 b r2 Hwf Hb Hr2).
  rewrite (SyncCalled_chain h1 root2 b r2 Hwf1 Hb1 H1).
  rewrite (SyncCalled_chain h2 root2 b r2 Hwf2 Hb2 H2).
  rewrite (SyncCalled_chain h root2 b r2 Hwf Hb Hr2).
  auto.
Qed.

Lemma top_nil (h : heap) a : h !! a = None -> top h a = None.
Proof. intros Ha. unfold top. rewrite Ha. reflexivity. Qed.

Lemma rstep_live (h : heap) c :
  wf h ->
  match receiver c with Some rec => (rec < length h)%nat | None => True end ->
  exists h', rstep c h = Some h' /\ wf h'
             /\ length h' = (if allocates c then S (length h) else length h).
Proof.
  intros Hwf Hrec. destruct c as [|rec fs|rec lvl args|rec lvl str args|rec]; simpl in *.
  - exists (h ++ [mkRecorder [] false None []]).
    split; [reflexivity|]. split; [apply (wf_new h Hwf)|].
    rewrite length_app. simpl. lia.
  - destruct (lookup_lt_is_Some_2 h rec Hrec) as [r Hr].
    rewrite (With_spec h rec r fs Hr). simpl.
    eexists. split; [reflexivity|].
    split; [eapply wf_With; [exact Hwf|apply (With_spec h rec r fs Hr)]|].
    rewrite length_app. simpl. lia.
  - destruct (lookup_lt_is_Some_2 h rec Hrec) as [r Hr].
    destruct (wf_chain h rec r Hwf Hr) as [root Hc].
    destruct (chain_root_node _ _ _ Hc) as [rr [Hrr _]].
    unfold Log. rewrite (record_chain h root rec rr r lvl "" args Hwf Hc Hrr Hr).
    eexists. split; [reflexivity|].
    split; [eapply wf_insert; eauto|]. apply length_insert.
  - destruct (lookup_lt_is_Some_2 h rec Hrec) as [r Hr].
    destruct (wf_chain h rec r Hwf Hr) as [root Hc].
    destruct (chain_root_node _ _ _ Hc) as [rr [Hrr _]].
    unfold Logf. rewrite (record_chain h root rec rr r lvl str args Hwf Hc Hrr Hr).
    eexists. split; [reflexivity|].
    split; [eapply wf_insert; eauto|]. apply length_insert.
  - destruct (lookup_lt_is_Some_2 h rec Hrec) as [r Hr].
    destruct (wf_chain h rec r Hwf Hr) as [root Hc].
    destruct (chain_root_node _ _ _ Hc) as [rr [Hrr _]].
    rewrite (Sync_chain h root rec rr Hwf Hc Hrr).
    eexists. split; [reflexivity|].
    split; [eapply wf_insert; eauto|]. apply length_insert.
Qed.

Lemma rstep_nil (h : heap) c rec :
  receiver c = Some rec -> (length h <= rec)%nat -> rstep c h = None.
Proof.
  intros Hc Hge.
  assert (Hn : h !! rec = None) by (apply lookup_ge_None; exact Hge).
  destruct c as [|rec' fs|rec' lvl args|rec' lvl str args|rec'];
    simpl in Hc; try discriminate; injection Hc as ->; simpl.
  - unfold With. rewrite Hn. reflexivity.
  - unfold Log, record. rewrite (top_nil h rec Hn). reflexivity.
  - unfold Logf, record. rewrite (top_nil h rec Hn). reflexivity.
  - unfold Sync. rewrite (top_nil h rec Hn). reflexivity.
Qed.

(** X4. From a heap built by the Recorder's own operations, a run of
    [&Recorder{}], [With], [Log], [Logf] and [Sync] calls returns exactly
    when every call is made on a recorder that was allocated before it (a
    call on a nil pointer panics); the loop of [top] always ends, and on
    the heap that comes out [Entries] and [SyncCalled] return for every
    node. *)
Theorem Recorder_calls_return (cs : list rcall) (h : heap) :
  wf h ->
  (is_Some (rrun cs h) <-> onLive cs (length h) = true)
  /\ (forall h', rrun cs h = Some h' ->
        wf h'
        /\ forall a, (a < length h')%nat ->
             is_Some (top h' a) /\ is_Some (Entries h' a)
             /\ is_Some (SyncCalled h' a)).
Proof.
  revert h. induction cs as [|c cs IH]; intros h Hwf.
  - split; [split; [reflexivity|intros _; eexists; reflexivity]|].
    intros h' [= <-]. split; [exact Hwf|]. intros a Ha.
    destruct (lookup_lt_is_Some_2 h a Ha) as [r Hr].
    destruct (wf_chain h a r Hwf Hr) as [root Hc].
    destruct (chain_root_node _ _ _ Hc) as [rr [Hrr _]].
    rewrite (top_chain h root a Hwf Hc), (Entries_chain h root a rr Hwf Hc Hrr),
      (SyncCalled_chain h root a rr Hwf Hc Hrr). eauto.
  - cbn [rrun onLive].
    destruct (receiver c) as [rec|] eqn:Hrc.
    + destruct (Nat.ltb_spec rec (length h)) as [Hlt|Hge].
      * destruct (rstep_live h c Hwf) as (h1 & Hs & Hwf1 & Hlen).
        { rewrite Hrc. exact Hlt. }
        rewrite Hs. rewrite <- Hlen. simpl. apply IH. exact Hwf1.
      * rewrite (rstep_nil h c rec Hrc Hge). simpl.
        split; [split; [intros [x Hx]; discriminate|discriminate]|discriminate].
    + destruct (rstep_live h c Hwf) as (h1 & Hs & Hwf1 & Hlen).
      { rewrite Hrc. exact I. }
      rewrite Hs. rewrite <- Hlen. simpl. apply IH. exact Hwf1.
Qed.

End RecorderMore.

Lemma With_only_allocates_witness :
  let h := [Recorder.mkRecorder [Ctx.VStr "k"] true None
              [Recorder.mkLogEntry 1 "" [] []]] in
  exists h',
    Recorder.With h 0 [Ctx.VStr "v"] = Some (1%nat, h')
    /\ Recorder.Entries h' 1 = Some [Recorder.mkLogEntry 1 "" [] []]
    /\ Recorder.SyncCalled h' 1 = Some true.
Proof.
  intros h.
  assert (Hwf : Recorder.wf h).
  { intros [|a] r p Ha Hp; simpl in Ha; try discriminate.
    injection Ha as <-. discriminate. }
  destruct (With_only_allocates h 0%nat _ [Ctx.VStr "v"] Hwf eq_refl)
    as (h' & n & HW & _ & _ & _ & _ & _ & _ & HE & HS & _).
  exists h'. split; [exact HW|]. split; [exact HE | exact HS].
Defined.

Lemma Log_Sync_commute_witness :
  let h := [Recorder.mkRecorder [] false None [];
            Recorder.mkRecorder [Ctx.VStr "k"] false (Some 0%nat) []] in
  exists h1 h2 h12,
    Recorder.Logf h 1 2 "m" [] = Some h1
    /\ Recorder.Sync h 0 = Some h2
    /\ Recorder.Sync h1 0 = Some h12
    /\ Recorder.Logf h2 1 2 "m" [] = Some h12.
Proof.
  intros h.
  assert (Hwf : Recorder.wf h).
  { intros [|[|a]] r p Ha Hp; simpl in Ha; try discriminate;
      injection Ha as <-; simpl in Hp; [discriminate|injection Hp as <-; lia]. }
  assert (Hc0 : Recorder.chain h 0 0)
    by (eapply Recorder.chain_root; reflexivity).
  assert (Hc : Recorder.chain h 0 1)
    by (eapply Recorder.chain_child; [reflexivity|reflexivity|exact Hc0]).
  destruct (Log_Sync_commute h 0%nat 1%nat 0%nat 2 "m" [] Hwf Hc Hc0)
    as (h1 & h2 & h12 & H1 & H2 & H3 & H4 & _).
  exists h1, h2, h12. auto.
Defined.

Lemma chains_are_isolated_witness :
  let h := [Recorder.mkRecorder [] false None [];
            Recorder.mkRecorder [] false None []] in
  exists h1,
    Recorder.Logf h 0 2 "m" [] = Some h1
    /\ Recorder.Entries h1 1 = Recorder.Entries h 1.
Proof.
  intros h.
  assert (Hwf : Recorder.wf h).
  { intros [|[|a]] r p Ha Hp; simpl in Ha; try discriminate;
      injection Ha as <-; discriminate. }
  assert (Hc0 : Recorder.chain h 0 0)
    by (eapply Recorder.chain_root; reflexivity).
  assert (Hc1 : Recorder.chain h 1 1)
    by (eapply Recorder.chain_root; reflexivity).
  destruct (chains_are_isolated h 0%nat 1%nat 0%nat 1%nat 2 "m" [] Hwf Hc0 Hc1)
    as (h1 & h2 & H1 & _ & HE & _); [discriminate|].
  exists h1. auto.
Defined.

Lemma Recorder_calls_return_witness :
  is_Some (Recorder.rrun
             [Recorder.RNew; Recorder.RWith 0 [Ctx.VStr "k"];
              Recorder.RLog 1 0 []; Recorder.RSync 1] [])
  /\ Recorder.rrun [Recorder.RNew; Recorder.RLog 1 0 []] [] = None.
Proof.
  pose proof (Recorder_calls_return
                [Recorder.RNew; Recorder.RWith 0 [Ctx.VStr "k"];
                 Recorder.RLog 1 0 []; Recorder.RSync 1] [] wf_nil) as [H1 _].
  pose proof (Recorder_calls_return
                [Recorder.RNew; Recorder.RLog 1 0 []] [] wf_nil) as [H2 _].
  split.
  - apply H1. reflexivity.
  - destruct (Recorder.rrun [Recorder.RNew; Recorder.RLog 1 0 []] []) eqn:E;
      [|reflexivity].
    assert (Hs : is_Some (Some l)) by eauto.
    apply H2 in Hs. discriminate Hs.
Defined.

(** ** More on Dump *)

Section DumpMore.
Import Level Ctx Recorder.

Variable Sprintf : string -> list value -> string.

Lemma str_app_cons x (a b : string) : String x a +:+ b = String x (a +:+ b).
Proof. reflexivity. Qed.

Lemma str_app_assoc (a b c : string) : (a +:+ b) +:+ c = a +:+ (b +:+ c).
Proof.
  induction a as [|x a IH]; [reflexivity|].
  rewrite !str_app_cons, IH. reflexivity.
Qed.

Lemma str_app_nil_r (a : string) : a +:+ "" = a.
Proof.
  induction a as [|x a IH]; [reflexivity|].
  rewrite str_app_cons, IH. reflexivity.
Qed.

Lemma Level_String_unnamed lvl : Level_String lvl = None <-> unnamed lvl.
Proof.
  unfold Level_String, unnamed, levelNames.
  change (Z.of_nat (length ["debug"; "info"; "warning"; "error"; "panic"; "fatal"]))
    with 6.
  destruct (Z.ltb_spec lvl 0) as [H0|H0]; cbn [orb].
  - split; [intros _; left; exact H0|reflexivity].
  - destruct (Z.leb_spec 6 lvl) as [H6|H6].
    + split; [intros _; right; lia|reflexivity].
    + split.
      * intros H. apply lookup_ge_None in H. simpl in H. lia.
      * intros [H|H]; lia.
Qed.

Lemma dumpEntry_None e : dumpEntry Sprintf e = None <-> unnamed (Level e).
Proof.
  unfold dumpEntry. rewrite <- Level_String_unnamed.
  destruct (Level_String (Level e)); split; intros H; congruence.
Qed.

Lemma dumpEntries_app es1 es2 :
  dumpEntries Sprintf (es1 ++ es2)
  = match dumpEntries Sprintf es1, dumpEntries Sprintf es2 with
    | Some a, Some b => Some (a +:+ b)
    | _, _ => None
    end.
Proof.
  induction es1 as [|e es1 IH]; simpl.
  - destruct (dumpEntries Sprintf es2); reflexivity.
  - rewrite IH. destruct (dumpEntry Sprintf e) as [s|]; [|reflexivity].
    destruct (dumpEntries Sprintf es1) as [a|]; [|reflexivity].
    destruct (dumpEntries Sprintf es2) as [b|]; [|reflexivity].
    rewrite str_app_assoc. reflexivity.
Qed.

Lemma dumpEntries_None es :
  dumpEntries Sprintf es = None <-> Exists (fun e => unnamed (Level e)) es.
Proof.
  induction es as [|e es IH]; simpl.
  - split; [discriminate|]. intros H. inversion H.
  - rewrite Exists_cons, <- IH, <- dumpEntry_None.
    destruct (dumpEntry Sprintf e) as [s|]; destruct (dumpEntries Sprintf es) as [r|];
      split; intros H; try congruence; try (left; congruence); try (right; congruence);
      destruct H; congruence.
Qed.

(** X5. [Dump] panics exactly when an entry has a level outside the six
    named ones.  The Recorder itself takes any level: a [Logf] at such a
    level returns and records the entry, and from then on [Dump] panics on
    every node of the chain. *)
Theorem Dump_panics_on_unnamed_level :
  (forall h rec es,
      Entries h rec = Some es ->
      (Dump Sprintf h rec = None <-> Exists (fun e => unnamed (Level e)) es))
  /\ (forall h root a lvl str args,
         wf h -> chain h root a -> unnamed lvl ->
         exists h',
           Logf h a lvl str args = Some h'
           /\ forall b, chain h root b -> Dump Sprintf h' b = None).
Proof.
  split.
  - intros h rec es HE. unfold Dump. rewrite HE. apply dumpEntries_None.
  - intros h root a lvl str args Hwf Hc Hlvl.
    destruct (chain_root_node _ _ _ Hc) as [r [Hr _]].
    destruct (chain_lookup _ _ _ Hc) as [ra Hra].
    assert (Hlt : (root < length h)%nat) by (eapply lookup_lt_Some; eauto).
    set (e := entryOf ra lvl str args).
    exists (<[root := addEntry r e]> h).
    split; [unfold Logf; eapply record_chain; eauto|].
    intros b Hb. unfold Dump.
    rewrite (Entries_chain _ root b (addEntry r e)).
    + simpl. apply dumpEntries_None. apply Exists_app. right.
      constructor. exact Hlvl.
    + eapply wf_insert; eauto.
    + eapply chain_insert; eauto.
    + apply list_lookup_insert_eq. exact Hlt.
Qed.

(** X6. [Dump] only grows at the end: after a [Logf] at a named level on
    a node of the chain, [Dump] on any node of the chain is the text it
    returned before, followed by the line of the new entry. *)
Theorem Dump_grows_by_one_line (h : heap) root a ra lvl str args d :
  wf h -> chain h root a -> h !! a = Some ra ->
  Dump Sprintf h a = Some d -> 0 <= lvl <= 5 ->
  exists h' line,
    Logf h a lvl str args = Some h'
    /\ dumpEntry Sprintf (mkLogEntry lvl str args (fields ra)) = Some line
    /\ forall b, chain h root b -> Dump Sprintf h' b = Some (d +:+ line).
Proof.
  intros Hwf Hc Hra Hd Hlvl.
  destruct (chain_root_node _ _ _ Hc) as [r [Hr _]].
  assert (Hlt : (root < length h)%nat) by (eapply lookup_lt_Some; eauto).
  set (e := entryOf ra lvl str args).
  destruct (dumpEntry Sprintf e) as [line|] eqn:Hline.
  2:{ apply dumpEntry_None in Hline. destruct Hline; simpl in *; lia. }
  exists (<[root := addEntry r e]> h), line.
  split; [unfold Logf; eapply record_chain; eauto|].
  split; [exact Hline|].
  intros b Hb. unfold Dump in *.
  rewrite (Entries_chain h root a r Hwf Hc Hr) in Hd.
  rewrite (Entries_chain _ root b (addEntry r e)).
  - simpl. rewrite dumpEntries_app, Hd. simpl. rewrite Hline.
    rewrite str_app_nil_r. reflexivity.
  - eapply wf_insert; eauto.
  - eapply chain_insert; eauto.
  - apply list_lookup_insert_eq. exact Hlt.
Qed.

Lemma writeItems_false l :
  writeItems false l
  = match l with [] => "" | _ => ", " +:+ writeItems true l end.
Proof. destruct l as [|a l]; reflexivity. Qed.

Lemma writeItems_join l :
  writeItems true l = String.concat ", " (Sprint <$> l).
Proof.
  induction l as [|a l IH]; [reflexivity|].
  cbn [writeItems fmap list_fmap String.concat].
  rewrite writeItems_false. destruct l as [|b l]; simpl.
  - apply str_app_nil_r.
  - simpl in IH. rewrite IH. reflexivity.
Qed.

(** X7. The line of an entry with a named level: the name, padded with
    spaces to seven characters, between square brackets; then the
    formatted message when there is a format string, or the arguments
    joined by ", " between square brackets when there is none and there
    are arguments, or nothing; then the fields joined by ", " between
    braces, and a line feed. *)
Theorem dumpEntry_line (e : LogEntry) name :
  Level_String (Level e) = Some name ->
  String.length (padRight7 name) = 7%nat
  /\ dumpEntry Sprintf e
     = Some ("[" +:+ padRight7 name +:+ "]"
             +:+ (if negb (String.eqb (Str e) "") then " " +:+ Sprintf (Str e) (Args e)
                  else match Args e with
                       | [] => ""
                       | _ => " [" +:+ String.concat ", " (Sprint <$> Args e) +:+ "]"
                       end)
             +:+ " {" +:+ String.concat ", " (Sprint <$> Fields e) +:+ "}"
             +:+ newline).
Proof.
  intros Hname. split.
  - destruct (Level_String_Some _ _ Hname)
      as [[_ ->]|[[_ ->]|[[_ ->]|[[_ ->]|[[_ ->]|[_ ->]]]]]]; reflexivity.
  - unfold dumpEntry. rewrite Hname. rewrite !writeItems_join.
    destruct (String.eqb (Str e) "") eqn:E; simpl.
    + destruct (Args e) as [|a l]; reflexivity.
    + reflexivity.
Qed.

End DumpMore.

Lemma Dump_panics_on_unnamed_level_witness :
  let h := [Recorder.mkRecorder [] false None []] in
  exists h',
    Recorder.Logf h 0 6 "m" [] = Some h'
    /\ Recorder.Dump (fun _ _ => "") h' 0 = None.
Proof.
  intros h.
  assert (Hwf : Recorder.wf h).
  { intros [|a] r p Ha Hp; simpl in Ha; try discriminate.
    injection Ha as <-. discriminate. }
  assert (Hc0 : Recorder.chain h 0 0)
    by (eapply Recorder.chain_root; reflexivity).
  destruct (proj2 (Dump_panics_on_unnamed_level (fun _ _ => "")) h 0%nat 0%nat 6 "m" []
              Hwf Hc0) as (h' & HL & HD).
  { right. lia. }
  exists h'. split; [exact HL|]. apply HD. exact Hc0.
Defined.

Lemma Dump_grows_by_one_line_witness :
  let h := [Recorder.mkRecorder [Ctx.VStr "k"] false None
              [Recorder.mkLogEntry 0 "" [Ctx.VStr "a"] []]] in
  exists h',
    Recorder.Logf h 0 1 "" [] = Some h'
    /\ Recorder.Dump (fun _ _ => "") h' 0
       = Some (("[debug  ] [a] {}" +:+ Recorder.newline)
               +:+ ("[info   ] {k}" +:+ Recorder.newline)).
Proof.
  intros h.
  assert (Hwf : Recorder.wf h).
  { intros [|a] r p Ha Hp; simpl in Ha; try discriminate.
    injection Ha as <-. discriminate. }
  assert (Hc0 : Recorder.chain h 0 0)
    by (eapply Recorder.chain_root; reflexivity).
  destruct (Dump_grows_by_one_line (fun _ _ => "") h 0%nat 0%nat _ 1 "" []
              ("[debug  ] [a] {}" +:+ Recorder.newline) Hwf Hc0 eq_refl eq_refl)
    as (h' & line & HL & Hline & HD); [lia|].
  exists h'. split; [exact HL|].
  rewrite (HD 0%nat Hc0). vm_compute in Hline. injection Hline as <-. reflexivity.
Defined.

Lemma dumpEntry_line_witness :
  Recorder.dumpEntry (fun _ _ => "") (Recorder.mkLogEntry 3 "" [] [Ctx.VInt 7; Ctx.VNil])
  = Some ("[error  ] {7, <nil>}" +:+ Recorder.newline).
Proof.
  apply (proj2 (dumpEntry_line (fun _ _ => "")
                  (Recorder.mkLogEntry 3 "" [] [Ctx.VInt 7; Ctx.VNil]) "error" eq_refl)).
Defined.

(** ** Request ids *)

Section ContextMore.
Import Ctx.

(** X8. [FromContext] reads back the id that [NewContext] bound, whatever
    the parent context holds; a value bound under any other key, the
    plain string "request-id" included, does not change what it
    returns. *)
Theorem FromContext_reads_NewContext :
  (forall parent reqID, FromContext (NewContext parent reqID) = reqID)
  /\ (forall ctx key val,
         key <> requestIDKey ->
         FromContext (WithValue ctx key val) = FromContext ctx).
Proof.
  split.
  - intros parent reqID. unfold FromContext, NewContext, WithValue. simpl.
    destruct (decide (requestIDKey = requestIDKey)); [reflexivity|contradiction].
  - intros ctx key val Hne. unfold FromContext, WithValue. simpl.
    destruct (decide (key = requestIDKey)); [contradiction|reflexivity].
Qed.

(** X9. [RequestIDMiddleware] returns the pair "request_id", id when the
    context carries a non-empty id and nothing otherwise; binding the
    empty id hides an id bound further out. *)
Theorem RequestIDMiddleware_pair :
  (forall ctx,
      FromContext ctx <> "" ->
      RequestIDMiddleware ctx = [VStr "request_id"; VStr (FromContext ctx)])
  /\ (forall ctx, FromContext ctx = "" -> RequestIDMiddleware ctx = [])
  /\ (forall parent reqID,
         reqID <> "" ->
         RequestIDMiddleware (NewContext parent "") = []
         /\ RequestIDMiddleware (NewContext (NewContext parent "") reqID)
            = [VStr "request_id"; VStr reqID]
         /\ RequestIDMiddleware (NewContext (NewContext parent reqID) "") = []).
Proof.
  assert (Hid : forall parent reqID, FromContext (NewContext parent reqID) = reqID).
  { intros parent reqID. unfold FromContext, NewContext, WithValue. simpl.
    destruct (decide (requestIDKey = requestIDKey)); [reflexivity|contradiction]. }
  assert (Hne : forall ctx, FromContext ctx <> "" ->
            RequestIDMiddleware ctx = [VStr "request_id"; VStr (FromContext ctx)]).
  { intros ctx H. unfold RequestIDMiddleware.
    destruct (String.eqb_spec (FromContext ctx) ""); [contradiction|reflexivity]. }
  assert (He : forall ctx, FromContext ctx = "" -> RequestIDMiddleware ctx = []).
  { intros ctx H. unfold RequestIDMiddleware. rewrite H. reflexivity. }
  split; [exact Hne|]. split; [exact He|].
  intros parent reqID H. split; [|split].
  - apply He, Hid.
  - rewrite Hne; rewrite Hid; [reflexivity|exact H].
  - apply He, Hid.
Qed.

End ContextMore.

Lemma FromContext_reads_NewContext_witness :
  Ctx.FromContext
    (Ctx.WithValue (Ctx.NewContext Ctx.Background "abc-123")
       (Ctx.CtxKey "string" "request-id") (Ctx.VStr "other"))
  = "abc-123".
Proof.
  rewrite (proj2 FromContext_reads_NewContext); [|discriminate].
  apply (proj1 FromContext_reads_NewContext).
Defined.

Lemma RequestIDMiddleware_pair_witness :
  Ctx.RequestIDMiddleware (Ctx.NewContext (Ctx.NewContext Ctx.Background "abc-123") "")
  = [].
Proof.
  apply (proj2 (proj2 RequestIDMiddleware_pair) Ctx.Background "abc-123").
  discriminate.
Defined.

(** ** More on the Logger *)

Section LoggerMore.
Import Level Ctx.

(** Below the threshold a call returns at once. *)
Lemma Logger_below (l : Logger.Logger) (h : Recorder.heap) L str args :
  L < Logger.level l ->
  Logger.Log l h L args = Some h /\ Logger.Logf l h L str args = Some h.
Proof.
  intros HL. unfold Logger.Log, Logger.Logf.
  destruct (Z.ltb_spec L (Logger.level l)); [auto|lia].
Qed.

(** X10. Over a Recorder, each of the twelve shortcuts logs at the level
    it is named after: below the minimum level of the Logger it leaves the
    heap as it was, otherwise it returns and the entries grow by one entry
    of that level, with the format string when the shortcut takes one.
    [Panic], [Panicf], [Fatal] and [Fatalf] return like the others. *)
Theorem shortcuts_log_at_their_level (s : Logger.shortcut) (l : Logger.Logger)
    (h : Recorder.heap) rec ra str args :
  Logger.writer l = Some (Logger.recorder rec) ->
  Recorder.wf h -> h !! rec = Some ra ->
  exists es,
    Recorder.Entries h rec = Some es
    /\ (Logger.namedLevel s < Logger.level l ->
        Logger.callShortcut s l h str args = Some h)
    /\ (Logger.level l <= Logger.namedLevel s ->
        exists h',
          Logger.callShortcut s l h str args = Some h'
          /\ Recorder.Entries h' rec
             = Some (es ++ [Recorder.mkLogEntry (Logger.namedLevel s)
                              (if Logger.takesFormat s then str else "")
                              args (Recorder.fields ra)])).
Proof.
  intros Hw Hwf Hra.
  destruct (wf_chain h rec ra Hwf Hra) as [root Hc].
  destruct (chain_root_node _ _ _ Hc) as [r [Hr _]].
  exists (Recorder.entries r). split; [eapply Entries_chain; eauto|]. split.
  - intros HL.
    destruct (Logger_below l h (Logger.namedLevel s) str args HL) as [H1 H2].
    destruct s; assumption.
  - intros HL.
    destruct (Logger_forward l h rec ra root r (Logger.namedLevel s) str args
                Hw Hwf Hra Hc Hr HL) as (_ & _ & H1 & H2).
    destruct s; first [exact H1 | exact H2].
Qed.

(** X11. [Cond] and [Condf] log at [trueLvl] when the condition holds and
    at [falseLvl] when it does not; the other level plays no part, so that
    the call is dropped when the chosen level is below the minimum even if
    the other one is not. *)
Theorem Cond_logs_at_the_chosen_level (l : Logger.Logger) (h : Recorder.heap)
    rec ra (condition : bool) trueLvl falseLvl str args :
  Logger.writer l = Some (Logger.recorder rec) ->
  Recorder.wf h -> h !! rec = Some ra ->
  let chosen := if condition then trueLvl else falseLvl in
  exists es,
    Recorder.Entries h rec = Some es
    /\ (chosen < Logger.level l ->
        Logger.Cond l h condition trueLvl falseLvl args = Some h
        /\ Logger.Condf l h condition trueLvl falseLvl str args = Some h)
    /\ (Logger.level l <= chosen ->
        exists h1 h2,
          Logger.Cond l h condition trueLvl falseLvl args = Some h1
          /\ Recorder.Entries h1 rec
             = Some (es ++ [Recorder.mkLogEntry chosen "" args (Recorder.fields ra)])
          /\ Logger.Condf l h condition trueLvl falseLvl str args = Some h2
          /\ Recorder.Entries h2 rec
             = Some (es ++ [Recorder.mkLogEntry chosen str args (Recorder.fields ra)])).
Proof.
  intros Hw Hwf Hra chosen.
  assert (Hch : Logger.conditional condition trueLvl falseLvl = chosen)
    by (destruct condition; reflexivity).
  destruct (wf_chain h rec ra Hwf Hra) as [root Hc].
  destruct (chain_root_node _ _ _ Hc) as [r [Hr _]].
  exists (Recorder.entries r). split; [eapply Entries_chain; eauto|].
  unfold Logger.Cond, Logger.Condf. rewrite Hch. split.
  - intros HL. apply Logger_below. exact HL.
  - intros HL.
    destruct (Logger_forward l h rec ra root r chosen str args
                Hw Hwf Hra Hc Hr HL) as (_ & _ & (h1 & H1 & E1) & (h2 & H2 & E2)).
    exists h1, h2. auto.
Qed.

(** [With] on a Logger over a Recorder: the new logger writes to a new
    node of the same chain, and nothing else changes. *)
Lemma Logger_With_frame (l : Logger.Logger) (h : Recorder.heap) rec ra root fs :
  Logger.writer l = Some (Logger.recorder rec) ->
  Recorder.wf h -> h !! rec = Some ra -> Recorder.chain h root rec ->
  exists n,
    Logger.With l h fs
    = Some (Logger.clone l (Logger.recorder (length h)), h ++ [n])
    /\ Recorder.fields n = Recorder.fields ra ++ fs
    /\ (h ++ [n]) !! length h = Some n
    /\ Recorder.wf (h ++ [n])
    /\ Recorder.chain (h ++ [n]) root (length h)
    /\ Recorder.Entries (h ++ [n]) (length h) = Recorder.Entries h rec.
Proof.
  intros Hw Hwf Hra Hc.
  set (n := Recorder.mkRecorder (Recorder.fields ra ++ fs) false (Some rec) []).
  pose proof (With_spec h rec ra fs Hra) as HW. fold n in HW.
  destruct (chain_root_node _ _ _ Hc) as [r [Hr _]].
  assert (Hwf' : Recorder.wf (h ++ [n])) by (eapply wf_With; eauto).
  assert (Hc' : Recorder.chain (h ++ [n]) root (length h))
    by (apply (chain_With h root rec ra fs Hc Hra)).
  exists n.
  split.
  { unfold Logger.With, Logger.innerWriter. rewrite Hw. simpl. rewrite HW.
    reflexivity. }
  split; [reflexivity|].
  split; [apply list_lookup_middle; reflexivity|].
  split; [exact Hwf'|]. split; [exact Hc'|].
  rewrite (Entries_chain _ root _ r Hwf' Hc' (lookup_app_l_Some _ _ _ _ Hr)).
  rewrite (Entries_chain _ root _ r Hwf Hc Hr). reflexivity.
Qed.

Lemma derive_frame (d : Logger.derivation) (l : Logger.Logger) (h : Recorder.heap)
    rec root :
  Logger.writer l = Some (Logger.recorder rec) ->
  Recorder.wf h -> Recorder.chain h root rec ->
  exists l' h' rec',
    Logger.derive d (l, h) = Some (l', h')
    /\ Logger.writer l' = Some (Logger.recorder rec')
    /\ Recorder.wf h' /\ Recorder.chain h' root rec'
    /\ Logger.level l' = Logger.level l
    /\ (length h <= length h')%nat
    /\ (forall a, (a < length h)%nat -> h' !! a = h !! a)
    /\ Recorder.Entries h' rec' = Recorder.Entries h rec.
Proof.
  intros Hw Hwf Hc.
  destruct (chain_lookup _ _ _ Hc) as [ra Hra].
  assert (Hsame : exists l' h' rec',
            Some (l, h) = Some (l', h')
            /\ Logger.writer l' = Some (Logger.recorder rec')
            /\ Recorder.wf h' /\ Recorder.chain h' root rec'
            /\ Logger.level l' = Logger.level l
            /\ (length h <= length h')%nat
            /\ (forall a, (a < length h)%nat -> h' !! a = h !! a)
            /\ Recorder.Entries h' rec' = Recorder.Entries h rec).
  { exists l, h, rec. repeat split; auto. }
  assert (HWith : forall fs, exists l' h' rec',
            Logger.With l h fs = Some (l', h')
            /\ Logger.writer l' = Some (Logger.recorder rec')
            /\ Recorder.wf h' /\ Recorder.chain h' root rec'
            /\ Logger.level l' = Logger.level l
            /\ (length h <= length h')%nat
            /\ (forall a, (a < length h)%nat -> h' !! a = h !! a)
            /\ Recorder.Entries h' rec' = Recorder.Entries h rec).
  { intros fs.
    destruct (Logger_With_frame l h rec ra root fs Hw Hwf Hra Hc)
      as (n & HW & _ & _ & Hwf' & Hc' & HE).
    exists (Logger.clone l (Logger.recorder (length h))), (h ++ [n]), (length h).
    split; [exact HW|]. split; [reflexivity|]. split; [exact Hwf'|].
    split; [exact Hc'|]. split; [reflexivity|].
    split; [rewrite length_app; lia|].
    split; [intros a Ha; apply lookup_app_l; exact Ha|exact HE]. }
  destruct d as [fs|ctx|err|ms]; cbn [Logger.derive].
  - apply HWith.
  - unfold Logger.WithContext.
    destruct (Z.of_nat (length (Logger.collectFields (Logger.ctxMiddlewares l) ctx [])) =? 0).
    + exact Hsame.
    + apply HWith.
  - apply HWith.
  - exists (Logger.WithMiddleware l ms), h, rec.
    split; [reflexivity|].
    split; [unfold Logger.WithMiddleware, Logger.innerWriter; rewrite Hw; reflexivity|].
    repeat split; auto.
Qed.

(** X12. Deriving loggers over a Recorder, by any sequence of [With],
    [WithContext], [WithError] and [WithMiddleware]: every call returns,
    the logger that comes out keeps the minimum level, writes to a node of
    the same chain and reads the same entries; no entry is added and no
    older node is changed. *)
Theorem derived_loggers_keep_the_sink (ds : list Logger.derivation)
    (l : Logger.Logger) (h : Recorder.heap) rec root :
  Logger.writer l = Some (Logger.recorder rec) ->
  Recorder.wf h -> Recorder.chain h root rec ->
  exists l' h' rec',
    Logger.deriveAll ds (l, h) = Some (l', h')
    /\ Logger.writer l' = Some (Logger.recorder rec')
    /\ Recorder.wf h' /\ Recorder.chain h' root rec'
    /\ Logger.level l' = Logger.level l
    /\ (forall a, (a < length h)%nat -> h' !! a = h !! a)
    /\ Recorder.Entries h' rec' = Recorder.Entries h rec
    /\ (forall lvl args,
          lvl < Logger.level l -> Logger.Log l' h' lvl args = Some h').
Proof.
  intros Hw Hwf Hc.
  assert (Hgen : exists l' h' rec',
            Logger.deriveAll ds (l, h) = Some (l', h')
            /\ Logger.writer l' = Some (Logger.recorder rec')
            /\ Recorder.wf h' /\ Recorder.chain h' root rec'
            /\ Logger.level l' = Logger.level l
            /\ (length h <= length h')%nat
            /\ (forall a, (a < length h)%nat -> h' !! a = h !! a)
            /\ Recorder.Entries h' rec' = Recorder.Entries h rec).
  { revert l h rec Hw Hwf Hc. induction ds as [|d ds IH]; intros l h rec Hw Hwf Hc.
    - exists l, h, rec. repeat split; auto.
    - destruct (derive_frame d l h rec root Hw Hwf Hc)
        as (l1 & h1 & rec1 & Hd & Hw1 & Hwf1 & Hc1 & Hl1 & Hlen1 & Hold1 & HE1).
      destruct (IH l1 h1 rec1 Hw1 Hwf1 Hc1)
        as (l2 & h2 & rec2 & Hd2 & Hw2 & Hwf2 & Hc2 & Hl2 & Hlen2 & Hold2 & HE2).
      exists l2, h2, rec2. cbn [Logger.deriveAll]. rewrite Hd.
      split; [exact Hd2|]. split; [exact Hw2|]. split; [exact Hwf2|].
      split; [exact Hc2|]. split; [congruence|]. split; [lia|].
      split; [|congruence].
      intros a Ha. rewrite Hold2 by lia. apply Hold1. exact Ha. }
  destruct Hgen as (l' & h' & rec' & Hd & Hw' & Hwf' & Hc' & Hl' & _ & Hold & HE).
  exists l', h', rec'. repeat split; auto.
  intros lvl args Hlvl.
  apply (Logger_below l' h' lvl "" args). rewrite Hl'. exact Hlvl.
Qed.

(** X13. [WithError] binds the pair "error", err, also when the error is
    nil, and a second [WithError] adds a second pair after the first: the
    next entry carries the fields of the receiver's node followed by both
    pairs. *)
Theorem WithError_adds_a_pair (l : Logger.Logger) (h : Recorder.heap) rec ra
    err1 err2 lvl args :
  Logger.writer l = Some (Logger.recorder rec) ->
  Recorder.wf h -> h !! rec = Some ra -> Logger.level l <= lvl ->
  exists l1 h1 l2 h2 rec2 es h3,
    Logger.WithError l h err1 = Some (l1, h1)
    /\ Logger.WithError l1 h1 err2 = Some (l2, h2)
    /\ Logger.writer l2 = Some (Logger.recorder rec2)
    /\ Recorder.Entries h rec = Some es
    /\ Logger.Log l2 h2 lvl args = Some h3
    /\ Recorder.Entries h3 rec2
       = Some (es ++ [Recorder.mkLogEntry lvl "" args
                        (Recorder.fields ra
                         ++ [VStr "error"; err1; VStr "error"; err2])]).
Proof.
  intros Hw Hwf Hra Hlvl.
  destruct (wf_chain h rec ra Hwf Hra) as [root Hc].
  destruct (chain_root_node _ _ _ Hc) as [r [Hr _]].
  destruct (Logger_With_frame l h rec ra root [VStr "error"; err1] Hw Hwf Hra Hc)
    as (n1 & HW1 & Hf1 & Hn1 & Hwf1 & Hc1 & HE1).
  set (l1 := Logger.clone l (Logger.recorder (length h))) in *.
  destruct (Logger_With_frame l1 (h ++ [n1]) (length h) n1 root [VStr "error"; err2]
              eq_refl Hwf1 Hn1 Hc1)
    as (n2 & HW2 & Hf2 & Hn2 & Hwf2 & Hc2 & HE2).
  set (h1 := h ++ [n1]) in *.
  set (l2 := Logger.clone l1 (Logger.recorder (length h1))) in *.
  assert (Hr2 : (h1 ++ [n2]) !! root = Some r).
  { apply lookup_app_l_Some, lookup_app_l_Some. exact Hr. }
  destruct (Logger_forward l2 (h1 ++ [n2]) (length h1) n2 root r lvl "" args
              eq_refl Hwf2 Hn2 Hc2 Hr2 Hlvl) as (_ & _ & (h3 & HL & HE3) & _).
  exists l1, h1, l2, (h1 ++ [n2]), (length h1), (Recorder.entries r), h3.
  split; [exact HW1|]. split; [exact HW2|]. split; [reflexivity|].
  split; [eapply Entries_chain; eauto|]. split; [exact HL|].
  rewrite HE3, Hf2, Hf1, <- app_assoc. reflexivity.
Qed.




(** X15. [NewWithWriter] takes the level and the writer as given and puts
    the default middleware after the middlewares of the configuration.
    [WithContext] on the Logger it returns is [With] on the results of the
    configured middlewares, in their order, followed by the request id
    pair of the context; with [SkipDefaultMiddlewares] the request id is
    left out.  When these results are empty [WithContext] returns the
    receiver, as it does with [SkipDefaultMiddlewares] and no configured
    middleware. *)
Theorem NewWithWriter_middlewares (cfg : Logger.Config) (w : option Logger.Writer)
    (h : Recorder.heap) (ctx : Context) :
  let l := Logger.NewWithWriter cfg w in
  let fields := concat ((fun m => m ctx) <$> Logger.cfg_CtxMiddlewares cfg)
                ++ (if Logger.cfg_SkipDefaultMiddlewares cfg then []
                    else RequestIDMiddleware ctx) in
  Logger.writer l = w
  /\ Logger.level l = Logger.cfg_Level cfg
  /\ Logger.ctxMiddlewares l
     = Logger.cfg_CtxMiddlewares cfg
       ++ (if Logger.cfg_SkipDefaultMiddlewares cfg then [] else DefaultMiddlewares)
  /\ Logger.collectFields (Logger.ctxMiddlewares l) ctx [] = fields
  /\ Logger.WithContext l h ctx
     = match fields with
       | [] => Some (l, h)
       | _ => Logger.With l h fields
       end
  /\ (Logger.cfg_SkipDefaultMiddlewares cfg = true ->
      Logger.cfg_CtxMiddlewares cfg = [] ->
      Logger.WithContext l h ctx = Some (l, h)).
Proof.
  intros l fields.
  assert (Hms : Logger.ctxMiddlewares l
                = Logger.cfg_CtxMiddlewares cfg
                  ++ (if Logger.cfg_SkipDefaultMiddlewares cfg then []
                      else DefaultMiddlewares)).
  { unfold l, Logger.NewWithWriter.
    destruct (Logger.cfg_SkipDefaultMiddlewares cfg); cbn [Logger.ctxMiddlewares];
      [rewrite app_nil_r|]; reflexivity. }
  assert (Hfs : Logger.collectFields (Logger.ctxMiddlewares l) ctx [] = fields).
  { rewrite collectFields_concat, Hms, fmap_app, concat_app. unfold fields. simpl.
    destruct (Logger.cfg_SkipDefaultMiddlewares cfg); [reflexivity|].
    unfold DefaultMiddlewares. simpl. rewrite app_nil_r. reflexivity. }
  assert (HW : Logger.WithContext l h ctx
               = match fields with
                 | [] => Some (l, h)
                 | _ => Logger.With l h fields
                 end).
  { unfold Logger.WithContext. rewrite Hfs. destruct fields; reflexivity. }
  split.
  { unfold l, Logger.NewWithWriter.
    destruct (Logger.cfg_SkipDefaultMiddlewares cfg); reflexivity. }
  split.
  { unfold l, Logger.NewWithWriter.
    destruct (Logger.cfg_SkipDefaultMiddlewares cfg); reflexivity. }
  split; [exact Hms|]. split; [exact Hfs|]. split; [exact HW|].
  intros Hskip Hnil. rewrite HW. unfold fields. rewrite Hskip, Hnil. reflexivity.
Qed.

End LoggerMore.

Lemma shortcuts_log_at_their_level_witness :
  let h := [Recorder.mkRecorder [] false None []] in
  let l := Logger.mkLogger (Some (Logger.recorder 0%nat)) Level.ErrorLevel [] in
  Logger.Warn l h [Ctx.VStr "m"] = Some h
  /\ exists h',
      Logger.Fatalf l h "bye %d" [Ctx.VInt 1] = Some h'
      /\ Recorder.Entries h' 0
         = Some [Recorder.mkLogEntry Level.FatalLevel "bye %d" [Ctx.VInt 1] []].
Proof.
  intros h l.
  assert (Hwf : Recorder.wf h).
  { intros [|a] r p Ha Hp; simpl in Ha; try discriminate.
    injection Ha as <-. discriminate. }
  split.
  - destruct (shortcuts_log_at_their_level Logger.SWarn l h 0%nat _ "" [Ctx.VStr "m"]
                eq_refl Hwf eq_refl) as (es & _ & Hlow & _).
    apply Hlow. reflexivity.
  - destruct (shortcuts_log_at_their_level Logger.SFatalf l h 0%nat _ "bye %d"
                [Ctx.VInt 1] eq_refl Hwf eq_refl) as (es & HE & _ & Hhigh).
    destruct Hhigh as (h' & HL & HE'); [vm_compute; discriminate|].
    exists h'. split; [exact HL|].
    injection HE as <-. exact HE'.
Defined.

Lemma Cond_logs_at_the_chosen_level_witness :
  let h := [Recorder.mkRecorder [] false None []] in
  let l := Logger.mkLogger (Some (Logger.recorder 0%nat)) Level.InfoLevel [] in
  Logger.Cond l h true Level.DebugLevel Level.ErrorLevel [Ctx.VStr "ok"] = Some h.
Proof.
  intros h l.
  assert (Hwf : Recorder.wf h).
  { intros [|a] r p Ha Hp; simpl in Ha; try discriminate.
    injection Ha as <-. discriminate. }
  destruct (Cond_logs_at_the_chosen_level l h 0%nat _ true Level.DebugLevel
              Level.ErrorLevel "" [Ctx.VStr "ok"] eq_refl Hwf eq_refl)
    as (es & _ & Hlow & _).
  apply Hlow. reflexivity.
Defined.

Lemma derived_loggers_keep_the_sink_witness :
  let h := [Recorder.mkRecorder [] false None [Recorder.mkLogEntry 1 "" [] []]] in
  let l := Logger.NewWithWriter
             (Logger.mkConfig "" Level.WarningLevel None [] false false)
             (Some (Logger.recorder 0%nat)) in
  exists l' h' rec',
    Logger.deriveAll
      [Logger.DWith [Ctx.VStr "k"; Ctx.VInt 1];
       Logger.DWithContext (Ctx.NewContext Ctx.Background "abc-123");
       Logger.DWithError Ctx.VNil;
       Logger.DWithMiddleware []] (l, h) = Some (l', h')
    /\ Logger.level l' = Level.WarningLevel
    /\ Recorder.Entries h' rec' = Some [Recorder.mkLogEntry 1 "" [] []].
Proof.
  intros h l.
  assert (Hwf : Recorder.wf h).
  { intros [|a] r p Ha Hp; simpl in Ha; try discriminate.
    injection Ha as <-. discriminate. }
  assert (Hc0 : Recorder.chain h 0 0)
    by (eapply Recorder.chain_root; reflexivity).
  destruct (derived_loggers_keep_the_sink
              [Logger.DWith [Ctx.VStr "k"; Ctx.VInt 1];
               Logger.DWithContext (Ctx.NewContext Ctx.Background "abc-123");
               Logger.DWithError Ctx.VNil;
               Logger.DWithMiddleware []] l h 0%nat 0%nat eq_refl Hwf Hc0)
    as (l' & h' & rec' & Hd & _ & _ & _ & Hl & _ & HE & _).
  exists l', h', rec'. split; [exact Hd|]. split; [exact Hl|exact HE].
Defined.

Lemma WithError_adds_a_pair_witness :
  let h := [Recorder.mkRecorder [] false None []] in
  let l := Logger.mkLogger (Some (Logger.recorder 0%nat)) Level.DebugLevel [] in
  exists l1 h1 l2 h2 rec2 h3,
    Logger.WithError l h Ctx.VNil = Some (l1, h1)
    /\ Logger.WithError l1 h1 (Ctx.VErr "boom") = Some (l2, h2)
    /\ Logger.Log l2 h2 Level.ErrorLevel [] = Some h3
    /\ Recorder.Entries h3 rec2
       = Some [Recorder.mkLogEntry Level.ErrorLevel "" []
                 [Ctx.VStr "error"; Ctx.VNil; Ctx.VStr "error"; Ctx.VErr "boom"]].
Proof.
  intros h l.
  assert (Hwf : Recorder.wf h).
  { intros [|a] r p Ha Hp; simpl in Ha; try discriminate.
    injection Ha as <-. discriminate. }
  destruct (WithError_adds_a_pair l h 0%nat _ Ctx.VNil (Ctx.VErr "boom")
              Level.ErrorLevel [] eq_refl Hwf eq_refl)
    as (l1 & h1 & l2 & h2 & rec2 & es & h3 & H1 & H2 & _ & HE & HL & HE3).
  { vm_compute. discriminate. }
  exists l1, h1, l2, h2, rec2, h3.
  split; [exact H1|]. split; [exact H2|]. split; [exact HL|].
  injection HE as <-. exact HE3.
Defined.

Lemma NewWithWriter_middlewares_witness :
  let tenant : Ctx.CtxMiddleware := fun _ => [Ctx.VStr "tenant"; Ctx.VStr "t1"] in
  let cfg := Logger.mkConfig "" Level.InfoLevel None [tenant] false false in
  let skip := Logger.mkConfig "" Level.InfoLevel None [] true false in
  let h := [Recorder.mkRecorder [] false None []] in
  let ctx := Ctx.NewContext Ctx.Background "abc-123" in
  Logger.WithContext (Logger.NewWithWriter cfg (Some (Logger.recorder 0%nat))) h ctx
  = Logger.With (Logger.NewWithWriter cfg (Some (Logger.recorder 0%nat))) h
      [Ctx.VStr "tenant"; Ctx.VStr "t1"; Ctx.VStr "request_id"; Ctx.VStr "abc-123"]
  /\ Logger.WithContext (Logger.NewWithWriter skip (Some (Logger.recorder 0%nat))) h ctx
     = Some (Logger.NewWithWriter skip (Some (Logger.recorder 0%nat)), h).
Proof.
  intros tenant cfg skip h ctx. split.
  - apply (NewWithWriter_middlewares cfg (Some (Logger.recorder 0%nat)) h ctx).
  - apply (NewWithWriter_middlewares skip (Some (Logger.recorder 0%nat)) h ctx);
      reflexivity.
Defined.

(** ** More on SecretMask *)

Section MaskMore.
Import Mask Level.

Lemma find_skip re t : forall u,
  (forall k, (k < length u)%nat -> matchHere re (drop k (u ++ t)) = None) ->
  find re (u ++ t)
  = match find re t with
    | Some (u', m) => Some (u ++ u', m)
    | None => None
    end.
Proof.
  induction u as [|c u IH]; intros Hnone.
  - simpl. destruct (find re t) as [[u' m]|]; reflexivity.
  - pose proof (Hnone 0%nat) as H0. simpl in H0.
    cbn [app find]. rewrite H0 by lia.
    rewrite IH.
    + destruct (find re t) as [[u' m]|]; reflexivity.
    + intros k Hk. apply (Hnone (S k)). simpl. lia.
Qed.

(** [ReplaceAll] copies a text in which no match starts. *)
Lemma ReplaceAll_skip re mask u t :
  consumes re ->
  (forall k, (k < length u)%nat -> matchHere re (drop k (u ++ t)) = None) ->
  ReplaceAll re mask (u ++ t) = u ++ ReplaceAll re mask t.
Proof.
  intros Hc Hnone.
  rewrite (ReplaceAll_eq re mask (u ++ t) Hc), (ReplaceAll_eq re mask t Hc).
  rewrite (find_skip re t u Hnone).
  destruct (find re t) as [[u' [[g1 g2] rest]]|]; [|reflexivity].
  rewrite <- !app_assoc. reflexivity.
Qed.

Lemma lookup_segment {A} (a m b : list A) i :
  (length a <= i < length a + length m)%nat ->
  (a ++ m ++ b) !! i = m !! (i - length a)%nat.
Proof.
  intros Hi. rewrite lookup_app_r by lia. rewrite lookup_app_l by lia. reflexivity.
Qed.

(** Where a match of the password pattern that starts at [k] finds its
    letters and its three quotes. *)
Lemma pw_match_shape X k G g rest :
  matchHere patternPassword (drop k X) = Some (G, g, rest) ->
  exists j2 j3,
    (exists r, X !! k = Some r /\ (code r = 112 \/ code r = 80))
    /\ (forall i, (i < 8)%nat -> exists r, X !! (k + i)%nat = Some r /\ word (code r) = true)
    /\ (exists q, X !! (k + 8)%nat = Some q /\ code q = 34)
    /\ (k + 8 < j2)%nat
    /\ (exists q, X !! j2 = Some q /\ code q = 34)
    /\ (forall i, (k + 8 < i < j2)%nat -> exists r, X !! i = Some r /\ code r <> 34)
    /\ (j2 + 4 <= j3)%nat
    /\ (exists q, X !! j3 = Some q /\ code q = 34).
Proof.
  intros Hm.
  destruct (pw_match_inv _ _ _ _ Hm)
    as (mid & c & q & HX & -> & HG & Hmid & Hc & Hq & _).
  destruct (pw_head_lookup _ HG) as [_ Hlk].
  destruct (proj1 (headOf_pw G) HG)
    as (L & q1 & w1 & col & w2 & q2 & a & b & HGeq & HL & Hq1 & Hw1 & Hcol & Hw2 & Hq2 & _).
  pose proof (litText_length _ _ HL) as HlenL. simpl in HlenL.
  assert (Hat : forall i r, (drop k X) !! i = Some r -> X !! (k + i)%nat = Some r).
  { intros i r H. rewrite lookup_drop in H. exact H. }
  assert (HT : forall i r, G !! i = Some r -> X !! (k + i)%nat = Some r).
  { intros i r H. apply Hat. rewrite HX. apply lookup_app_l_Some. exact H. }
  set (W := w1 ++ [col] ++ w2).
  assert (HlenW : length W = (length w1 + 1 + length w2)%nat).
  { unfold W. rewrite !length_app. simpl. lia. }
  assert (HG3 : G = (L ++ [q1]) ++ W ++ q2 :: [a; b]).
  { rewrite HGeq. unfold W. rewrite <- !app_assoc. reflexivity. }
  assert (HlenG : length G = (9 + length W + 3)%nat).
  { rewrite HG3, !length_app, HlenL. simpl. lia. }
  assert (HW : forall r, r ∈ W -> code r <> 34).
  { intros r Hr. unfold W in Hr. rewrite !elem_of_app in Hr.
    unfold codeIs in Hw1, Hw2. rewrite Forall_forall in Hw1, Hw2.
    destruct Hr as [Hr|[Hr|Hr]].
    - apply Hw1, space_codes in Hr. tauto.
    - apply list_elem_of_singleton in Hr. subst r. rewrite Hcol. discriminate.
    - apply Hw2, space_codes in Hr. tauto. }
  exists (k + (9 + length W))%nat, (k + (length G + length mid + 1))%nat.
  split.
  { destruct (lookup_lt_is_Some_2 G 0) as [r Hr]; [lia|].
    exists r. split; [replace k with (k + 0)%nat by lia; apply HT; exact Hr|].
    destruct (Hlk _ _ Hr) as (_ & H0 & _). apply H0. reflexivity. }
  split.
  { intros i Hi. destruct (lookup_lt_is_Some_2 G i) as [r Hr]; [lia|].
    exists r. split; [apply HT; exact Hr|].
    destruct (Hlk _ _ Hr) as (Hw & _). apply Hw. exact Hi. }
  split.
  { exists q1. split; [|exact Hq1]. apply HT. rewrite HGeq.
    replace 8%nat with (length L) by exact HlenL.
    apply list_lookup_middle. reflexivity. }
  split; [lia|].
  split.
  { exists q2. split; [|exact Hq2]. apply HT. rewrite HG3, app_assoc.
    apply list_lookup_middle. rewrite length_app, length_app, HlenL. simpl. lia. }
  split.
  { intros i Hi.
    destruct (lookup_lt_is_Some_2 G (i - k)) as [r Hr]; [lia|].
    exists r. split; [replace i with (k + (i - k))%nat by lia; apply HT; exact Hr|].
    rewrite HG3 in Hr.
    rewrite lookup_segment in Hr by (rewrite length_app, HlenL; simpl; lia).
    apply HW. eapply list_elem_of_lookup_2; exact Hr. }
  split; [lia|].
  exists q. split; [|exact Hq]. apply Hat. rewrite HX.
  replace (G ++ mid ++ c :: q :: rest) with ((G ++ mid ++ [c]) ++ q :: rest)
    by (rewrite <- !app_assoc; reflexivity).
  apply list_lookup_middle. rewrite !length_app. simpl. lia.
Qed.

(** No match of the password pattern starts in a text that has no quote
    nine characters after a letter p. *)
Lemma pw_none_without_quote X :
  (forall i q, X !! i = Some q -> code q <> 34) ->
  forall k, matchHere patternPassword (drop k X) = None.
Proof.
  intros Hnq k.
  destruct (matchHere patternPassword (drop k X)) as [[[G g] rest]|] eqn:Hm;
    [|reflexivity].
  destruct (pw_match_shape _ _ _ _ _ Hm) as (j2 & j3 & _ & _ & (q & Hq & Hq34) & _).
  exfalso. exact (Hnq _ _ Hq Hq34).
Qed.

Lemma asciiRunes_lookup p i r :
  asciiRunes p !! i = Some r ->
  exists a, p !! i = Some a /\ r = mkRune (byte_of a) [a].
Proof.
  unfold asciiRunes. rewrite list_lookup_fmap.
  destruct (p !! i) as [a|]; simpl; [|discriminate].
  intros [= <-]. eauto.
Qed.

Lemma asciiRunes_Forall (P : Z -> Prop) p :
  Forall (fun a => P (byte_of a)) p ->
  forall i r, asciiRunes p !! i = Some r -> P (code r).
Proof.
  intros H i r Hr. destruct (asciiRunes_lookup _ _ _ Hr) as (a & Ha & ->).
  rewrite Forall_forall in H. apply H. eapply list_elem_of_lookup_2; eauto.
Qed.

Lemma decode_ascii p :
  Forall asciiByte p -> decode p = asciiRunes p.
Proof.
  intros H. rewrite <- (app_nil_r p) at 1.
  rewrite decode_asciiRunes by exact H.
  rewrite decode_nil, app_nil_r. reflexivity.
Qed.

Lemma anyCase_litText str p : anyCase str p -> litText str (asciiRunes p).
Proof.
  unfold anyCase, litText, asciiRunes. intros H.
  induction H as [|a c s p Hac H IH]; simpl; constructor; assumption.
Qed.

Lemma anyCase_length str p : anyCase str p -> length p = String.length str.
Proof.
  intros H. apply anyCase_litText, litText_length in H.
  rewrite asciiRunes_length in H. exact H.
Qed.

Lemma anyCase_ascii str p :
  Forall (fun a => byte_of a < 128) (list_ascii_of_string str) ->
  anyCase str p -> Forall asciiByte p.
Proof.
  unfold anyCase. intros Hs H.
  induction H as [|a c s p Hac H IH]; [constructor|].
  inversion Hs as [|? ? Ha Hs']; subst. constructor; [|apply IH; exact Hs'].
  unfold asciiByte. pose proof (byte_of_range c) as Hc.
  unfold lit, isLower in Hac.
  repeat rewrite ?orb_true_iff, ?andb_true_iff, ?Z.eqb_eq, ?Z.leb_le in Hac. lia.
Qed.

Lemma spaceByte_ascii a : spaceByte a -> byte_of a < 128.
Proof.
  unfold spaceByte, space. intros H.
  repeat rewrite ?orb_true_iff, ?Z.eqb_eq in H. lia.
Qed.

Lemma lineEnd_decode post :
  lineEnd post ->
  match decode post with
  | c :: _ => notCRLF (code c) = false
  | [] => True
  end.
Proof.
  destruct post as [|a post]; intros H; [rewrite decode_nil; exact I|].
  simpl in H. rewrite decode_ascii_cons by (destruct H; lia).
  cbn [code]. unfold notCRLF. destruct H as [-> | ->]; reflexivity.
Qed.

(** X16. A header line: the name [Authorization:] in any case, any white
    space, a scheme of word characters, one white space character, and a
    token made of three word characters and at least three more ASCII
    characters, up to the end of the buffer or a line break.  [SecretMask]
    keeps everything up to the third character of the token, writes five
    stars, keeps the last three characters of the line, and masks what
    follows the line break as it would on its own. *)
Theorem SecretMask_authorization_line
    (name ws scheme t3 mid l3 post : list ascii) (sep : ascii) :
  anyCase "authorization:" name ->
  Forall spaceByte ws ->
  scheme <> [] -> Forall wordByte scheme ->
  spaceByte sep ->
  length t3 = 3%nat -> Forall wordByte t3 ->
  length l3 = 3%nat -> Forall lineByte (mid ++ l3) ->
  lineEnd post ->
  SecretMask (name ++ ws ++ scheme ++ [sep] ++ t3 ++ mid ++ l3 ++ post)
  = name ++ ws ++ scheme ++ [sep] ++ t3 ++ bytes "*****" ++ l3 ++ SecretMask post.
Proof.
  intros Hname Hws Hne Hsch Hsep Ht3len Ht3 Hl3len Hline Hpost.
  set (H := name ++ ws ++ scheme ++ [sep] ++ t3).
  set (G1 := asciiRunes H).
  set (L3 := asciiRunes l3).
  set (P := decode post).
  assert (HasciiH : Forall (fun a => byte_of a < 128) H).
  { unfold H. repeat apply Forall_app_2.
    - apply (anyCase_ascii "authorization:"); [repeat constructor|exact Hname].
    - eapply Forall_impl; [exact Hws|]. exact spaceByte_ascii.
    - eapply Forall_impl; [exact Hsch|]. exact wordByte_ascii.
    - constructor; [apply spaceByte_ascii; exact Hsep|constructor].
    - eapply Forall_impl; [exact Ht3|]. exact wordByte_ascii. }
  assert (Hdec : decode (name ++ ws ++ scheme ++ [sep] ++ t3 ++ mid ++ l3 ++ post)
                 = G1 ++ asciiRunes (mid ++ l3) ++ P).
  { replace (name ++ ws ++ scheme ++ [sep] ++ t3 ++ mid ++ l3 ++ post)
      with ((H ++ mid ++ l3) ++ post)
      by (unfold H; rewrite <- !app_assoc; reflexivity).
    rewrite decode_asciiRunes.
    - unfold G1. rewrite asciiRunes_app, <- app_assoc. reflexivity.
    - apply Forall_app_2; [exact HasciiH|].
      eapply Forall_impl; [exact Hline|]. intros a [Ha _]. exact Ha. }
  assert (HG1 : headOf patternAuthorization G1).
  { apply headOf_auth.
    exists (asciiRunes name), (asciiRunes ws), (asciiRunes scheme),
      (mkRune (byte_of sep) [sep]), (asciiRunes t3).
    split; [unfold G1, H; rewrite !asciiRunes_app; reflexivity|].
    split; [apply anyCase_litText; exact Hname|].
    split; [apply asciiRunes_codeIs; exact Hws|].
    split; [apply asciiRunes_codeIs; exact Hsch|].
    split; [destruct scheme; [contradiction|discriminate]|].
    split; [exact Hsep|].
    split; [apply asciiRunes_codeIs; exact Ht3|].
    rewrite asciiRunes_length. exact Ht3len. }
  pose proof (lineEnd_decode post Hpost) as HP. fold P in HP.
  set (M := asciiRunes (mid ++ l3)).
  assert (Hall : codeIs notCRLF M).
  { apply asciiRunes_codeIs. eapply Forall_impl; [exact Hline|].
    intros a [_ Ha]. exact Ha. }
  assert (HlenM : length M = (length mid + 3)%nat).
  { unfold M. rewrite asciiRunes_length, length_app. lia. }
  assert (Hn : spanLen notCRLF (M ++ P) = (length mid + 3)%nat).
  { rewrite spanLen_exact; [exact HlenM|exact Hall|exact HP]. }
  assert (HM : M = asciiRunes mid ++ L3) by apply asciiRunes_app.
  assert (Hmatch : matchHere patternAuthorization (G1 ++ M ++ P) = Some (G1, L3, P)).
  { apply matchHere_intro; [exact separated_auth|exact HG1|].
    rewrite matchTail_auth. cbv zeta. rewrite Hn.
    destruct (Nat.leb_spec 3 (length mid + 3)) as [_|]; [|lia].
    assert (E1 : drop (length mid + 3) (M ++ P) = P)
      by (rewrite <- HlenM; apply drop_app_length).
    assert (E2 : take 3 (drop (length mid + 3 - 3) (M ++ P)) = L3).
    { replace (length mid + 3 - 3)%nat with (length (asciiRunes mid))
        by (rewrite asciiRunes_length; lia).
      rewrite HM, <- app_assoc, drop_app_length.
      apply take_app_length'. unfold L3. rewrite asciiRunes_length. lia. }
    rewrite E1, E2. reflexivity. }
  assert (HA : maskAuthorization (G1 ++ M ++ P)
               = (G1 ++ asciiRunes (bytes "*****") ++ L3) ++ maskAuthorization P).
  { unfold maskAuthorization. rewrite (ReplaceAll_eq _ _ _ consumes_auth).
    pose proof (find_intro _ _ _ [] Hmatch) as Hfind.
    change ([] ++ G1 ++ M ++ P) with (G1 ++ M ++ P) in Hfind.
    rewrite Hfind by (simpl; intros; lia).
    change ([] ++ ?x) with x. rewrite <- !app_assoc. reflexivity. }
  set (MH := G1 ++ asciiRunes (bytes "*****") ++ L3) in *.
  set (Y := maskAuthorization P) in *.
  assert (HY : match Y with c :: _ => notCRLF (code c) = false | [] => True end).
  { unfold Y, maskAuthorization.
    apply (ReplaceAll_head_cond patternAuthorization _
             (fun c => notCRLF (code c) = false) P consumes_auth HP). }
  assert (HlenMH : length MH = (length G1 + 8)%nat).
  { unfold MH, L3. rewrite !length_app, !asciiRunes_length, Hl3len. reflexivity. }
  assert (Hcodes : forall i r, (MH ++ Y) !! i = Some r ->
            ((i < length G1)%nat -> code r <> 34)
            /\ ((length G1 <= i < length G1 + 5)%nat -> code r = 42)
            /\ (i = (length G1 + 8)%nat -> code r = 13 \/ code r = 10)).
  { intros i r Hr. split; [|split].
    - intros Hi. unfold MH in Hr. rewrite <- !app_assoc in Hr.
      rewrite lookup_app_l in Hr by exact Hi.
      destruct (auth_head_codes _ _ _ HG1 Hr) as (_ & H34 & _). exact H34.
    - intros Hi. unfold MH in Hr. rewrite <- !app_assoc in Hr.
      replace i with (length G1 + (i - length G1))%nat in Hr by lia.
      change (asciiRunes (bytes "*****")) with (replicate 5 starRune) in Hr.
      rewrite lookup_stars in Hr by lia. injection Hr as <-. reflexivity.
    - intros ->. rewrite lookup_app_r in Hr by lia.
      rewrite HlenMH, Nat.sub_diag in Hr.
      destruct Y as [|c Y']; [discriminate|]. simpl in Hr. injection Hr as <-.
      unfold notCRLF in HY. apply negb_false_iff in HY.
      rewrite orb_true_iff, !Z.eqb_eq in HY. exact HY. }
  assert (HPw : maskPassword (MH ++ Y) = MH ++ maskPassword Y).
  { unfold maskPassword. apply ReplaceAll_skip; [exact consumes_pw|].
    intros k Hk.
    destruct (matchHere patternPassword (drop k (MH ++ Y))) as [[[G g] rest]|] eqn:Hm;
      [|reflexivity].
    exfalso.
    destruct (pw_match_shape _ _ _ _ _ Hm)
      as (j2 & j3 & (r0 & Hr0 & Hp) & Hword & (q & Hq & Hq34) & _).
    rewrite HlenMH in Hk.
    destruct (Hcodes _ _ Hq) as (Hq1 & Hq2 & Hq3).
    destruct (Hcodes _ _ Hr0) as (_ & Hr2 & _).
    destruct (decide (k + 8 < length G1)%nat) as [Ha|Ha]; [apply Hq1; auto|].
    destruct (decide (k + 8 < length G1 + 5)%nat) as [Hb|Hb].
    { rewrite Hq2 in Hq34 by lia. discriminate. }
    destruct (decide (k + 8 = length G1 + 8)%nat) as [Hc|Hc].
    { destruct Hq3 as [Hq3|Hq3]; [exact Hc|rewrite Hq3 in Hq34; discriminate
                                   |rewrite Hq3 in Hq34; discriminate]. }
    destruct (decide (k < length G1)%nat) as [Hd|Hd].
    - (* the window of letters crosses the stars *)
      destruct (Hword (length G1 - k)%nat) as (r & Hr & Hw); [lia|].
      replace (k + (length G1 - k))%nat with (length G1) in Hr by lia.
      destruct (Hcodes _ _ Hr) as (_ & Hs & _).
      apply word_codes in Hw. rewrite Hs in Hw by lia. tauto.
    - (* the window of letters crosses the line break *)
      destruct (Hword (length G1 + 8 - k)%nat) as (r & Hr & Hw); [lia|].
      replace (k + (length G1 + 8 - k))%nat with (length G1 + 8)%nat in Hr by lia.
      destruct (Hcodes _ _ Hr) as (_ & _ & Hs).
      apply word_codes in Hw. destruct Hs as [Hs|Hs]; [reflexivity|lia|lia]. }
  assert (Hrun : maskRunes (G1 ++ M ++ P) = MH ++ maskRunes P).
  { change (maskRunes (G1 ++ M ++ P))
      with (maskPassword (maskAuthorization (G1 ++ M ++ P))).
    rewrite HA, HPw. reflexivity. }
  unfold SecretMask. rewrite Hdec. fold M. rewrite Hrun, encode_app.
  unfold MH, G1, L3, H.
  rewrite <- !asciiRunes_app, encode_asciiRunes, <- !app_assoc. reflexivity.
Qed.

Lemma no_auth_suffix A P :
  find patternAuthorization (A ++ P) = None -> maskAuthorization P = P.
Proof.
  intros Hf. unfold maskAuthorization.
  rewrite (ReplaceAll_eq _ _ _ consumes_auth).
  rewrite find_none_intro; [reflexivity|].
  intros k. pose proof (find_None _ _ Hf (length A + k)%nat) as H.
  rewrite <- drop_drop, drop_app_length in H. exact H.
Qed.

Lemma keyPart_head name ws1 ws2 a b :
  anyCase "password" name -> Forall spaceByte ws1 -> Forall spaceByte ws2 ->
  byte_of a <> 10 -> byte_of b <> 10 ->
  headOf patternPassword (asciiRunes (keyPart name ws1 ws2 ++ [a; b])).
Proof.
  intros Hname Hws1 Hws2 Ha Hb. apply headOf_pw.
  exists (asciiRunes name), (mkRune 34 [quote]), (asciiRunes ws1),
    (mkRune 58 [":"%char]), (asciiRunes ws2), (mkRune 34 [quote]),
    (mkRune (byte_of a) [a]), (mkRune (byte_of b) [b]).
  split.
  { unfold keyPart. rewrite <- !app_assoc, !asciiRunes_app. reflexivity. }
  split; [apply anyCase_litText; exact Hname|].
  split; [reflexivity|].
  split; [apply asciiRunes_codeIs; exact Hws1|].
  split; [reflexivity|].
  split; [apply asciiRunes_codeIs; exact Hws2|].
  split; [reflexivity|].
  cbn [code]. unfold dot.
  split; apply negb_true_iff, Z.eqb_neq; assumption.
Qed.

Lemma keyPart_ascii name ws1 ws2 :
  anyCase "password" name -> Forall spaceByte ws1 -> Forall spaceByte ws2 ->
  Forall (fun a => byte_of a < 128) (keyPart name ws1 ws2).
Proof.
  intros Hname Hws1 Hws2. unfold keyPart. repeat apply Forall_app_2.
  - apply (anyCase_ascii "password"); [repeat constructor|exact Hname].
  - repeat constructor.
  - eapply Forall_impl; [exact Hws1|]. exact spaceByte_ascii.
  - repeat constructor.
  - eapply Forall_impl; [exact Hws2|]. exact spaceByte_ascii.
  - repeat constructor.
Qed.

(** X17. A quoted value after the key [password] (in any case), on a
    buffer in which the authorization pattern matches nowhere.  The text
    before the key is ASCII and has no letter p.  The key is followed by a
    quote, white space, a colon, white space and the opening quote.  The
    value starts with two ASCII characters that are not line feeds, goes
    on with ASCII characters that are not quotes, and ends with one ASCII
    character that is neither a line feed nor a quote, before the closing
    quote.  After the closing quote the buffer ends, or goes on with an
    ASCII character that is not a quote.  Then [SecretMask] keeps the first
    two characters of the value, its last character and the closing quote,
    writes three stars in place of what lies between them, even when that
    is nothing, and masks what follows the closing quote as it would on
    its own. *)
Theorem SecretMask_password_value
    (pre name ws1 ws2 mid post : list ascii) (a b c : ascii) :
  Forall asciiByte pre -> Forall notP pre ->
  anyCase "password" name -> Forall spaceByte ws1 -> Forall spaceByte ws2 ->
  asciiByte a -> asciiByte b -> byte_of a <> 10 -> byte_of b <> 10 ->
  Forall asciiByte mid -> Forall (notByte 34) mid ->
  asciiByte c -> byte_of c <> 10 -> byte_of c <> 34 ->
  plainStart post ->
  find patternAuthorization
    (decode (pre ++ keyPart name ws1 ws2 ++ [a; b] ++ mid ++ [c; quote] ++ post))
  = None ->
  SecretMask (pre ++ keyPart name ws1 ws2 ++ [a; b] ++ mid ++ [c; quote] ++ post)
  = pre ++ keyPart name ws1 ws2 ++ [a; b] ++ bytes "***" ++ [c; quote]
    ++ SecretMask post.
Proof.
  intros Hpre HnoP Hname Hws1 Hws2 Ha Hb Ha10 Hb10 Hmid Hmidq Hc Hc10 Hc34 Hpost Hauth.
  set (K := keyPart name ws1 ws2 ++ [a; b]).
  set (U := asciiRunes pre). set (G := asciiRunes K). set (M := asciiRunes mid).
  set (rc := mkRune (byte_of c) [c]). set (rq := mkRune 34 [quote]).
  set (P := decode post).
  assert (HK : Forall (fun x => byte_of x < 128) K).
  { unfold K. apply Forall_app_2; [apply keyPart_ascii; assumption|].
    repeat constructor; assumption. }
  assert (Hbuf : pre ++ keyPart name ws1 ws2 ++ [a; b] ++ mid ++ [c; quote] ++ post
                 = (pre ++ K ++ mid ++ [c; quote]) ++ post).
  { unfold K. rewrite <- !app_assoc. reflexivity. }
  assert (Hdec : decode ((pre ++ K ++ mid ++ [c; quote]) ++ post)
                 = U ++ G ++ M ++ rc :: rq :: P).
  { rewrite decode_asciiRunes.
    - rewrite !asciiRunes_app. rewrite <- !app_assoc. reflexivity.
    - apply Forall_app_2; [exact Hpre|]. apply Forall_app_2; [exact HK|].
      apply Forall_app_2; [exact Hmid|].
      constructor; [exact Hc|]. constructor; [reflexivity|constructor]. }
  rewrite Hbuf in Hauth |- *. rewrite Hdec in Hauth.
  assert (HG : headOf patternPassword G) by (apply keyPart_head; assumption).
  assert (HP : quoteFree P).
  { unfold P. destruct post as [|a0 post']; [rewrite decode_nil; exact I|].
    destruct Hpost as [H0 H34]. rewrite decode_ascii_cons by exact H0.
    exact H34. }
  assert (Hmatch : matchHere patternPassword (G ++ M ++ rc :: rq :: P)
                   = Some (G, [rc; rq], P)).
  { apply pw_match_intro; [exact HG| | |reflexivity|].
    - apply asciiRunes_codeIs. eapply Forall_impl; [exact Hmidq|].
      intros x Hx. unfold notQuote. apply negb_true_iff, Z.eqb_neq. exact Hx.
    - unfold dot. apply negb_true_iff, Z.eqb_neq. exact Hc10.
    - right. split; [|exact HP].
      unfold notQuote. apply negb_true_iff, Z.eqb_neq. exact Hc34. }
  assert (Hfind : find patternPassword (U ++ G ++ M ++ rc :: rq :: P)
                  = Some (U, (G, [rc; rq], P))).
  { apply find_intro; [exact Hmatch|]. intros k Hk.
    destruct (matchHere patternPassword (drop k (U ++ G ++ M ++ rc :: rq :: P)))
      as [[[G' g'] rest']|] eqn:Hm; [|reflexivity].
    exfalso.
    destruct (pw_match_shape _ _ _ _ _ Hm) as (j2 & j3 & (r0 & Hr0 & Hp) & _).
    rewrite lookup_app_l in Hr0 by exact Hk.
    pose proof (asciiRunes_Forall (fun z => z <> 112 /\ z <> 80) pre HnoP k r0 Hr0)
      as Hnp.
    cbv beta in Hnp. lia. }
  assert (HA : maskAuthorization (U ++ G ++ M ++ rc :: rq :: P)
               = U ++ G ++ M ++ rc :: rq :: P).
  { apply (no_auth_suffix []). exact Hauth. }
  assert (HAP : maskAuthorization P = P).
  { apply (no_auth_suffix (U ++ G ++ M ++ [rc; rq])).
    rewrite <- !app_assoc. exact Hauth. }
  assert (Hrun : maskRunes (U ++ G ++ M ++ rc :: rq :: P)
                 = (U ++ G ++ asciiRunes (bytes "***") ++ [rc; rq]) ++ maskRunes P).
  { change (maskRunes (U ++ G ++ M ++ rc :: rq :: P))
      with (maskPassword (maskAuthorization (U ++ G ++ M ++ rc :: rq :: P))).
    rewrite HA. unfold maskPassword at 1.
    rewrite (ReplaceAll_eq _ _ _ consumes_pw), Hfind.
    change (maskRunes P) with (maskPassword (maskAuthorization P)).
    rewrite HAP. unfold maskPassword. rewrite <- !app_assoc. reflexivity. }
  unfold SecretMask at 1. rewrite Hdec, Hrun, encode_app.
  replace (U ++ G ++ asciiRunes (bytes "***") ++ [rc; rq])
    with (asciiRunes (pre ++ K ++ bytes "***" ++ [c; quote]))
    by (rewrite !asciiRunes_app; reflexivity).
  rewrite encode_asciiRunes. unfold K, SecretMask.
  rewrite <- !app_assoc. reflexivity.
Qed.

(** X18. A quoted value of fewer than three characters is not masked: on
    a buffer in which the authorization pattern does not match, whose text
    before the key is ASCII without the letter p and in which no quote
    follows the value, [SecretMask] returns the buffer as it is. *)
Theorem SecretMask_short_password (pre name ws1 ws2 v post : list ascii) :
  Forall asciiByte pre -> Forall notP pre ->
  anyCase "password" name -> Forall spaceByte ws1 -> Forall spaceByte ws2 ->
  (length v <= 2)%nat -> Forall asciiByte v -> Forall (notByte 34) v ->
  Forall asciiByte post -> Forall (notByte 34) post ->
  find patternAuthorization
    (decode (pre ++ keyPart name ws1 ws2 ++ v ++ [quote] ++ post)) = None ->
  SecretMask (pre ++ keyPart name ws1 ws2 ++ v ++ [quote] ++ post)
  = pre ++ keyPart name ws1 ws2 ++ v ++ [quote] ++ post.
Proof.
  intros Hpre HnoP Hname Hws1 Hws2 Hlen Hv Hvq Hpost Hpostq Hauth.
  set (W := ws1 ++ [":"%char] ++ ws2).
  set (buf := pre ++ keyPart name ws1 ws2 ++ v ++ [quote] ++ post) in *.
  assert (Hbuf : buf = pre ++ name ++ [quote] ++ W ++ [quote] ++ v ++ [quote] ++ post).
  { unfold buf, keyPart, W. rewrite <- !app_assoc. reflexivity. }
  assert (Hname8 : length name = 8%nat) by (apply (anyCase_length _ _ Hname)).
  assert (HlenW : (1 <= length W)%nat).
  { unfold W. rewrite !length_app. simpl. lia. }
  assert (Hascii : Forall asciiByte buf).
  { unfold buf. apply Forall_app_2; [exact Hpre|].
    apply Forall_app_2; [apply keyPart_ascii; assumption|].
    apply Forall_app_2; [exact Hv|].
    apply Forall_app_2; [|exact Hpost].
    constructor; [reflexivity|constructor]. }
  assert (HX : decode buf = asciiRunes buf) by (apply decode_ascii; exact Hascii).
  rewrite HX in Hauth.
  set (n0 := length pre).
  set (Q1 := (n0 + 8)%nat). set (Q2 := (Q1 + 1 + length W)%nat).
  set (Q3 := (Q2 + 1 + length v)%nat).
  (* the bytes of the buffer, position by position *)
  assert (Hw_name : forall x, x ∈ name -> word (byte_of x) = true).
  { intros x Hx. apply list_elem_of_lookup in Hx as [i Hi].
    pose proof (anyCase_litText _ _ Hname) as HL.
    assert (Hr : asciiRunes name !! i = Some (mkRune (byte_of x) [x])).
    { unfold asciiRunes. rewrite list_lookup_fmap, Hi. reflexivity. }
    assert (HG0 : headOf patternPassword
                    (asciiRunes (keyPart name [] [] ++ [quote; quote]))).
    { apply keyPart_head; try assumption; try constructor; vm_compute; discriminate. }
    destruct (pw_head_lookup _ HG0) as [_ Hlk].
    assert (Hi8 : (i < 8)%nat) by (apply lookup_lt_Some in Hi; lia).
    assert (Hr' : asciiRunes (keyPart name [] [] ++ [quote; quote]) !! i
                  = Some (mkRune (byte_of x) [x])).
    { unfold keyPart. rewrite <- !app_assoc, asciiRunes_app.
      apply lookup_app_l_Some. exact Hr. }
    destruct (Hlk _ _ Hr') as (Hw & _). apply Hw. exact Hi8. }
  assert (HW : forall x, x ∈ W -> word (byte_of x) = false /\ byte_of x <> 34).
  { intros x Hx. unfold W in Hx. rewrite !elem_of_app in Hx.
    rewrite Forall_forall in Hws1, Hws2.
    destruct Hx as [Hx|[Hx|Hx]].
    - pose proof (Hws1 _ Hx) as Hs. split; [apply space_not_word; exact Hs|].
      apply space_codes in Hs. tauto.
    - apply list_elem_of_singleton in Hx. subst x. split; [reflexivity|discriminate].
    - pose proof (Hws2 _ Hx) as Hs. split; [apply space_not_word; exact Hs|].
      apply space_codes in Hs. tauto. }
  assert (Hquotes : forall i x, buf !! i = Some x -> (Q1 <= i)%nat ->
            byte_of x = 34 -> i = Q1 \/ i = Q2 \/ i = Q3).
  { intros i x Hi Hge H34. rewrite Hbuf in Hi.
    rewrite lookup_app_r in Hi by (unfold Q1, n0 in Hge; lia).
    rewrite lookup_app_r in Hi by (unfold Q1, n0 in Hge; lia).
    fold n0 in Hi. rewrite Hname8 in Hi.
    destruct (i - n0 - 8)%nat as [|i1] eqn:E1; [left; unfold Q1; lia|].
    cbn [app lookup list_lookup] in Hi.
    apply lookup_app_Some in Hi as [Hi|[Hge1 Hi]].
    { apply list_elem_of_lookup_2 in Hi. apply HW in Hi. tauto. }
    destruct (i1 - length W)%nat as [|i2] eqn:E2;
      [right; left; unfold Q2, Q1; lia|].
    cbn [app lookup list_lookup] in Hi.
    apply lookup_app_Some in Hi as [Hi|[Hge2 Hi]].
    { apply list_elem_of_lookup_2 in Hi. rewrite Forall_forall in Hvq.
      apply Hvq in Hi. contradiction. }
    destruct (i2 - length v)%nat as [|i3] eqn:E3;
      [right; right; unfold Q3, Q2, Q1; lia|].
    cbn [app lookup list_lookup] in Hi.
    apply list_elem_of_lookup_2 in Hi. rewrite Forall_forall in Hpostq.
    apply Hpostq in Hi. contradiction. }
  assert (HQ2 : buf !! Q2 = Some quote).
  { rewrite Hbuf.
    replace (pre ++ name ++ [quote] ++ W ++ [quote] ++ v ++ [quote] ++ post)
      with ((pre ++ name ++ [quote] ++ W) ++ quote :: v ++ [quote] ++ post)
      by (rewrite <- !app_assoc; reflexivity).
    apply list_lookup_middle. rewrite !length_app, Hname8. simpl.
    unfold Q2, Q1, n0. lia. }
  assert (HQ2' : exists x, buf !! (Q2 - 1)%nat = Some x /\ word (byte_of x) = false).
  { destruct (lookup_lt_is_Some_2 W (length W - 1)) as [x Hx]; [lia|].
    exists x. split; [|apply HW; eapply list_elem_of_lookup_2; exact Hx].
    rewrite Hbuf.
    replace (pre ++ name ++ [quote] ++ W ++ [quote] ++ v ++ [quote] ++ post)
      with ((pre ++ name ++ [quote]) ++ W ++ ([quote] ++ v ++ [quote] ++ post))
      by (rewrite <- !app_assoc; reflexivity).
    rewrite lookup_segment by (rewrite !length_app, Hname8; simpl;
                               unfold Q2, Q1, n0; lia).
    rewrite <- Hx. f_equal. rewrite !length_app, Hname8. simpl.
    unfold Q2, Q1, n0. lia. }
  assert (Hrune : forall i r, asciiRunes buf !! i = Some r ->
            exists x, buf !! i = Some x /\ code r = byte_of x).
  { intros i r Hr. destruct (asciiRunes_lookup _ _ _ Hr) as (x & Hx & ->). eauto. }
  assert (Hpw : find patternPassword (asciiRunes buf) = None).
  { apply find_none_intro. intros k.
    destruct (matchHere patternPassword (drop k (asciiRunes buf)))
      as [[[G g] rest]|] eqn:Hm; [|reflexivity].
    exfalso.
    destruct (pw_match_shape _ _ _ _ _ Hm)
      as (j2 & j3 & (r0 & Hr0 & Hp) & Hword & (q1 & Hq1 & Hq1c) & Hj2
          & (q2 & Hq2 & Hq2c) & Hbetween & Hj3 & (q3 & Hq3 & Hq3c)).
    destruct (decide (k < n0)%nat) as [Hk|Hk].
    { destruct (Hrune _ _ Hr0) as (x & Hx & Hcx).
      rewrite Hbuf, lookup_app_l in Hx by exact Hk.
      apply list_elem_of_lookup_2 in Hx. rewrite Forall_forall in HnoP.
      destruct (HnoP _ Hx). lia. }
    destruct (Hrune _ _ Hq1) as (x1 & Hx1 & Hc1).
    destruct (Hrune _ _ Hq2) as (x2 & Hx2 & Hc2).
    destruct (Hrune _ _ Hq3) as (x3 & Hx3 & Hc3).
    assert (H1 : (k + 8 = Q1 \/ k + 8 = Q2 \/ k + 8 = Q3)%nat)
      by (apply (Hquotes _ x1 Hx1); [unfold Q1; lia|congruence]).
    assert (H2 : (j2 = Q1 \/ j2 = Q2 \/ j2 = Q3)%nat)
      by (apply (Hquotes _ x2 Hx2); [unfold Q1; lia|congruence]).
    assert (H3 : (j3 = Q1 \/ j3 = Q2 \/ j3 = Q3)%nat)
      by (apply (Hquotes _ x3 Hx3); [unfold Q1; lia|congruence]).
    destruct H1 as [H1|[H1|H1]].
    - (* the key is the one of the buffer: the closing quote is too near *)
      destruct H2 as [H2|[H2|H2]]; [unfold Q2, Q3 in *; lia| |].
      + unfold Q3 in *. lia.
      + destruct (Hbetween Q2) as (r & Hr & Hr34); [unfold Q3, Q2 in *; lia|].
        destruct (Hrune _ _ Hr) as (x & Hx & Hcx).
        rewrite HQ2 in Hx. injection Hx as <-. apply Hr34. rewrite Hcx. reflexivity.
    - (* the eight letters would end on the colon or on white space *)
      destruct (Hword 7%nat) as (r & Hr & Hw); [lia|].
      replace (k + 7)%nat with (Q2 - 1)%nat in Hr by lia.
      destruct HQ2' as (x & Hx & Hxw).
      destruct (Hrune _ _ Hr) as (x' & Hx' & Hcx).
      rewrite Hx in Hx'. injection Hx' as <-. congruence.
    - (* the eight letters would cross the opening quote *)
      destruct (Hword (Q2 - k)%nat) as (r & Hr & Hw); [unfold Q3 in *; lia|].
      replace (k + (Q2 - k))%nat with Q2 in Hr by (unfold Q3 in *; lia).
      destruct (Hrune _ _ Hr) as (x & Hx & Hcx).
      rewrite HQ2 in Hx. injection Hx as <-. rewrite Hcx in Hw. discriminate Hw. }
  unfold SecretMask. rewrite HX. unfold maskRunes.
  rewrite (ReplaceAll_eq _ _ _ consumes_auth), Hauth.
  rewrite (ReplaceAll_eq _ _ _ consumes_pw), Hpw.
  apply encode_asciiRunes.
Qed.

End MaskMore.

Lemma SecretMask_authorization_line_witness :
  Mask.SecretMask
    (Mask.bytes "AUTHORIZATION:" ++ [] ++ Mask.bytes "Basic" ++ [ascii_of_nat 9]
     ++ Mask.bytes "dXN" ++ Mask.bytes "lcjpwY" ++ Mask.bytes "XNz"
     ++ ascii_of_nat 10 :: Mask.bytes "Host: example")
  = Mask.bytes "AUTHORIZATION:Basic" ++ [ascii_of_nat 9] ++ Mask.bytes "dXN*****XNz"
    ++ ascii_of_nat 10 :: Mask.bytes "Host: example".
Proof.
  etransitivity.
  - apply (SecretMask_authorization_line
             (Mask.bytes "AUTHORIZATION:") [] (Mask.bytes "Basic")
             (Mask.bytes "dXN") (Mask.bytes "lcjpwY") (Mask.bytes "XNz")
             (ascii_of_nat 10 :: Mask.bytes "Host: example") (ascii_of_nat 9)).
    + repeat constructor.
    + constructor.
    + discriminate.
    + repeat constructor.
    + reflexivity.
    + reflexivity.
    + repeat constructor.
    + reflexivity.
    + repeat constructor.
    + right. reflexivity.
  - reflexivity.
Defined.

Lemma SecretMask_password_value_witness :
  let q := Mask.quote in
  Mask.SecretMask
    ((Mask.bytes "{" ++ q :: Mask.bytes "user")
     ++ Mask.keyPart (Mask.bytes "Password") [] [] ++ ["h"; "u"]%char
     ++ Mask.bytes "nter" ++ ["2"%char; q] ++ Mask.bytes ",")
  = Mask.bytes "{" ++ q :: Mask.bytes "userPassword" ++ q :: Mask.bytes ":"
    ++ q :: Mask.bytes "hu***2" ++ q :: Mask.bytes ",".
Proof.
  intros q. etransitivity.
  - apply (SecretMask_password_value
             (Mask.bytes "{" ++ q :: Mask.bytes "user") (Mask.bytes "Password")
             [] [] (Mask.bytes "nter") (Mask.bytes ",") "h"%char "u"%char "2"%char).
    + repeat constructor.
    + repeat constructor; discriminate.
    + repeat constructor.
    + constructor.
    + constructor.
    + reflexivity.
    + reflexivity.
    + discriminate.
    + discriminate.
    + repeat constructor.
    + repeat constructor; discriminate.
    + reflexivity.
    + discriminate.
    + discriminate.
    + split; [reflexivity|discriminate].
    + reflexivity.
  - reflexivity.
Defined.

Lemma SecretMask_short_password_witness :
  let q := Mask.quote in
  Mask.SecretMask
    ((Mask.bytes "{" ++ [q]) ++ Mask.keyPart (Mask.bytes "password") [] []
     ++ Mask.bytes "ab" ++ [q] ++ Mask.bytes "}")
  = (Mask.bytes "{" ++ [q]) ++ Mask.keyPart (Mask.bytes "password") [] []
    ++ Mask.bytes "ab" ++ [q] ++ Mask.bytes "}".
Proof.
  intros q.
  apply (SecretMask_short_password
           (Mask.bytes "{" ++ [q]) (Mask.bytes "password") [] []
           (Mask.bytes "ab") (Mask.bytes "}")).
  - repeat constructor.
  - repeat constructor; discriminate.
  - repeat constructor.
  - constructor.
  - constructor.
  - simpl. lia.
  - repeat constructor.
  - repeat constructor; discriminate.
  - repeat constructor.
  - repeat constructor; discriminate.
  - reflexivity.
Defined.

Section ShortToken.
Import Mask Level.

(** Two ways of cutting a text after a run of characters of one class,
    each before a character outside the class, are the same. *)
Lemma span_unique (p : Z -> bool) (a b x y : list rune) :
  codeIs p a -> codeIs p b ->
  match x with c :: _ => p (code c) = false | [] => True end ->
  match y with c :: _ => p (code c) = false | [] => True end ->
  a ++ x = b ++ y -> a = b /\ x = y.
Proof.
  intros Ha Hb Hx Hy E.
  assert (Hlen : length a = length b).
  { rewrite <- (spanLen_exact p a x Ha Hx), <- (spanLen_exact p b y Hb Hy), E.
    reflexivity. }
  apply app_inj_1; assumption.
Qed.

Lemma word_notCRLF c : word c = true -> notCRLF c = true.
Proof.
  intros H. apply word_codes in H. unfold notCRLF.
  apply negb_true_iff, orb_false_iff. split; apply Z.eqb_neq; tauto.
Qed.

Lemma notCRLF_false c : notCRLF c = false -> c = 13 \/ c = 10.
Proof.
  unfold notCRLF. intros H. apply negb_false_iff in H.
  rewrite orb_true_iff, !Z.eqb_eq in H. exact H.
Qed.

(** X19. A header line whose token has fewer than six characters is not
    masked: after the name [Authorization:] in any case, white space, a
    scheme of word characters and one white space character, a token of
    at most five ASCII characters that ends the buffer or the line is kept
    as it is, and what follows the line break is masked as it would be on
    its own. *)
Theorem SecretMask_short_token (name ws scheme tok post : list ascii) (sep : ascii) :
  anyCase "authorization:" name ->
  Forall spaceByte ws ->
  scheme <> [] -> Forall wordByte scheme ->
  spaceByte sep ->
  (length tok <= 5)%nat -> Forall lineByte tok ->
  lineEnd post ->
  SecretMask (name ++ ws ++ scheme ++ [sep] ++ tok ++ post)
  = name ++ ws ++ scheme ++ [sep] ++ tok ++ SecretMask post.
Proof.
  intros Hname Hws Hne Hsch Hsep Hlen Htok Hpost.
  set (mid := ws ++ scheme ++ [sep]).
  set (B := name ++ mid ++ tok).
  set (N := asciiRunes name). set (Wm := asciiRunes mid). set (Tr := asciiRunes tok).
  set (P := decode post).
  assert (Hname14 : length name = 14%nat) by (apply (anyCase_length _ _ Hname)).
  assert (HlenN : length N = 14%nat) by (unfold N; rewrite asciiRunes_length; exact Hname14).
  assert (HlenWm : length Wm = (length ws + length scheme + 1)%nat).
  { unfold Wm, mid. rewrite asciiRunes_length, !length_app. simpl. lia. }
  assert (HlenTr : length Tr = length tok) by apply asciiRunes_length.
  assert (HasciiB : Forall (fun a => byte_of a < 128) B).
  { unfold B, mid. apply Forall_app_2.
    - apply (anyCase_ascii "authorization:"); [repeat constructor|exact Hname].
    - apply Forall_app_2.
      + apply Forall_app_2; [eapply Forall_impl; [exact Hws|exact spaceByte_ascii]|].
        apply Forall_app_2; [eapply Forall_impl; [exact Hsch|exact wordByte_ascii]|].
        constructor; [apply spaceByte_ascii; exact Hsep|constructor].
      + eapply Forall_impl; [exact Htok|]. intros a [Ha _]. exact Ha. }
  assert (Hdec : decode (name ++ ws ++ scheme ++ [sep] ++ tok ++ post)
                 = N ++ Wm ++ Tr ++ P).
  { replace (name ++ ws ++ scheme ++ [sep] ++ tok ++ post) with (B ++ post)
      by (unfold B, mid; rewrite <- !app_assoc; reflexivity).
    rewrite decode_asciiRunes by exact HasciiB.
    unfold B. rewrite !asciiRunes_app, <- !app_assoc. reflexivity. }
  pose proof (lineEnd_decode post Hpost) as HP. fold P in HP.
  (* the characters of the line *)
  assert (Hhead0 : headOf patternAuthorization (asciiRunes (name ++ bytes "x abc"))).
  { apply headOf_auth.
    exists N, [], (asciiRunes (bytes "x")), (mkRune 32 [" "%char]),
      (asciiRunes (bytes "abc")).
    split; [rewrite asciiRunes_app; reflexivity|].
    split; [apply anyCase_litText; exact Hname|].
    split; [constructor|]. split; [repeat constructor|].
    split; [discriminate|]. split; [reflexivity|].
    split; [repeat constructor|reflexivity]. }
  assert (Fname : forall Y i, (i < 14)%nat ->
            exists r, (N ++ Wm ++ Tr ++ Y) !! i = Some r
                      /\ code r <> 34 /\ (i = 13%nat -> code r = 58)).
  { intros Y i Hi.
    destruct (lookup_lt_is_Some_2 N i) as [r Hr]; [lia|].
    exists r. split; [apply lookup_app_l_Some; exact Hr|].
    assert (Hr' : asciiRunes (name ++ bytes "x abc") !! i = Some r).
    { rewrite asciiRunes_app. apply lookup_app_l_Some. exact Hr. }
    destruct (auth_head_codes _ _ _ Hhead0 Hr') as (_ & H34 & _).
    destruct (auth_head_lookup _ Hhead0) as (_ & Hl & _).
    destruct (Hl _ _ Hr') as (_ & H58 & _). auto. }
  assert (HWm : forall r, r ∈ Wm -> space (code r) = true \/ word (code r) = true).
  { intros r Hr. unfold Wm, mid in Hr. rewrite !asciiRunes_app, !elem_of_app in Hr.
    destruct Hr as [Hr|[Hr|Hr]].
    - left. apply list_elem_of_lookup in Hr as [i Hi].
      exact (asciiRunes_Forall (fun z => space z = true) ws Hws i r Hi).
    - right. apply list_elem_of_lookup in Hr as [i Hi].
      exact (asciiRunes_Forall (fun z => word z = true) scheme Hsch i r Hi).
    - left. apply list_elem_of_singleton in Hr. subst r. exact Hsep. }
  set (S := (13 + length Wm)%nat).
  set (E := (14 + length Wm + length Tr)%nat).
  assert (Fmid : forall Y i, (14 <= i <= S)%nat ->
            exists r, (N ++ Wm ++ Tr ++ Y) !! i = Some r
                      /\ (space (code r) = true \/ word (code r) = true)).
  { intros Y i Hi.
    destruct (lookup_lt_is_Some_2 Wm (i - 14)) as [r Hr]; [unfold S in Hi; lia|].
    exists r. split; [|apply HWm; eapply list_elem_of_lookup_2; exact Hr].
    rewrite lookup_segment by (rewrite HlenN; unfold S in Hi; lia).
    rewrite HlenN. exact Hr. }
  assert (Fsep : forall Y, exists r, (N ++ Wm ++ Tr ++ Y) !! S = Some r
                                     /\ space (code r) = true).
  { intros Y. exists (mkRune (byte_of sep) [sep]). split; [|exact Hsep].
    rewrite lookup_segment by (rewrite HlenN; unfold S; lia).
    rewrite HlenN. unfold S, Wm, mid.
    rewrite app_assoc, asciiRunes_app.
    replace (13 + length (asciiRunes (ws ++ scheme) ++ asciiRunes [sep]) - 14)%nat
      with (length (asciiRunes (ws ++ scheme)))
      by (rewrite length_app; simpl; lia).
    apply list_lookup_middle. reflexivity. }
  assert (Fend : forall Y r,
            match Y with c :: _ => notCRLF (code c) = false | [] => True end ->
            (N ++ Wm ++ Tr ++ Y) !! E = Some r -> code r = 13 \/ code r = 10).
  { intros Y r HY Hr.
    rewrite !app_assoc in Hr. rewrite lookup_app_r in Hr
      by (rewrite !length_app, HlenN; unfold E; lia).
    replace (E - length ((N ++ Wm) ++ Tr))%nat with 0%nat in Hr
      by (rewrite !length_app, HlenN; unfold E; lia).
    destruct Y as [|c Y']; [discriminate|]. simpl in Hr. injection Hr as <-.
    apply notCRLF_false. exact HY. }
  assert (HE : E = (S + 1 + length tok)%nat) by (unfold E, S; rewrite HlenTr; lia).
  (* no match of the authorization pattern starts on the line *)
  assert (HnoA : forall k, (k < length (N ++ Wm ++ Tr))%nat ->
            matchHere patternAuthorization (drop k ((N ++ Wm ++ Tr) ++ P)) = None).
  { intros k Hk. rewrite !length_app, HlenN in Hk.
    rewrite <- !app_assoc.
    destruct (matchHere patternAuthorization (drop k (N ++ Wm ++ Tr ++ P)))
      as [[[g1 g2] rest]|] eqn:Hm; [|reflexivity].
    exfalso.
    destruct (auth_match_inv _ _ _ _ Hm) as (s' & HX & Hg1 & Hspan & _ & _).
    destruct (auth_head_lookup _ Hg1) as (Hlen19 & Hl & _).
    assert (Hat : forall i r, g1 !! i = Some r ->
              (N ++ Wm ++ Tr ++ P) !! (k + i)%nat = Some r).
    { intros i r Hi. rewrite <- lookup_drop, HX. apply lookup_app_l_Some. exact Hi. }
    destruct (decide (k = 0%nat)) as [->|Hk0].
    - (* at the start of the line: the token is too short *)
      rewrite drop_0 in HX.
      destruct (proj1 (headOf_auth g1) Hg1)
        as (L & ws' & wd & c & w3 & -> & HL & Hws' & Hwd & Hwdne & Hc & Hw3 & Hw3len).
      pose proof (litText_length _ _ HL) as HlenL. simpl in HlenL.
      rewrite <- !app_assoc in HX.
      apply app_inj_1 in HX as [_ HX]; [|rewrite HlenN, HlenL; reflexivity].
      unfold Wm, mid in HX. rewrite !asciiRunes_app, <- !app_assoc in HX.
      symmetry in HX.
      apply span_unique with (p := space) in HX as [_ HX].
      2:{ exact Hws'. }
      2:{ apply asciiRunes_codeIs. exact Hws. }
      2:{ destruct wd as [|w0 wd']; [contradiction|]. simpl.
          apply word_not_space. inversion Hwd; assumption. }
      2:{ destruct scheme as [|s0 scheme']; [contradiction|]. simpl.
          apply word_not_space. inversion Hsch; assumption. }
      apply span_unique with (p := word) in HX as [_ HX].
      2:{ exact Hwd. }
      2:{ apply asciiRunes_codeIs. exact Hsch. }
      2:{ simpl. apply space_not_word. exact Hc. }
      2:{ simpl. apply space_not_word. exact Hsep. }
      simpl in HX. injection HX as _ HX.
      assert (H6 : (6 <= spanLen notCRLF (w3 ++ s'))%nat).
      { rewrite spanLen_app_all.
        - lia.
        - unfold codeIs in Hw3. eapply Forall_impl; [exact Hw3|].
          intros r Hr. apply word_notCRLF. exact Hr. }
      rewrite HX in H6. fold Tr in H6.
      rewrite spanLen_exact in H6; [lia| |exact HP].
      apply asciiRunes_codeIs. eapply Forall_impl; [exact Htok|].
      intros a [_ Ha]. exact Ha.
    - (* further on: the name would cross a space or the end of the line *)
      assert (Hword : forall i, (i < 13)%nat ->
                exists r, (N ++ Wm ++ Tr ++ P) !! (k + i)%nat = Some r
                          /\ word (code r) = true).
      { intros i Hi. destruct (lookup_lt_is_Some_2 g1 i) as [r Hr]; [lia|].
        exists r. split; [apply Hat; exact Hr|].
        destruct (Hl _ _ Hr) as (Hw & _). apply Hw. exact Hi. }
      assert (Hcolon : exists r, (N ++ Wm ++ Tr ++ P) !! (k + 13)%nat = Some r
                                 /\ code r = 58).
      { destruct (lookup_lt_is_Some_2 g1 13) as [r Hr]; [lia|].
        exists r. split; [apply Hat; exact Hr|].
        destruct (Hl _ _ Hr) as (_ & H58 & _). apply H58. reflexivity. }
      destruct Hcolon as (rc & Hrc & Hrc58).
      destruct (decide (k + 13 <= S)%nat) as [Ha|Ha].
      + destruct (Fmid P (k + 13)%nat) as (r & Hr & Hsw); [lia|].
        rewrite Hrc in Hr. injection Hr as <-.
        destruct Hsw as [Hs|Hw].
        * apply space_codes in Hs. tauto.
        * apply word_codes in Hw. tauto.
      + destruct (decide (k <= S)%nat) as [Hb|Hb].
        * destruct (Hword (S - k)%nat) as (r & Hr & Hw); [lia|].
          replace (k + (S - k))%nat with S in Hr by lia.
          destruct (Fsep P) as (r' & Hr' & Hs). rewrite Hr in Hr'. injection Hr' as <-.
          apply word_not_space in Hw. congruence.
        * destruct (Hword (E - k)%nat) as (r & Hr & Hw);
            [unfold E, S in *; rewrite HlenTr; lia|].
          replace (k + (E - k))%nat with E in Hr by (unfold E, S in *; lia).
          apply (Fend P r HP) in Hr. apply word_codes in Hw. lia. }
  assert (HA : maskAuthorization ((N ++ Wm ++ Tr) ++ P)
               = (N ++ Wm ++ Tr) ++ maskAuthorization P).
  { unfold maskAuthorization. apply ReplaceAll_skip; [exact consumes_auth|exact HnoA]. }
  set (Y := maskAuthorization P) in *.
  assert (HY : match Y with c :: _ => notCRLF (code c) = false | [] => True end).
  { unfold Y, maskAuthorization.
    apply (ReplaceAll_head_cond patternAuthorization _
             (fun c => notCRLF (code c) = false) P consumes_auth HP). }
  (* nor one of the password pattern *)
  assert (HnoP : forall k, (k < length (N ++ Wm ++ Tr))%nat ->
            matchHere patternPassword (drop k ((N ++ Wm ++ Tr) ++ Y)) = None).
  { intros k Hk. rewrite !length_app, HlenN in Hk.
    rewrite <- !app_assoc.
    destruct (matchHere patternPassword (drop k (N ++ Wm ++ Tr ++ Y)))
      as [[[G g] rest]|] eqn:Hm; [|reflexivity].
    exfalso.
    destruct (pw_match_shape _ _ _ _ _ Hm)
      as (j2 & j3 & _ & Hword & (q & Hq & Hq34) & _).
    destruct (decide (k + 8 < 14)%nat) as [Ha|Ha].
    { destruct (Fname Y (k + 8)%nat Ha) as (r & Hr & H34 & _).
      rewrite Hq in Hr. injection Hr as <-. contradiction. }
    destruct (decide (k < 14)%nat) as [Hb|Hb].
    { destruct (Hword (13 - k)%nat) as (r & Hr & Hw); [lia|].
      replace (k + (13 - k))%nat with 13%nat in Hr by lia.
      destruct (Fname Y 13%nat) as (r' & Hr' & _ & H58); [lia|].
      rewrite Hr in Hr'. injection Hr' as <-.
      apply word_codes in Hw. rewrite (H58 eq_refl) in Hw. tauto. }
    destruct (decide (k + 8 <= S)%nat) as [Hc|Hc].
    { destruct (Fmid Y (k + 8)%nat) as (r & Hr & Hsw); [lia|].
      rewrite Hq in Hr. injection Hr as <-.
      destruct Hsw as [Hs|Hw].
      - apply space_codes in Hs. tauto.
      - apply word_codes in Hw. tauto. }
    destruct (decide (k <= S)%nat) as [Hd|Hd].
    - destruct (Hword (S - k)%nat) as (r & Hr & Hw); [lia|].
      replace (k + (S - k))%nat with S in Hr by lia.
      destruct (Fsep Y) as (r' & Hr' & Hs). rewrite Hr in Hr'. injection Hr' as <-.
      apply word_not_space in Hw. congruence.
    - destruct (Hword (E - k)%nat) as (r & Hr & Hw);
        [unfold E, S in *; rewrite HlenTr; lia|].
      replace (k + (E - k))%nat with E in Hr by (unfold E, S in *; lia).
      apply (Fend Y r HY) in Hr. apply word_codes in Hw. lia. }
  assert (HPw : maskPassword ((N ++ Wm ++ Tr) ++ Y) = (N ++ Wm ++ Tr) ++ maskPassword Y).
  { unfold maskPassword. apply ReplaceAll_skip; [exact consumes_pw|exact HnoP]. }
  assert (Hrun : maskRunes ((N ++ Wm ++ Tr) ++ P) = (N ++ Wm ++ Tr) ++ maskRunes P).
  { change (maskRunes ((N ++ Wm ++ Tr) ++ P))
      with (maskPassword (maskAuthorization ((N ++ Wm ++ Tr) ++ P))).
    rewrite HA, HPw. reflexivity. }
  unfold SecretMask at 1. rewrite Hdec.
  replace (N ++ Wm ++ Tr ++ P) with ((N ++ Wm ++ Tr) ++ P)
    by (rewrite <- !app_assoc; reflexivity).
  rewrite Hrun, encode_app.
  replace (N ++ Wm ++ Tr) with (asciiRunes B)
    by (unfold B; rewrite !asciiRunes_app; reflexivity).
  rewrite encode_asciiRunes. unfold B, mid, SecretMask.
  rewrite <- !app_assoc. reflexivity.
Qed.

End ShortToken.

Lemma SecretMask_short_token_witness :
  Mask.SecretMask
    (Mask.bytes "Authorization:" ++ Mask.bytes " " ++ Mask.bytes "Bearer" ++ [" "%char]
     ++ Mask.bytes "s3cr3" ++ ascii_of_nat 10 :: Mask.bytes "ok")
  = Mask.bytes "Authorization: Bearer s3cr3" ++ ascii_of_nat 10 :: Mask.bytes "ok".
Proof.
  etransitivity.
  - apply (SecretMask_short_token
             (Mask.bytes "Authorization:") (Mask.bytes " ") (Mask.bytes "Bearer")
             (Mask.bytes "s3cr3") (ascii_of_nat 10 :: Mask.bytes "ok") " "%char).
    + repeat constructor.
    + repeat constructor.
    + discriminate.
    + repeat constructor.
    + reflexivity.
    + simpl. lia.
    + repeat constructor.
    + right. reflexivity.
  - reflexivity.
Defined.

(** ** A credential inside a text *)

Section CredentialInText.
Import Mask Level.

Lemma startsWith_app str L t :
  Forall2 (fun a c => lit (byte_of a) (code c) = true) str L ->
  startsWith str (L ++ t) = true.
Proof.
  intros H. induction H as [|a c str L Hac H IH]; simpl.
  - destruct t; reflexivity.
  - rewrite Hac, IH. reflexivity.
Qed.

Lemma spells_drop str : forall k t,
  startsWith str (drop k t) = true -> spells str t = true.
Proof.
  induction k as [|k IH]; intros t H.
  - rewrite drop_0 in H. destruct t; simpl in *; rewrite H; reflexivity.
  - destruct t as [|c t].
    + simpl in *. rewrite H. reflexivity.
    + simpl in H. cbn [spells]. rewrite (IH t H). apply orb_true_r.
Qed.

(** A text that begins, [k] characters into [U ++ V], with a word [W]
    that ends within [U]: the word is read in [U]. *)
Lemma window_in_prefix (U V W S : list rune) k :
  drop k (U ++ V) = W ++ S -> (k + length W <= length U)%nat ->
  exists S', drop k U = W ++ S'.
Proof.
  intros H Hk. exists (drop (length W) (drop k U)).
  rewrite drop_app_le in H by lia.
  assert (HW : W = take (length W) (drop k U)).
  { apply (f_equal (take (length W))) in H.
    rewrite take_app_le in H by (rewrite length_drop; lia).
    rewrite take_app_length in H. symmetry. exact H. }
  rewrite HW at 1. symmetry. apply take_drop.
Qed.

Lemma decode_before_ascii U a r :
  byte_of a < 128 -> decode (U ++ a :: r) = decode U ++ decode (a :: r).
Proof.
  intros Ha. rewrite <- (encode_decode U) at 1.
  apply (decode_app_ascii (decode U) []); [|exact Ha].
  rewrite app_nil_r. apply wellcut_decode.
Qed.

Lemma decode_before_asciis U m r :
  m <> [] -> Forall (fun a => byte_of a < 128) m ->
  decode (U ++ m ++ r) = decode U ++ asciiRunes m ++ decode r.
Proof.
  intros Hm Hall. destruct m as [|a m]; [contradiction|].
  change ((a :: m) ++ r) with (a :: (m ++ r)).
  rewrite decode_before_ascii by (inversion Hall; assumption).
  change (a :: (m ++ r)) with ((a :: m) ++ r).
  rewrite decode_asciiRunes by exact Hall. reflexivity.
Qed.

(** No match of the authorization pattern starts in a text that does not
    spell the name of the header, when a header follows it. *)
Lemma no_auth_before U G1 rest :
  headOf patternAuthorization G1 ->
  spells (bytes "authorization:") U = false ->
  forall k, (k < length U)%nat ->
    matchHere patternAuthorization (drop k (U ++ G1 ++ rest)) = None.
Proof.
  intros HG1 Hsp k Hk.
  destruct (matchHere patternAuthorization (drop k (U ++ G1 ++ rest)))
    as [[[g1 g2] rest']|] eqn:Hm; [|reflexivity].
  exfalso.
  destruct (auth_match_inv _ _ _ _ Hm) as (s' & HX & Hg1 & _).
  destruct (proj1 (headOf_auth g1) Hg1)
    as (L & ws & wd & c & w3 & Hg1eq & HL & _).
  pose proof (litText_length _ _ HL) as HlenL. simpl in HlenL.
  destruct (decide (k + 14 <= length U)%nat) as [Hin|Hout].
  - destruct (window_in_prefix U (G1 ++ rest) L (ws ++ wd ++ [c] ++ w3 ++ s') k)
      as [S' HS']; [|lia|].
    { rewrite HX, Hg1eq, <- !app_assoc. reflexivity. }
    assert (Hs : spells (bytes "authorization:") U = true).
    { apply (spells_drop _ k). rewrite HS'. apply startsWith_app. exact HL. }
    congruence.
  - destruct (auth_head_lookup _ Hg1) as (Hlen & Hlk & _).
    destruct (lookup_lt_is_Some_2 g1 13) as [r Hr]; [lia|].
    destruct (Hlk _ _ Hr) as (_ & Hcolon & _). specialize (Hcolon eq_refl).
    assert (HXr : (U ++ G1 ++ rest) !! (k + 13)%nat = Some r).
    { rewrite <- lookup_drop, HX. apply lookup_app_l_Some. exact Hr. }
    destruct (auth_head_lookup _ HG1) as (HlenG & HlkG & _).
    rewrite lookup_app_r in HXr by lia.
    rewrite lookup_app_l in HXr by lia.
    destruct (HlkG _ _ HXr) as (Hw & _).
    apply word_codes in Hw; [|lia]. lia.
Qed.

(** Nor does a match of the password pattern, in a text that does not
    spell the key and its quote. *)
Lemma no_pw_before U G1 rest :
  headOf patternAuthorization G1 ->
  spells (bytes "password" ++ [quote]) U = false ->
  forall k, (k < length U)%nat ->
    matchHere patternPassword (drop k (U ++ G1 ++ rest)) = None.
Proof.
  intros HG1 Hsp k Hk.
  destruct (matchHere patternPassword (drop k (U ++ G1 ++ rest)))
    as [[[G g] rest']|] eqn:Hm; [|reflexivity].
  exfalso.
  destruct (pw_match_inv _ _ _ _ Hm) as (mid & c & q & HX & _ & HG & _).
  destruct (proj1 (headOf_pw G) HG)
    as (L & q1 & w1 & col & w2 & q2 & a & b & HGeq & HL & Hq1 & _).
  pose proof (litText_length _ _ HL) as HlenL. simpl in HlenL.
  destruct (decide (k + 9 <= length U)%nat) as [Hin|Hout].
  - destruct (window_in_prefix U (G1 ++ rest) (L ++ [q1])
                (w1 ++ [col] ++ w2 ++ [q2] ++ [a; b] ++ mid ++ c :: q :: rest') k)
      as [S' HS'].
    { rewrite HX, HGeq, <- !app_assoc. reflexivity. }
    { rewrite length_app. simpl. lia. }
    assert (Hs : spells (bytes "password" ++ [quote]) U = true).
    { apply (spells_drop _ k). rewrite HS'. apply startsWith_app.
      apply Forall2_app; [exact HL|]. constructor; [|constructor].
      rewrite Hq1. reflexivity. }
    congruence.
  - assert (HXq : (U ++ G1 ++ rest) !! (k + 8)%nat = Some q1).
    { rewrite <- lookup_drop, HX. apply lookup_app_l_Some. rewrite HGeq.
      replace 8%nat with (length L) by exact HlenL.
      apply list_lookup_middle. reflexivity. }
    destruct (auth_head_lookup _ HG1) as (HlenG & _).
    rewrite lookup_app_r in HXq by lia.
    rewrite lookup_app_l in HXq by lia.
    destruct (auth_head_codes _ _ _ HG1 HXq) as (_ & H34 & _). contradiction.
Qed.

(** No match of the password pattern starts in a masked header line. *)
Lemma no_pw_in_masked G1 g2 Y :
  headOf patternAuthorization G1 -> length g2 = 3%nat ->
  match Y with c :: _ => notCRLF (code c) = false | [] => True end ->
  forall k, (k < length G1 + 8)%nat ->
    matchHere patternPassword (drop k ((G1 ++ replicate 5 starRune ++ g2) ++ Y)) = None.
Proof.
  intros HG1 Hg2 HY k Hk.
  set (MH := G1 ++ replicate 5 starRune ++ g2).
  assert (HlenMH : length MH = (length G1 + 8)%nat).
  { unfold MH. rewrite !length_app, length_replicate, Hg2. lia. }
  assert (Hcodes : forall i r, (MH ++ Y) !! i = Some r ->
            ((i < length G1)%nat -> code r <> 34)
            /\ ((length G1 <= i < length G1 + 5)%nat -> code r = 42)
            /\ (i = (length G1 + 8)%nat -> code r = 13 \/ code r = 10)).
  { intros i r Hr. split; [|split].
    - intros Hi. unfold MH in Hr. rewrite <- !app_assoc in Hr.
      rewrite lookup_app_l in Hr by exact Hi.
      destruct (auth_head_codes _ _ _ HG1 Hr) as (_ & H34 & _). exact H34.
    - intros Hi. unfold MH in Hr. rewrite <- !app_assoc in Hr.
      replace i with (length G1 + (i - length G1))%nat in Hr by lia.
      rewrite lookup_stars in Hr by lia. injection Hr as <-. reflexivity.
    - intros ->. rewrite lookup_app_r in Hr by lia.
      rewrite HlenMH, Nat.sub_diag in Hr.
      destruct Y as [|c Y']; [discriminate|]. simpl in Hr. injection Hr as <-.
      unfold notCRLF in HY. apply negb_false_iff in HY.
      rewrite orb_true_iff, !Z.eqb_eq in HY. exact HY. }
  destruct (matchHere patternPassword (drop k (MH ++ Y))) as [[[G g] rest]|] eqn:Hm;
    [|reflexivity].
  exfalso.
  destruct (pw_match_shape _ _ _ _ _ Hm)
    as (j2 & j3 & (r0 & Hr0 & Hp) & Hword & (q & Hq & Hq34) & _).
  destruct (Hcodes _ _ Hq) as (Hq1 & Hq2 & Hq3).
  destruct (decide (k + 8 < length G1)%nat) as [Ha|Ha]; [apply Hq1; auto|].
  destruct (decide (k + 8 < length G1 + 5)%nat) as [Hb|Hb].
  { rewrite Hq2 in Hq34 by lia. discriminate. }
  destruct (decide (k + 8 = length G1 + 8)%nat) as [Hc|Hc].
  { destruct Hq3 as [Hq3|Hq3]; [exact Hc|rewrite Hq3 in Hq34; discriminate
                                 |rewrite Hq3 in Hq34; discriminate]. }
  destruct (decide (k < length G1)%nat) as [Hd|Hd].
  - destruct (Hword (length G1 - k)%nat) as (r & Hr & Hw); [lia|].
    replace (k + (length G1 - k))%nat with (length G1) in Hr by lia.
    destruct (Hcodes _ _ Hr) as (_ & Hs & _).
    apply word_codes in Hw. rewrite Hs in Hw by lia. tauto.
  - destruct (Hword (length G1 + 8 - k)%nat) as (r & Hr & Hw); [lia|].
    replace (k + (length G1 + 8 - k))%nat with (length G1 + 8)%nat in Hr by lia.
    destruct (Hcodes _ _ Hr) as (_ & _ & Hs).
    apply word_codes in Hw. destruct Hs as [Hs|Hs]; [reflexivity|lia|lia].
Qed.

(** C2, as amended.  A credential inside a buffer: some text that spells
    neither [authorization:] nor [password] with its quote, in any case;
    the name [Authorization:] in any case, any white space, a scheme of
    word characters and one white space character; then the rest of the
    line, which starts with the token: three word characters, and at
    least three more characters, whatever their bytes, before the line
    break or the end of the buffer.  [SecretMask] keeps the text before
    the header, the name, the scheme and the first three characters of the
    token, writes the fixed mask of five stars, keeps the last three
    characters of the line, and masks what follows the line break as it
    would on its own. *)
Theorem SecretMask_authorization
    (pre name ws scheme line post : list ascii) (sep : ascii) :
  spells (bytes "authorization:") (decode pre) = false ->
  spells (bytes "password" ++ [quote]) (decode pre) = false ->
  anyCase "authorization:" name ->
  Forall spaceByte ws ->
  scheme <> [] -> codeIs word (decode scheme) ->
  spaceByte sep ->
  codeIs word (take 3 (decode line)) ->
  (6 <= length (decode line))%nat ->
  codeIs notCRLF (decode line) ->
  lineEnd post ->
  SecretMask (pre ++ name ++ ws ++ scheme ++ [sep] ++ line ++ post)
  = pre ++ name ++ ws ++ scheme ++ [sep]
    ++ firstChars 3 line ++ bytes "*****" ++ lastChars 3 line ++ SecretMask post.
Proof.
  intros HnoA HnoP Hname Hws Hne Hsch Hsep Hw3 Hlen Hline Hpost.
  set (U := decode pre) in *.
  set (T := decode line) in *.
  set (P := decode post).
  set (sepR := mkRune (byte_of sep) [sep]).
  set (G1 := asciiRunes (name ++ ws) ++ decode scheme ++ [sepR] ++ take 3 T).
  pose proof (anyCase_length _ _ Hname) as Hnlen. simpl in Hnlen.
  assert (HasciiN : Forall (fun a => byte_of a < 128) (name ++ ws)).
  { apply Forall_app_2.
    - apply (anyCase_ascii "authorization:"); [repeat constructor|exact Hname].
    - eapply Forall_impl; [exact Hws|]. exact spaceByte_ascii. }
  assert (HdecL : decode (line ++ post) = T ++ P).
  { destruct post as [|a post'].
    - rewrite app_nil_r. unfold P. rewrite decode_nil, app_nil_r. reflexivity.
    - apply decode_before_ascii. simpl in Hpost. lia. }
  assert (Hdec : decode (pre ++ name ++ ws ++ scheme ++ [sep] ++ line ++ post)
                 = U ++ G1 ++ drop 3 T ++ P).
  { rewrite (app_assoc name ws).
    rewrite (decode_before_asciis pre (name ++ ws)); [|destruct name; discriminate|exact HasciiN].
    fold U. f_equal.
    rewrite (decode_before_asciis scheme [sep]);
      [|discriminate|constructor; [apply spaceByte_ascii; exact Hsep|constructor]].
    rewrite HdecL. unfold G1. fold sepR.
    rewrite <- (take_drop 3 T) at 1. rewrite <- !app_assoc. reflexivity. }
  assert (HG1 : headOf patternAuthorization G1).
  { apply headOf_auth.
    exists (asciiRunes name), (asciiRunes ws), (decode scheme), sepR, (take 3 T).
    split; [unfold G1; rewrite asciiRunes_app, <- !app_assoc; reflexivity|].
    split; [apply anyCase_litText; exact Hname|].
    split; [apply asciiRunes_codeIs; exact Hws|].
    split; [exact Hsch|].
    split.
    { intros E. apply Hne. rewrite <- (encode_decode scheme), E. reflexivity. }
    split; [exact Hsep|].
    split; [exact Hw3|].
    rewrite length_take. lia. }
  pose proof (lineEnd_decode post Hpost) as HP. fold P in HP.
  set (M := drop 3 T).
  assert (HlenM : length M = (length T - 3)%nat) by (unfold M; apply length_drop).
  assert (Hall : codeIs notCRLF M) by (unfold M; apply Forall_drop; exact Hline).
  assert (Hn : spanLen notCRLF (M ++ P) = (length T - 3)%nat).
  { rewrite spanLen_exact; [exact HlenM|exact Hall|exact HP]. }
  set (g2 := drop (length T - 3) T).
  assert (Hg2len : length g2 = 3%nat) by (unfold g2; rewrite length_drop; lia).
  assert (Hmatch : matchHere patternAuthorization (G1 ++ M ++ P) = Some (G1, g2, P)).
  { apply matchHere_intro; [exact separated_auth|exact HG1|].
    rewrite matchTail_auth. cbv zeta. rewrite Hn.
    destruct (Nat.leb_spec 3 (length T - 3)) as [_|]; [|lia].
    assert (E1 : drop (length T - 3) (M ++ P) = P)
      by (rewrite <- HlenM; apply drop_app_length).
    assert (E2 : take 3 (drop (length T - 3 - 3) (M ++ P)) = g2).
    { rewrite drop_app_le by lia.
      assert (E : drop (length T - 3 - 3) M = g2).
      { unfold M, g2. rewrite drop_drop. f_equal. lia. }
      rewrite E. apply take_app_length'. symmetry. exact Hg2len. }
    rewrite E1, E2. reflexivity. }
  assert (HA : maskAuthorization (U ++ G1 ++ M ++ P)
               = (U ++ G1 ++ replicate 5 starRune ++ g2) ++ maskAuthorization P).
  { unfold maskAuthorization. rewrite (ReplaceAll_eq _ _ _ consumes_auth).
    rewrite (find_intro _ _ _ U Hmatch).
    - rewrite <- !app_assoc. reflexivity.
    - intros k Hk. apply no_auth_before; assumption. }
  set (Y := maskAuthorization P) in *.
  assert (HY : match Y with c :: _ => notCRLF (code c) = false | [] => True end).
  { unfold Y, maskAuthorization.
    apply (ReplaceAll_head_cond patternAuthorization _
             (fun c => notCRLF (code c) = false) P consumes_auth HP). }
  set (MH := G1 ++ replicate 5 starRune ++ g2) in *.
  assert (HlenMH : length MH = (length G1 + 8)%nat).
  { unfold MH. rewrite !length_app, length_replicate, Hg2len. lia. }
  assert (HPw : maskPassword ((U ++ MH) ++ Y) = (U ++ MH) ++ maskPassword Y).
  { unfold maskPassword. apply ReplaceAll_skip; [exact consumes_pw|].
    intros k Hk. rewrite length_app, HlenMH in Hk.
    destruct (decide (k < length U)%nat) as [HkU|HkU].
    - replace ((U ++ MH) ++ Y) with (U ++ G1 ++ (replicate 5 starRune ++ g2) ++ Y)
        by (unfold MH; rewrite <- !app_assoc; reflexivity).
      apply no_pw_before; assumption.
    - replace k with (length U + (k - length U))%nat by lia.
      rewrite <- drop_drop, <- !app_assoc, drop_app_length. unfold MH.
      apply no_pw_in_masked; [exact HG1|exact Hg2len|exact HY|lia]. }
  assert (Hrun : maskRunes (U ++ G1 ++ M ++ P) = (U ++ MH) ++ maskRunes P).
  { change (maskRunes (U ++ G1 ++ M ++ P))
      with (maskPassword (maskAuthorization (U ++ G1 ++ M ++ P))).
    rewrite HA, HPw. reflexivity. }
  unfold SecretMask. rewrite Hdec. fold M. rewrite Hrun.
  rewrite !encode_app. unfold U, MH, G1.
  rewrite !encode_app, encode_decode, encode_asciiRunes, encode_decode.
  unfold firstChars, lastChars. fold T. fold g2. fold P.
  rewrite <- !app_assoc. reflexivity.
Qed.

End CredentialInText.

Lemma SecretMask_authorization_witness :
  let lf := ascii_of_nat 10 in
  let e' := [ascii_of_nat 195; ascii_of_nat 169] in
  Mask.SecretMask
    ((Mask.bytes "X-Trace: 7f3a" ++ [lf])
     ++ Mask.bytes "Authorization:" ++ Mask.bytes " " ++ Mask.bytes "Bearer" ++ [" "%char]
     ++ (Mask.bytes "abctoken1" ++ e' ++ Mask.bytes "3") ++ lf :: Mask.bytes "Accept: */*")
  = (Mask.bytes "X-Trace: 7f3a" ++ [lf])
    ++ Mask.bytes "Authorization: Bearer abc*****1" ++ e' ++ Mask.bytes "3"
    ++ lf :: Mask.bytes "Accept: */*".
Proof.
  intros lf e'.
  etransitivity.
  - apply (SecretMask_authorization
             (Mask.bytes "X-Trace: 7f3a" ++ [lf]) (Mask.bytes "Authorization:")
             (Mask.bytes " ") (Mask.bytes "Bearer")
             (Mask.bytes "abctoken1" ++ e' ++ Mask.bytes "3")
             (lf :: Mask.bytes "Accept: */*") " "%char).
    + reflexivity.
    + reflexivity.
    + unfold Mask.anyCase. simpl. repeat constructor.
    + repeat constructor.
    + discriminate.
    + vm_compute. repeat constructor.
    + reflexivity.
    + vm_compute. repeat constructor.
    + vm_compute. lia.
    + vm_compute. repeat constructor.
    + right. reflexivity.
  - vm_compute. reflexivity.
Defined.

(** Without these conditions the sentence fails.  On the header of the
    specification the character before the last two is kept, so that the
    output is not the first three characters, a run of stars and the last
    two.  A token that does not start with three word characters, or that
    has fewer than six characters, is not masked.  What is kept at the end
    is the end of the line, not of the token.  After an earlier header on
    the same line, or inside the value of a password key, the scheme and
    the first characters of the token are not kept. *)
Lemma SecretMask_authorization_counterexample :
  Mask.SecretMask (Mask.bytes "Authorization: Bearer abctoken123")
  = Mask.bytes "Authorization: Bearer abc*****123"
  /\ (forall n,
         Mask.SecretMask (Mask.bytes "Authorization: Bearer abctoken123")
         <> Mask.bytes "Authorization: Bearer abc" ++ replicate n "*"%char
            ++ Mask.bytes "23")
  /\ Mask.SecretMask (Mask.bytes "Authorization: Bearer sk-live-12345")
     = Mask.bytes "Authorization: Bearer sk-live-12345"
  /\ Mask.SecretMask (Mask.bytes "Authorization: Bearer abcde")
     = Mask.bytes "Authorization: Bearer abcde"
  /\ Mask.SecretMask (Mask.bytes "Authorization: Bearer abctoken123 from=web")
     = Mask.bytes "Authorization: Bearer abc*****web"
  /\ Mask.SecretMask (Mask.bytes "Authorization: Basic abc Authorization: Bearer abctoken123")
     = Mask.bytes "Authorization: Basic abc*****123"
  /\ Mask.SecretMask
       (Mask.bytes "{" ++ Mask.quote :: Mask.bytes "password" ++ Mask.quote :: Mask.bytes ":"
        ++ Mask.quote :: Mask.bytes "x Authorization: Bearer abctoken123"
        ++ Mask.quote :: Mask.bytes "}")
     = Mask.bytes "{" ++ Mask.quote :: Mask.bytes "password" ++ Mask.quote :: Mask.bytes ":"
       ++ Mask.quote :: Mask.bytes "x ***3" ++ Mask.quote :: Mask.bytes "}".
Proof.
  assert (H : Mask.SecretMask (Mask.bytes "Authorization: Bearer abctoken123")
              = Mask.bytes "Authorization: Bearer abc*****123") by reflexivity.
  split; [exact H|]. split; [|repeat split; vm_compute; reflexivity].
  intros n. rewrite H. intros E.
  assert (Hn : n = 6%nat).
  { apply (f_equal length) in E.
    rewrite !length_app, length_replicate in E. simpl in E. lia. }
  subst n. discriminate E.
Qed.

(** ** Middlewares in shared arrays *)

Section SliceFacts.
Import Ctx Slices.

Variable grow : nat -> nat -> nat.

Lemma read_length st s : wellSliced st s -> length (read st s) = len s.
Proof.
  intros [Hl Hc]. unfold read. rewrite length_take, length_drop. lia.
Qed.

Lemma array_insert (st : store) b arr s :
  (b < length st)%nat -> base s = b -> array (<[b := arr]> st) s = arr.
Proof.
  intros Hb <-. unfold array. rewrite list_lookup_insert_eq by exact Hb. reflexivity.
Qed.

Lemma array_insert_ne (st : store) b arr s :
  base s <> b -> array (<[b := arr]> st) s = array st s.
Proof.
  intros Hne. unfold array. rewrite list_lookup_insert_ne by congruence. reflexivity.
Qed.

Lemma array_app (st : store) arr s :
  (base s < length st)%nat -> array (st ++ [arr]) s = array st s.
Proof.
  intros Hb. unfold array. rewrite lookup_app_l by exact Hb. reflexivity.
Qed.

Lemma wellSliced_base st s :
  wellSliced st s -> (0 < cap s)%nat -> (base s < length st)%nat.
Proof.
  intros [_ Hc] Hpos. unfold array in Hc.
  destruct (st !! base s) as [arr|] eqn:E.
  - eapply lookup_lt_Some; eauto.
  - simpl in Hc. lia.
Qed.

(** Writing [vs] after a window of [n] cells at [o]: the window grown by
    [vs] reads as the old cells followed by [vs], and the cells before the
    write are the old ones. *)
Lemma written_window {A} (arr : list A) o n vs :
  (o + n + length vs <= length arr)%nat ->
  let arr' := take (o + n) arr ++ vs ++ drop (o + n + length vs) arr in
  length arr' = length arr
  /\ take (n + length vs) (drop o arr') = take n (drop o arr) ++ vs
  /\ take n (drop o arr') = take n (drop o arr).
Proof.
  intros Hle arr'.
  assert (Hlen : length arr' = length arr).
  { unfold arr'. rewrite !length_app, length_take, length_drop. lia. }
  assert (Hdrop : drop o arr' = take n (drop o arr) ++ vs ++ drop (o + n + length vs) arr).
  { unfold arr'. rewrite drop_app_le by (rewrite length_take; lia).
    rewrite take_drop_commute. reflexivity. }
  assert (Hn : length (take n (drop o arr)) = n)
    by (rewrite length_take, length_drop; lia).
  split; [exact Hlen|]. rewrite Hdrop. split.
  - rewrite app_assoc. apply take_app_length'.
    rewrite length_app, Hn. reflexivity.
  - apply take_app_length'. symmetry. exact Hn.
Qed.

(** [append] when the new length fits the capacity: in place. *)
Lemma append_in_place st s vs :
  wellSliced st s -> (len s + length vs <= cap s)%nat ->
  exists st',
    append grow st s vs = (mkSlice (base s) (off s) (len s + length vs) (cap s), st')
    /\ length st' = length st
    /\ wellSliced st' (mkSlice (base s) (off s) (len s + length vs) (cap s))
    /\ read st' (mkSlice (base s) (off s) (len s + length vs) (cap s))
       = read st s ++ (Some <$> vs)
    /\ read st' s = read st s
    /\ wellSliced st' s.
Proof.
  intros [Hl Hc] Hfit. unfold append.
  destruct (Nat.leb_spec (len s + length vs) (cap s)) as [_|]; [|lia].
  eexists. split; [reflexivity|].
  split; [apply length_insert|].
  destruct (written_window (array st s) (off s) (len s) (Some <$> vs)) as (H1 & H2 & H3).
  { rewrite length_fmap. lia. }
  rewrite length_fmap in H1, H2, H3.
  destruct (decide (base s < length st)%nat) as [Hb|Hb].
  - assert (Harr : forall s', base s' = base s ->
              array (<[base s := take (off s + len s) (array st s) ++ (Some <$> vs)
                                 ++ drop (off s + len s + length vs) (array st s)]> st) s'
              = take (off s + len s) (array st s) ++ (Some <$> vs)
                ++ drop (off s + len s + length vs) (array st s)).
    { intros s' Hs'. apply array_insert; [exact Hb|exact Hs']. }
    unfold wellSliced, read. cbn [base off len cap].
    rewrite !Harr by reflexivity. rewrite H1, H2, H3.
    repeat split; try lia; reflexivity.
  - assert (Hnone : st !! base s = None) by (apply lookup_ge_None; lia).
    assert (Hempty : array st s = []) by (unfold array; rewrite Hnone; reflexivity).
    rewrite Hempty in Hc. simpl in Hc.
    assert (Hvs : vs = []) by (destruct vs; [reflexivity|simpl in Hfit; lia]).
    subst vs. rewrite list_insert_ge by lia.
    unfold wellSliced, read. cbn [base off len cap].
    replace (array st {| base := base s; off := off s; len := len s + length [];
                         cap := cap s |}) with (array st s) by reflexivity.
    rewrite Hempty. simpl. rewrite Nat.add_0_r, app_nil_r.
    repeat split; try lia; reflexivity.
Qed.

(** [append] when it does not: a new array, the old ones untouched. *)
Lemma append_allocates st s vs :
  wellSliced st s -> (cap s < len s + length vs)%nat ->
  exists s' arr,
    append grow st s vs = (s', st ++ [arr])
    /\ base s' = length st /\ len s' = (len s + length vs)%nat
    /\ wellSliced (st ++ [arr]) s'
    /\ read (st ++ [arr]) s' = read st s ++ (Some <$> vs).
Proof.
  intros Hws Hfit. unfold append.
  destruct (Nat.leb_spec (len s + length vs) (cap s)) as [|_]; [lia|].
  set (n := (len s + length vs)%nat).
  set (c := Nat.max n (grow (cap s) n)).
  set (arr := read st s ++ (Some <$> vs) ++ replicate (c - n) None).
  exists (mkSlice (length st) 0 n c), arr.
  split; [reflexivity|]. split; [reflexivity|]. split; [reflexivity|].
  assert (Harr : array (st ++ [arr]) (mkSlice (length st) 0 n c) = arr).
  { unfold array. cbn [base]. rewrite list_lookup_middle by reflexivity. reflexivity. }
  assert (Hlen : length arr = c).
  { unfold arr. rewrite !length_app, length_replicate, length_fmap,
      (read_length st s Hws). unfold n, c. lia. }
  split.
  - unfold wellSliced. cbn [off len cap]. rewrite Harr, Hlen. unfold c. lia.
  - assert (Hread : read (st ++ [arr]) (mkSlice (length st) 0 n c) = take n arr).
    { unfold read at 1. cbn [off len]. rewrite Harr, drop_0. reflexivity. }
    rewrite Hread. unfold arr. rewrite app_assoc. apply take_app_length'.
    rewrite length_app, length_fmap, (read_length st s Hws). reflexivity.
Qed.

Lemma read_app (st : store) arr s :
  (base s < length st)%nat -> read (st ++ [arr]) s = read st s.
Proof. intros Hb. unfold read. rewrite array_app by exact Hb. reflexivity. Qed.

Lemma mapM_id_Some (ms : list CtxMiddleware) : mapM id (Some <$> ms) = Some ms.
Proof.
  apply mapM_Some. induction ms as [|m ms IH]; constructor; [reflexivity|exact IH].
Qed.

Lemma mapM_id_inv (cs : list (option CtxMiddleware)) ms :
  mapM id cs = Some ms -> cs = Some <$> ms.
Proof.
  intros H. apply mapM_Some in H.
  induction H as [|c m cs ms Hc H IH]; [reflexivity|].
  simpl in Hc. subst c. simpl. rewrite IH. reflexivity.
Qed.

Lemma middlewares_read st l ms :
  middlewares st l = Some ms <-> read st (ctxMiddlewares l) = Some <$> ms.
Proof.
  unfold middlewares. split.
  - apply mapM_id_inv.
  - intros ->. apply mapM_id_Some.
Qed.

(** X20. What [WithMiddleware] returns holds the receiver's middlewares
    followed by the new ones, as in the list model, and the receiver still
    holds its own. *)
Theorem WithMiddleware_appends (st : store) (l : Logger) ms new :
  wellSliced st (ctxMiddlewares l) -> middlewares st l = Some ms ->
  exists l' st',
    WithMiddleware grow st l new = (l', st')
    /\ middlewares st' l' = Some (ms ++ new)
    /\ middlewares st' l = Some ms
    /\ wellSliced st' (ctxMiddlewares l')
    /\ listed st' l'
       = (fun a => Logger.WithMiddleware a new) <$> listed st l.
Proof.
  intros Hws Hms. apply middlewares_read in Hms.
  set (s := ctxMiddlewares l) in *.
  assert (Hlisted : forall l' st',
            writer l' = Some (innerWriter l) -> level l' = level l ->
            middlewares st' l' = Some (ms ++ new) ->
            listed st' l' = (fun a => Logger.WithMiddleware a new) <$> listed st l).
  { intros l' st' Hw Hl Hm. unfold listed.
    rewrite Hm, (proj2 (middlewares_read st l ms) Hms). simpl.
    unfold Logger.WithMiddleware, Logger.clone, Logger.innerWriter. simpl.
    rewrite Hw, Hl. reflexivity. }
  unfold WithMiddleware. cbn [clone ctxMiddlewares writer level]. fold s.
  destruct (decide (len s + length new <= cap s)%nat) as [Hfit|Hfit].
  - destruct (append_in_place st s new Hws Hfit) as (st' & Ha & _ & Hws' & Hr' & Hr & _).
    rewrite Ha. eexists _, st'. split; [reflexivity|].
    assert (Hm' : middlewares st' (mkLogger (Some (innerWriter l)) (level l)
                     (mkSlice (base s) (off s) (len s + length new) (cap s)))
                  = Some (ms ++ new)).
    { apply middlewares_read. cbn [ctxMiddlewares]. rewrite Hr', Hms, fmap_app.
      reflexivity. }
    split; [exact Hm'|].
    split; [apply middlewares_read; fold s; rewrite Hr; exact Hms|].
    split; [exact Hws'|]. apply Hlisted; [reflexivity|reflexivity|exact Hm'].
  - destruct (append_allocates st s new Hws) as (s' & arr & Ha & Hb & _ & Hws' & Hr');
      [lia|].
    rewrite Ha. eexists _, (st ++ [arr]). split; [reflexivity|].
    assert (Hm' : middlewares (st ++ [arr]) (mkLogger (Some (innerWriter l)) (level l) s')
                  = Some (ms ++ new)).
    { apply middlewares_read. cbn [ctxMiddlewares]. rewrite Hr', Hms, fmap_app.
      reflexivity. }
    split; [exact Hm'|].
    split.
    { apply middlewares_read. fold s.
      destruct (decide (base s < length st)%nat) as [Hlt|Hge].
      - rewrite read_app by exact Hlt. exact Hms.
      - (* a slice without an array is empty *)
        assert (Hnone : st !! base s = None) by (apply lookup_ge_None; lia).
        destruct Hws as [Hl Hc]. unfold array in Hc. rewrite Hnone in Hc. simpl in Hc.
        assert (Hlen0 : len s = 0%nat) by lia.
        assert (Hr0 : forall st0, read st0 s = []).
        { intros st0. unfold read. rewrite Hlen0. apply take_0. }
        rewrite Hr0 in Hms |- *. exact Hms. }
    split; [exact Hws'|]. apply Hlisted; [reflexivity|reflexivity|exact Hm'].
Qed.

(** X21. Two loggers derived with [WithMiddleware] from one receiver.
    When the receiver's slice of middlewares has a spare cell, both write
    their middleware into that cell: after the second call the first
    logger holds the middleware of the second, and no longer its own.
    When the slice is full, each of them gets an array of its own and
    keeps its middleware. *)
Theorem WithMiddleware_siblings (st : store) (l : Logger) ms m1 m2 :
  wellSliced st (ctxMiddlewares l) -> middlewares st l = Some ms ->
  exists c1 st1 c2 st2,
    WithMiddleware grow st l [m1] = (c1, st1)
    /\ WithMiddleware grow st1 l [m2] = (c2, st2)
    /\ middlewares st1 c1 = Some (ms ++ [m1])
    /\ middlewares st2 c2 = Some (ms ++ [m2])
    /\ ((len (ctxMiddlewares l) < cap (ctxMiddlewares l))%nat ->
        middlewares st2 c1 = Some (ms ++ [m2])
        /\ forall ctx,
             collected st2 c1 ctx = Some (Logger.collectFields (ms ++ [m2]) ctx []))
    /\ (len (ctxMiddlewares l) = cap (ctxMiddlewares l) ->
        middlewares st2 c1 = Some (ms ++ [m1])).
Proof.
  intros Hws Hms. apply middlewares_read in Hms.
  set (s := ctxMiddlewares l) in *.
  unfold WithMiddleware. cbn [clone ctxMiddlewares writer level]. fold s.
  destruct (decide (len s + 1 <= cap s)%nat) as [Hfit|Hfit].
  - (* a spare cell *)
    destruct (append_in_place st s [m1] Hws Hfit)
      as (st1 & Ha1 & Hlen1 & Hws1' & Hr1' & Hr1 & Hws1).
    destruct (append_in_place st1 s [m2] Hws1 Hfit)
      as (st2 & Ha2 & Hlen2 & Hws2' & Hr2' & Hr2 & Hws2).
    cbn [length] in *. rewrite Ha1.
    eexists _, st1, _, st2. split; [reflexivity|]. rewrite Ha2.
    split; [reflexivity|].
    split.
    { apply middlewares_read. cbn [ctxMiddlewares]. rewrite Hr1', Hms, fmap_app.
      reflexivity. }
    assert (H2 : read st2 (mkSlice (base s) (off s) (len s + 1) (cap s))
                 = Some <$> (ms ++ [m2])).
    { rewrite Hr2', Hr1, Hms, fmap_app. reflexivity. }
    split; [apply middlewares_read; exact H2|].
    split; [|intros Hfull; lia].
    intros _.
    assert (H2' : middlewares st2 (mkLogger (Some (innerWriter l)) (level l)
                     (mkSlice (base s) (off s) (len s + 1) (cap s)))
                  = Some (ms ++ [m2])) by (apply middlewares_read; exact H2).
    split; [exact H2'|]. intros ctx. unfold collected. rewrite H2'. reflexivity.
  - (* a full slice *)
    destruct (append_allocates st s [m1] Hws) as (s1 & arr1 & Ha1 & Hb1 & _ & Hws1' & Hr1');
      [simpl; lia|].
    assert (Hws1 : wellSliced (st ++ [arr1]) s /\ read (st ++ [arr1]) s = read st s).
    { destruct (decide (base s < length st)%nat) as [Hlt|Hge].
      - split; [|apply read_app; exact Hlt].
        destruct Hws as [Hl Hc]. split; [exact Hl|].
        rewrite array_app by exact Hlt. exact Hc.
      - assert (Hcap0 : cap s = 0%nat).
        { destruct (decide (cap s = 0%nat)) as [E|E]; [exact E|].
          pose proof (wellSliced_base st s Hws). lia. }
        destruct Hws as [Hl Hc].
        assert (Hlen0 : len s = 0%nat) by lia.
        split.
        + split; [lia|]. destruct s as [b o n c]. cbn [len cap off] in *. subst.
          unfold array in Hc |- *. cbn [base] in *.
          destruct (decide (b = length st)) as [->|Hb].
          * rewrite list_lookup_middle by reflexivity.
            rewrite lookup_ge_None_2 in Hc by lia. simpl in *. lia.
          * rewrite lookup_ge_None_2 by (rewrite length_app; simpl; lia).
            rewrite lookup_ge_None_2 in Hc by lia. exact Hc.
        + unfold read. rewrite Hlen0, !take_0. reflexivity. }
    destruct Hws1 as [Hws1 Hr1].
    destruct (append_allocates (st ++ [arr1]) s [m2] Hws1)
      as (s2 & arr2 & Ha2 & Hb2 & _ & Hws2' & Hr2'); [simpl; lia|].
    rewrite Ha1. eexists _, (st ++ [arr1]), _, ((st ++ [arr1]) ++ [arr2]).
    split; [reflexivity|]. rewrite Ha2. split; [reflexivity|].
    split.
    { apply middlewares_read. cbn [ctxMiddlewares]. rewrite Hr1', Hms, fmap_app.
      reflexivity. }
    split.
    { apply middlewares_read. cbn [ctxMiddlewares].
      rewrite Hr2', Hr1, Hms, fmap_app. reflexivity. }
    split; [intros Hspare; lia|].
    intros _. apply middlewares_read. cbn [ctxMiddlewares].
    rewrite read_app by (rewrite Hb1, length_app; simpl; lia).
    rewrite Hr1', Hms, fmap_app. reflexivity.
Qed.

End SliceFacts.

Lemma WithMiddleware_appends_witness :
  let grow := fun old need : nat => (2 * old)%nat in
  let m := fun _ : Ctx.Context => [Ctx.VStr "tenant"; Ctx.VStr "t1"] in
  let l := Slices.mkLogger None Level.InfoLevel (Slices.mkSlice 0 0 1 1) in
  let st := [[Some Ctx.RequestIDMiddleware]] in
  exists l' st',
    Slices.WithMiddleware grow st l [m] = (l', st')
    /\ Slices.middlewares st' l' = Some [Ctx.RequestIDMiddleware; m]
    /\ Slices.middlewares st' l = Some [Ctx.RequestIDMiddleware].
Proof.
  intros grow m l st.
  destruct (WithMiddleware_appends grow st l [Ctx.RequestIDMiddleware] [m])
    as (l' & st' & HW & H1 & H2 & _).
  - split; simpl; lia.
  - reflexivity.
  - exists l', st'. auto.
Defined.

Lemma WithMiddleware_siblings_witness :
  let grow := fun old need : nat => (2 * old)%nat in
  let a := fun _ : Ctx.Context => [Ctx.VStr "a"] in
  let b := fun _ : Ctx.Context => [Ctx.VStr "b"] in
  let m1 := fun _ : Ctx.Context => [Ctx.VStr "first"] in
  let m2 := fun _ : Ctx.Context => [Ctx.VStr "second"] in
  exists l0 st0 l1 st1 l2 st2 c1 st3 c2 st4,
    Slices.NewWithWriter grow [] Logger.Config_zero Slices.nilSlice None = (l0, st0)
    /\ Slices.WithMiddleware grow st0 l0 [a] = (l1, st1)
    /\ Slices.WithMiddleware grow st1 l1 [b] = (l2, st2)
    /\ Slices.WithMiddleware grow st2 l2 [m1] = (c1, st3)
    /\ Slices.WithMiddleware grow st3 l2 [m2] = (c2, st4)
    /\ Slices.middlewares st3 c1 = Some [Ctx.RequestIDMiddleware; a; b; m1]
    /\ Slices.middlewares st4 c1 = Some [Ctx.RequestIDMiddleware; a; b; m2].
Proof.
  intros grow a b m1 m2.
  eexists _, _, _, _, _, _.
  pose (l2 := Slices.mkLogger (Some Logger.noOpWriter) 0 (Slices.mkSlice 2 0 3 4)).
  pose (st2 := [[Some Ctx.RequestIDMiddleware];
                [Some Ctx.RequestIDMiddleware; Some a];
                [Some Ctx.RequestIDMiddleware; Some a; Some b; None]]).
  destruct (WithMiddleware_siblings grow st2 l2 [Ctx.RequestIDMiddleware; a; b] m1 m2)
    as (c1 & st3 & c2 & st4 & H1 & H2 & H3 & _ & Hspare & _).
  - split; simpl; lia.
  - reflexivity.
  - exists c1, st3, c2, st4.
    split; [reflexivity|]. split; [reflexivity|]. split; [reflexivity|].
    split; [exact H1|]. split; [exact H2|]. split; [exact H3|].
    apply Hspare. simpl. lia.
Defined.
